(** * Silica wallet: challenge-response engine

    A shallow embedding of the two client-side solvers of the wallet,
    [ChallengeService] (src/app/core/services/challenge.service.ts) and
    [NuwChallengeService] (src/app/core/services/nuw-challenge.service.ts),
    and the properties of them that the specification states.

    Conventions.
    - A JavaScript number that the code uses as an integer is a [Z]; the
      32-bit operators [<<], [>>] and [&] are written out with their
      wrap-around ([ToInt32], shift count modulo 32).
    - A [Uint8Array] is a [list Z] whose elements are kept in [0, 256) by
      an explicit [mod 256] wherever the code stores into it.
    - A JavaScript string is a [string]; each [ascii] stands for one code
      unit below 256.
    - The platform (clock, hash-wasm's [argon2id], WebCrypto) is a record
      of functions; a primitive that throws or whose promise rejects
      returns [None].
    - An [async] method is a computation in the monad [M]: it ends in a
      value or in a thrown exception, and it records every call of a
      platform primitive, in order. *)

From Stdlib Require Import ZArith String Ascii List Bool Lia DecimalString.
Import ListNotations.
Local Open Scope string_scope.
Local Open Scope list_scope.
Local Open Scope Z_scope.

(** ** JavaScript integers and typed arrays *)

Module JS.

(** [ToInt32]: the value every 32-bit operator reads its operands at. *)
Definition ToInt32 (z : Z) : Z := (z + 2 ^ 31) mod 2 ^ 32 - 2 ^ 31.

(** [a << n] *)
Definition shl (a n : Z) : Z := ToInt32 (Z.shiftl (ToInt32 a) (n mod 32)).

(** [a >> n], the sign-propagating shift. *)
Definition sar (a n : Z) : Z := Z.shiftr (ToInt32 a) (n mod 32).

(** [a & b] *)
Definition and (a b : Z) : Z := Z.land (ToInt32 a) (ToInt32 b).

(** The value a [Uint8Array] element takes when [v] is stored into it;
    [None] is [NaN]. *)
Definition ToUint8 (v : option Z) : Z :=
  match v with
  | Some z => z mod 256
  | None => 0
  end.

(** [arr[i] !== 0] on a [Uint8Array]: reading past the end gives
    [undefined], which is not [0]. *)
Definition elemNonZero (arr : list Z) (i : nat) : bool :=
  match nth_error arr i with
  | Some b => negb (b =? 0)
  | None => true
  end.

(** [target.set(src, offset)] of a typed array: a [RangeError] ([None])
    when the source does not fit. *)
Definition set (target src : list Z) (offset : nat) : option (list Z) :=
  if (length src + offset <=? length target)%nat
  then Some (firstn offset target ++ src
             ++ skipn (offset + length src) target)
  else None.

(** White space that [parseInt] skips, among the code units below 256:
    TAB, LF, VT, FF, CR, SP and NBSP. *)
Definition isWhiteSpace (c : ascii) : bool :=
  let n := nat_of_ascii c in
  ((9 <=? n) && (n <=? 13) || (n =? 32) || (n =? 160))%nat.

Fixpoint trimStart (s : string) : string :=
  match s with
  | String c r => if isWhiteSpace c then trimStart r else s
  | EmptyString => s
  end.

(** The value of a radix-16 digit, upper or lower case. *)
Definition hexDigitValue (c : ascii) : option Z :=
  let n := Z.of_nat (nat_of_ascii c) in
  if (48 <=? n) && (n <=? 57) then Some (n - 48)
  else if (97 <=? n) && (n <=? 102) then Some (n - 87)
  else if (65 <=? n) && (n <=? 70) then Some (n - 55)
  else None.

(** The longest prefix of [s] made of radix-16 digits, as a number;
    [acc] is [None] until a digit has been read. *)
Fixpoint hexPrefix (s : string) (acc : option Z) : option Z :=
  match s with
  | String c r =>
      match hexDigitValue c with
      | Some d => hexPrefix r (Some (16 * match acc with Some a => a | None => 0 end + d))
      | None => acc
      end
  | EmptyString => acc
  end.

Definition stripSign (s : string) : Z * string :=
  match s with
  | String "-" r => (-1, r)
  | String "+" r => (1, r)
  | _ => (1, s)
  end.

Definition strip0x (s : string) : string :=
  match s with
  | String "0" (String "x" r) => r
  | String "0" (String "X" r) => r
  | _ => s
  end.

(** [parseInt(s, 16)]; [None] is [NaN]. Exact as long as the digits fit a
    double, which two characters do. *)
Definition parseInt16 (s : string) : option Z :=
  let '(sign, s1) := stripSign (trimStart s) in
  match hexPrefix (strip0x s1) None with
  | Some m => Some (sign * m)
  | None => None
  end.

(** The digits [Number.prototype.toString(16)] writes. *)
Definition hexDigit (d : Z) : ascii :=
  if d <? 10 then ascii_of_nat (Z.to_nat (48 + d))
  else ascii_of_nat (Z.to_nat (87 + d)).

End JS.

(** ** The platform and the monad of asynchronous methods *)

(** The argument of hash-wasm's [argon2id]; [outputType] is ['hex'] at
    both call sites, so the result is a string. *)
Record Argon2Options := {
  password : list Z;
  salt : list Z;
  memorySize : Z;
  iterations : Z;
  parallelism : Z;
  hashLength : Z
}.

(** A key imported by [crypto.subtle.importKey('raw', ...)]. *)
Record CryptoKey := { rawKey : list Z }.

(** What the services take from their environment. *)
Record Platform := {
  Date_now : Z;
  argon2id : Argon2Options -> option string;
  subtle_importKey : list Z -> option CryptoKey;
  subtle_verify : CryptoKey -> list Z -> list Z -> option bool;
  subtle_digest : list Z -> list Z
}.

(** A call of a platform primitive, or a hand-over to the scheduler
    ([yieldToUI], a zero-delay [setTimeout]). *)
Inductive Event :=
| EvArgon2id (o : Argon2Options)
| EvImportKey (keyData : list Z)
| EvVerify (key : CryptoKey) (signature data : list Z)
| EvDigest (data : list Z)
| EvYield.

(** What a method can throw: an error object of the service with its
    [code], or whatever a platform primitive threw. *)
Inductive Exn (Code : Type) : Type :=
| Thrown (code : Code)
| PlatformError.
Arguments Thrown {Code} code.
Arguments PlatformError {Code}.

(** The outcome of a method together with the events it caused, oldest
    first. *)
Definition M (Code A : Type) : Type := (Exn Code + A) * list Event.

Definition ret {Code A} (a : A) : M Code A := (inr a, []).

Definition throw {Code A} (code : Code) : M Code A := (inl (Thrown code), []).

Definition bind {Code A B} (m : M Code A) (k : A -> M Code B) : M Code B :=
  match m with
  | (inr a, t1) => let '(r, t2) := k a in (r, t1 ++ t2)
  | (inl e, t1) => (inl e, t1)
  end.

(** [try { m } catch (error) { handler error }] *)
Definition tryCatch {Code A} (m : M Code A) (handler : Exn Code -> M Code A)
  : M Code A :=
  match m with
  | (inr a, t1) => (inr a, t1)
  | (inl e, t1) => let '(r, t2) := handler e in (r, t1 ++ t2)
  end.

(** A call of a primitive that may throw. *)
Definition call {Code A} (ev : Event) (result : option A) : M Code A :=
  match result with
  | Some a => (inr a, [ev])
  | None => (inl PlatformError, [ev])
  end.

Definition yieldToUI {Code} : M Code unit := (inr tt, [EvYield]).

(** An operation of the language itself that throws when it has no
    result (a [RangeError] of [set]). *)
Definition fromOption {Code A} (result : option A) : M Code A :=
  match result with
  | Some a => (inr a, [])
  | None => (inl PlatformError, [])
  end.

(** [await crypto.subtle.digest('SHA-256', data)], as bytes. *)
Definition digestSha256 {Code} (P : Platform) (data : list Z)
  : M Code (list Z) :=
  (inr (subtle_digest P data), [EvDigest data]).

Declare Scope monad_scope.
Delimit Scope monad_scope with monad.
Notation "x <- m ;; k" := (bind m (fun x => k))
  (at level 61, m at next level, right associativity) : monad_scope.
Notation "m ;;; k" := (bind m (fun _ => k))
  (at level 61, right associativity) : monad_scope.
Local Open Scope monad_scope.

Definition outcome {Code A} (m : M Code A) : Exn Code + A := fst m.
Definition events {Code A} (m : M Code A) : list Event := snd m.

(** The [argon2id] calls among the events, in order. *)
Definition argon2Calls (t : list Event) : list Argon2Options :=
  flat_map (fun e => match e with EvArgon2id o => [o] | _ => [] end) t.

(** [view.setBigUint64(0, BigInt(counter), false)] on a fresh
    8-byte buffer: the counter modulo 2^64, most significant byte
    first. *)
Definition be64 (counter : Z) : list Z :=
  map (fun k => (counter / 2 ^ (8 * k)) mod 256) [7; 6; 5; 4; 3; 2; 1; 0].

(** ** RpcService (rpc.service.ts) *)

Module RpcService.

(** [s.endsWith(suffix)] and [s.includes(needle)]. *)
Definition endsWith (s suffix : string) : bool :=
  (String.length suffix <=? String.length s)%nat
  && String.eqb
       (substring (String.length s - String.length suffix)
                  (String.length suffix) s)
       suffix.

Fixpoint includes (s needle : string) : bool :=
  if String.prefix needle s then true
  else match s with
       | String _ rest => includes rest needle
       | EmptyString => false
       end.

(** [`${n}`] for an integer, and for [undefined]. *)
Definition numberToString (n : option Z) : string :=
  match n with
  | Some z => DecimalString.NilZero.string_of_int (Z.to_int z)
  | None => "undefined"
  end.

(** [text || fallback] on a string that may be [undefined]: the empty
    string is falsy too. *)
Definition orElse (text : option string) (fallback : string) : string :=
  match text with
  | Some t => if String.eqb t "" then fallback else t
  | None => fallback
  end.

Record JsonRpcRequest (Params : Type) := {
  method : string;
  params : Params;
  id : Z
}.
Arguments method {Params}.
Arguments params {Params}.
Arguments id {Params}.

Record ErrorData := {
  requires_challenge : option bool;
  hint : option string
}.

Record ErrorObject := {
  error_code : Z;
  error_message : string;
  data : option ErrorData
}.

Record JsonRpcResponse (T : Type) := {
  jsonrpc : string;
  result : option T;
  error : option ErrorObject;
  response_id : Z
}.
Arguments jsonrpc {T}.
Arguments result {T}.
Arguments error {T}.
Arguments response_id {T}.

(** [RpcError] with the five fields its constructor sets. *)
Record RpcError := {
  message : string;
  code : Z;
  isNetworkError : bool;
  isCorsError : bool;
  requiresChallenge : bool
}.

(** [new RpcError(message, code)]: an [undefined] code takes the default
    [-1], and the flags left out are [false]. *)
Definition newRpcError (message : string) (code : option Z) : RpcError :=
  {| message := message;
     code := match code with Some c => c | None => -1 end;
     isNetworkError := false;
     isCorsError := false;
     requiresChallenge := false |}.

(** The error object that reaches [catchError]: an [HttpErrorResponse],
    or an error without a [status] such as the one of [timeout]. *)
Record HttpFailure := {
  status : option Z;
  failure_message : option string;
  statusText : option string
}.

(** What [firstValueFrom(http.post(...).pipe(timeout, catchError))]
    does: it yields the body ([None] is an empty body), an error goes
    through [catchError], or something is thrown outside the pipe
    ([Some] the message of an [Error], [None] for any other value). *)
Inductive HttpOutcome (T : Type) : Type :=
| Emits (response : option (JsonRpcResponse T))
| Fails (error : HttpFailure)
| Escapes (thrown : option string).
Arguments Emits {T} response.
Arguments Fails {T} error.
Arguments Escapes {T} thrown.

(** The transport: the URL, the request and the timeout decide the
    outcome. *)
Definition Http (Params T : Type) : Type :=
  string -> JsonRpcRequest Params -> Z -> HttpOutcome T.

Definition defaultTimeout : Z := 30000.

(** [handleHttpError]; [onLine] is [navigator.onLine]. *)
Definition handleHttpError (onLine : bool) (error : HttpFailure)
    (url : string) : RpcError :=
  if match status error with Some st => st =? 0 | None => false end then
    let isCors :=
      match failure_message error with
      | Some m => includes m "CORS"
      | None => false
      end
      || match failure_message error with
         | Some m => includes m "cross-origin"
         | None => false
         end
      || Bool.eqb (negb onLine) false in
    if isCors then
      {| message := ("CORS error: Unable to connect to " ++ url
                     ++ ". The server may not allow cross-origin requests from this domain.")%string;
         code := 0;
         isNetworkError := true;
         isCorsError := true;
         requiresChallenge := false |}
    else
      {| message := ("Network error: Unable to connect to " ++ url
                     ++ ". Please check if the node is running.")%string;
         code := 0;
         isNetworkError := true;
         isCorsError := false;
         requiresChallenge := false |}
  else if match status error with
          | Some st => (st >=? 400) && (st <? 500)
          | None => false
          end then
    newRpcError ("Client error (" ++ numberToString (status error) ++ "): "
                 ++ orElse (statusText error) "Bad request")%string
                (status error)
  else if match status error with Some st => st >=? 500 | None => false end
  then
    newRpcError ("Server error (" ++ numberToString (status error) ++ "): "
                 ++ orElse (statusText error) "Internal server error")%string
                (status error)
  else
    newRpcError ("HTTP error (" ++ numberToString (status error) ++ "): "
                 ++ orElse (statusText error) "Unknown error")%string
                (status error).

(** [call]: the request counter goes in and comes out; the result is the
    [result] field or the [RpcError] thrown. *)
Definition call {Params T : Type} (http : Http Params T) (onLine : bool)
    (requestIdCounter : Z) (nodeUrl method : string) (params : Params)
    (timeoutMs : Z) : (RpcError + T) * Z :=
  let rpcUrl :=
    if endsWith nodeUrl "/jsonrpc" then nodeUrl
    else (nodeUrl ++ "/jsonrpc")%string in
  let requestIdCounter := requestIdCounter + 1 in
  let request :=
    {| method := method; params := params; id := requestIdCounter |} in
  (match http rpcUrl request timeoutMs with
   | Fails error => inl (handleHttpError onLine error rpcUrl)
   | Escapes thrown =>
       inl {| message := match thrown with
                         | Some m => m
                         | None => "Unknown RPC error"
                         end;
              code := -1;
              isNetworkError := true;
              isCorsError := false;
              requiresChallenge := false |}
   | Emits None => inl (newRpcError "Empty response from server" None)
   | Emits (Some response) =>
       match error response with
       | Some e =>
           let requiresChallenge :=
             match data e with
             | Some d =>
                 match requires_challenge d with
                 | Some true => true
                 | _ => false
                 end
             | None => false
             end in
           inl {| message := error_message e;
                  code := error_code e;
                  isNetworkError := false;
                  isCorsError := false;
                  requiresChallenge := requiresChallenge |}
       | None =>
           match result response with
           | None => inl (newRpcError "Response missing result field" None)
           | Some r => inr r
           end
       end
   end,
   requestIdCounter).

End RpcService.

(** ** ChallengeService (challenge.service.ts) *)

Module ChallengeService.

Inductive ErrorCode :=
| FETCH_FAILED | SOLVE_FAILED | EXPIRED | INVALID | WASM_FAILED.

Definition codeName (c : ErrorCode) : string :=
  match c with
  | FETCH_FAILED => "FETCH_FAILED"
  | SOLVE_FAILED => "SOLVE_FAILED"
  | EXPIRED => "EXPIRED"
  | INVALID => "INVALID"
  | WASM_FAILED => "WASM_FAILED"
  end.

Record TransactionChallenge := {
  challenge_id : string;
  nonce : string;
  difficulty : Z;
  memory_cost : Z;
  time_cost : Z;
  expires_at : Z;
  instructions : string
}.

Record SolvedChallenge := {
  solved_challenge_id : string;
  solution : string;
  hash : string
}.

Definition DEFAULT_PARALLELISM : Z := 1.
Definition DEFAULT_HASH_LENGTH : Z := 32.
Definition DEFAULT_MAX_ATTEMPTS : Z := 10000.

(** [hexToBytes]: [new Uint8Array(hex.length / 2)] has
    [floor(hex.length / 2)] elements, and element [i] is
    [parseInt(hex.substr(i * 2, 2), 16)]. *)
Definition hexToBytes (hex : string) : list Z :=
  map (fun i => JS.ToUint8 (JS.parseInt16 (substring (i * 2) 2 hex)))
      (seq 0 (String.length hex / 2)).

(** [b.toString(16).padStart(2, '0')] for an element of a [Uint8Array]. *)
Definition byteToHex (b : Z) : string :=
  String (JS.hexDigit (b / 16)) (String (JS.hexDigit (b mod 16)) EmptyString).

Definition bytesToHex (bytes : list Z) : string :=
  String.concat "" (map byteToHex bytes).

(** [hasLeadingZeros]: the loop over the full bytes, then the masked
    test of the next byte. *)
Definition hasLeadingZeros (hash : list Z) (requiredBits : Z) : bool :=
  let fullBytes := requiredBits / 8 in
  let remainingBits := Z.rem requiredBits 8 in
  if existsb (JS.elemNonZero hash) (seq 0 (Z.to_nat fullBytes)) then false
  else if (remainingBits >? 0) && (fullBytes <? Z.of_nat (length hash)) then
    let mask := JS.shl 255 (8 - remainingBits) in
    if negb (JS.and (nth (Z.to_nat fullBytes) hash 0) mask =? 0) then false
    else true
  else true.

(** The options of the [argon2id] call of iteration [counter]. *)
Definition argon2Options (challenge : TransactionChallenge) (salt : list Z)
    (counter : Z) : Argon2Options :=
  {| password := be64 counter;
     salt := salt;
     memorySize := memory_cost challenge;
     iterations := time_cost challenge;
     parallelism := DEFAULT_PARALLELISM;
     hashLength := DEFAULT_HASH_LENGTH |}.

(** One turn of the loop of [solveChallenge]: [Some] is the [return]
    inside the [try], [None] falls through to the next counter. Only the
    [argon2id] call can throw inside the [try]. *)
Definition attempt (P : Platform) (challenge : TransactionChallenge)
    (salt : list Z) (counter : Z) : M ErrorCode (option SolvedChallenge) :=
  tryCatch
    (let counterBytes := be64 counter in
     let o := argon2Options challenge salt counter in
     hashHex <- call (EvArgon2id o) (argon2id P o) ;;
     let hash := hexToBytes hashHex in
     if hasLeadingZeros hash (difficulty challenge) then
       ret (Some {| solved_challenge_id := challenge_id challenge;
                    solution := bytesToHex counterBytes;
                    hash := hashHex |})
     else
       (if (Z.rem counter 10 =? 0) && (counter >? 0)
        then yieldToUI else ret tt) ;;;
       ret None)
    (fun error => throw WASM_FAILED).

(** [for (let counter = 0; counter < maxAttempts; counter++)], by
    recursion on the number of turns left. *)
Fixpoint solveLoop (P : Platform) (challenge : TransactionChallenge)
    (salt : list Z) (turns : nat) (counter : Z) : M ErrorCode SolvedChallenge :=
  match turns with
  | O => throw SOLVE_FAILED
  | S turns' =>
      r <- attempt P challenge salt counter ;;
      match r with
      | Some solved => ret solved
      | None => solveLoop P challenge salt turns' (counter + 1)
      end
  end.

(** [solveChallenge(challenge, maxAttempts = 10_000)]; [None] is the
    omitted argument. *)
Definition solveChallenge (P : Platform) (challenge : TransactionChallenge)
    (maxAttempts : option Z) : M ErrorCode SolvedChallenge :=
  let maxAttempts :=
    match maxAttempts with Some m => m | None => DEFAULT_MAX_ATTEMPTS end in
  let now := Date_now P / 1000 in
  if expires_at challenge <? now then throw EXPIRED
  else
    let salt := hexToBytes (nonce challenge) in
    if negb (length salt =? 32)%nat then throw INVALID
    else solveLoop P challenge salt (Z.to_nat maxAttempts) 0.

(** *** Fetching a challenge *)

Definition DEFAULT_MEMORY_COST : Z := 1024.
Definition DEFAULT_TIME_COST : Z := 2.

(** The [Partial<TransactionChallenge>] a node answers with. The code
    asserts [challenge_id], [nonce] and [expires_at] with [!]; the model
    covers the answers that carry them. *)
Record ChallengeResponse := {
  response_challenge_id : string;
  response_nonce : string;
  response_difficulty : option Z;
  response_memory_cost : option Z;
  response_time_cost : option Z;
  response_expires_at : Z;
  response_instructions : option string
}.

(** A [ChallengeError] with its message. *)
Record ChallengeError := {
  error_message : string;
  error_code : ErrorCode
}.

(** [getChallenge]: [call] throws nothing but an [RpcError], so the
    first branch of the [catch] is the one taken. *)
Definition getChallenge (http : RpcService.Http unit ChallengeResponse)
    (onLine : bool) (requestIdCounter : Z) (nodeUrl : string)
  : (ChallengeError + TransactionChallenge) * Z :=
  match RpcService.call http onLine requestIdCounter nodeUrl
          "get_transaction_challenge" tt RpcService.defaultTimeout with
  | (inr response, counter) =>
      (inr {| challenge_id := response_challenge_id response;
              nonce := response_nonce response;
              difficulty :=
                match response_difficulty response with
                | Some d => d
                | None => 16
                end;
              memory_cost :=
                match response_memory_cost response with
                | Some m => m
                | None => DEFAULT_MEMORY_COST
                end;
              time_cost :=
                match response_time_cost response with
                | Some t => t
                | None => DEFAULT_TIME_COST
                end;
              expires_at := response_expires_at response;
              instructions :=
                match response_instructions response with
                | Some i => i
                | None => "Solve Argon2id PoW challenge"
                end |},
       counter)
  | (inl error, counter) =>
      (inl {| error_message :=
                ("Failed to get challenge: "
                 ++ RpcService.message error)%string;
              error_code := FETCH_FAILED |},
       counter)
  end.

(** [getSolvedChallenge]: fetch, then solve with the default bound. *)
Definition getSolvedChallenge (http : RpcService.Http unit ChallengeResponse)
    (onLine : bool) (P : Platform) (requestIdCounter : Z) (nodeUrl : string)
  : M ErrorCode SolvedChallenge * Z :=
  match getChallenge http onLine requestIdCounter nodeUrl with
  | (inr challenge, counter) => (solveChallenge P challenge None, counter)
  | (inl error, counter) => ((inl (Thrown (error_code error)), []), counter)
  end.

End ChallengeService.

(** ** NuwChallengeService (nuw-challenge.service.ts) *)

Module NuwChallengeService.

(** [NuwChallengeType]; [UNKNOWN] stands for a [challenge_type] outside
    the enum, which the JSON of a node can carry and the [default:]
    branch of the dispatcher receives. *)
Inductive NuwChallengeType :=
| ARGON2_POW | SIGNATURE_BATCH | ZK_VERIFY | PQ_ASSIST | MERKLE_VERIFY
| UNKNOWN (tag : string).

Definition NUW_FEE_DISCOUNTS (t : NuwChallengeType) : option Z :=
  match t with
  | ARGON2_POW => Some 0
  | SIGNATURE_BATCH => Some 25
  | ZK_VERIFY => Some 50
  | PQ_ASSIST => Some 40
  | MERKLE_VERIFY => Some 30
  | UNKNOWN _ => None
  end.

Inductive Algorithm := ed25519 | dilithium2.

Record PendingSignature := {
  tx_id : string;
  message : string;
  signature : string;
  public_key : string;
  algorithm : Algorithm
}.

Record ZkProofTask := {
  proof_id : string;
  proof_type : string;
  zk_proof_data : string;
  public_inputs : list string;
  verification_key : string
}.

Record MerkleProofTask := {
  root : string;
  leaf : string;
  proof : list string;
  index : Z
}.

Record Argon2Params := {
  nonce : string;
  difficulty : Z;
  memory_cost : Z;
  time_cost : Z
}.

(** [NuwChallenge]; an optional field that is absent is [None]. *)
Record NuwChallenge := {
  challenge_id : string;
  challenge_type : NuwChallengeType;
  fee_discount_percent : Z;
  expires_at : Z;
  argon2_params : option Argon2Params;
  signature_batch : option (list PendingSignature);
  zk_proof : option ZkProofTask;
  merkle_proofs : option (list MerkleProofTask)
}.

Record SignatureResult := { sr_tx_id : string; sr_valid : bool }.
Record ZkResult := { zr_proof_id : string; zr_valid : bool }.
Record MerkleResult := { mr_index : Z; mr_valid : bool }.

Record NuwSolution := {
  sol_challenge_id : string;
  sol_challenge_type : NuwChallengeType;
  argon2_solution : option string;
  signature_results : option (list SignatureResult);
  zk_result : option ZkResult;
  merkle_results : option (list MerkleResult)
}.

Inductive ErrorCode :=
| FETCH_FAILED | SOLVE_FAILED | EXPIRED | INVALID | WASM_UNAVAILABLE
| UNSUPPORTED_TYPE.

Definition codeName (c : ErrorCode) : string :=
  match c with
  | FETCH_FAILED => "FETCH_FAILED"
  | SOLVE_FAILED => "SOLVE_FAILED"
  | EXPIRED => "EXPIRED"
  | INVALID => "INVALID"
  | WASM_UNAVAILABLE => "WASM_UNAVAILABLE"
  | UNSUPPORTED_TYPE => "UNSUPPORTED_TYPE"
  end.

(** *** Helpers *)

Definition hexToBytes (hex : string) : list Z :=
  map (fun i => JS.ToUint8 (JS.parseInt16 (substring (i * 2) 2 hex)))
      (seq 0 (String.length hex / 2)).

Definition byteToHex (b : Z) : string :=
  String (JS.hexDigit (b / 16)) (String (JS.hexDigit (b mod 16)) EmptyString).

Definition bytesToHex (bytes : list Z) : string :=
  String.concat "" (map byteToHex bytes).

Definition hasLeadingZeros (hash : list Z) (requiredBits : Z) : bool :=
  let fullBytes := requiredBits / 8 in
  let remainingBits := Z.rem requiredBits 8 in
  if existsb (JS.elemNonZero hash) (seq 0 (Z.to_nat fullBytes)) then false
  else if (remainingBits >? 0) && (fullBytes <? Z.of_nat (length hash)) then
    let mask := JS.shl 255 (8 - remainingBits) in
    if negb (JS.and (nth (Z.to_nat fullBytes) hash 0) mask =? 0) then false
    else true
  else true.

(** [verifySignature]: the inner [try] around WebCrypto answers [false]
    when [importKey] or [verify] throws; anything but ['ed25519'] is
    answered [false] without a call. *)
Definition verifySignature (P : Platform) (message signature publicKey : list Z)
    (algorithm : Algorithm) : M ErrorCode bool :=
  tryCatch
    (match algorithm with
     | ed25519 =>
         tryCatch
           (key <- call (EvImportKey publicKey) (subtle_importKey P publicKey) ;;
            call (EvVerify key signature message)
                 (subtle_verify P key signature message))
           (fun _ => ret false)
     | dilithium2 => ret false
     end)
    (fun error => ret false).

(** The 64-byte buffer that is hashed at one level: [combined.set] twice
    on a zero-filled [Uint8Array(64)]. *)
Definition combine (isRight : bool) (current sibling : list Z)
  : option (list Z) :=
  let combined := repeat 0 64 in
  if isRight then
    match JS.set combined sibling 0 with
    | Some c => JS.set c current 32
    | None => None
    end
  else
    match JS.set combined current 0 with
    | Some c => JS.set c sibling 32
    | None => None
    end.

(** The loop of [verifyMerkleProof] from step [i] on. A [set] that
    does not fit throws; the digest is always there. *)
Fixpoint merkleLoop (P : Platform) (proofHex : list string) (index i : Z)
    (current : list Z) : M ErrorCode (list Z) :=
  match proofHex with
  | [] => ret current
  | siblingHex :: rest =>
      let sibling := hexToBytes siblingHex in
      let isRight := JS.and (JS.sar index i) 1 in
      combined <- fromOption (combine (negb (isRight =? 0)) current sibling) ;;
      hashBuffer <- digestSha256 P combined ;;
      merkleLoop P rest index (i + 1) hashBuffer
  end.

(** The comparison with the root that ends [verifyMerkleProof]. *)
Definition sameBytes (current root : list Z) : bool :=
  if negb (length current =? length root)%nat then false
  else if existsb (fun i => negb (nth i current 0 =? nth i root 0))
                  (seq 0 (length current)) then false
  else true.

Definition verifyMerkleProof (P : Platform) (rootHex leafHex : string)
    (proofHex : list string) (index : Z) : M ErrorCode bool :=
  let root := hexToBytes rootHex in
  current <- merkleLoop P proofHex index 0 (hexToBytes leafHex) ;;
  ret (sameBytes current root).

(** *** Solvers *)

Definition MAX_ATTEMPTS : Z := 10000.

Definition argon2Options (params : Argon2Params) (salt : list Z)
    (counter : Z) : Argon2Options :=
  {| password := be64 counter;
     salt := salt;
     memorySize := memory_cost params;
     iterations := time_cost params;
     parallelism := 1;
     hashLength := 32 |}.

(** One turn of the loop of [solveArgon2]: the [try] around the hash and
    the test, then the yield. *)
Definition attempt (P : Platform) (challenge : NuwChallenge)
    (params : Argon2Params) (salt : list Z) (counter : Z)
  : M ErrorCode (option NuwSolution) :=
  let counterBytes := be64 counter in
  r <- tryCatch
         (let o := argon2Options params salt counter in
          hashHex <- call (EvArgon2id o) (argon2id P o) ;;
          let hash := hexToBytes hashHex in
          if hasLeadingZeros hash (difficulty params) then
            ret (Some {| sol_challenge_id := challenge_id challenge;
                         sol_challenge_type := ARGON2_POW;
                         argon2_solution := Some (bytesToHex counterBytes);
                         signature_results := None;
                         zk_result := None;
                         merkle_results := None |})
          else ret None)
         (fun error => throw SOLVE_FAILED) ;;
  match r with
  | Some solved => ret (Some solved)
  | None =>
      (if Z.rem counter 10 =? 0 then yieldToUI else ret tt) ;;;
      ret None
  end.

Fixpoint solveLoop (P : Platform) (challenge : NuwChallenge)
    (params : Argon2Params) (salt : list Z) (turns : nat) (counter : Z)
  : M ErrorCode NuwSolution :=
  match turns with
  | O => throw SOLVE_FAILED
  | S turns' =>
      r <- attempt P challenge params salt counter ;;
      match r with
      | Some solved => ret solved
      | None => solveLoop P challenge params salt turns' (counter + 1)
      end
  end.

Definition solveArgon2 (P : Platform) (challenge : NuwChallenge)
  : M ErrorCode NuwSolution :=
  match argon2_params challenge with
  | None => throw INVALID
  | Some params =>
      let salt := hexToBytes (nonce params) in
      solveLoop P challenge params salt (Z.to_nat MAX_ATTEMPTS) 0
  end.

(** The body of the [for ... of] loop of [solveSignatureBatch] for one
    item: the result it pushes. *)
Definition verifyItem (P : Platform) (sig : PendingSignature)
  : M ErrorCode SignatureResult :=
  r <- tryCatch
         (let message := hexToBytes (message sig) in
          let signature := hexToBytes (signature sig) in
          let publicKey := hexToBytes (public_key sig) in
          valid <- verifySignature P message signature publicKey
                     (algorithm sig) ;;
          ret {| sr_tx_id := tx_id sig; sr_valid := valid |})
         (fun error => ret {| sr_tx_id := tx_id sig; sr_valid := false |}) ;;
  yieldToUI ;;;
  ret r.

Fixpoint verifyItems (P : Platform) (batch : list PendingSignature)
    (results : list SignatureResult) : M ErrorCode (list SignatureResult) :=
  match batch with
  | [] => ret results
  | sig :: rest =>
      r <- verifyItem P sig ;;
      verifyItems P rest (results ++ [r])
  end.

Definition solveSignatureBatch (P : Platform) (challenge : NuwChallenge)
  : M ErrorCode NuwSolution :=
  match signature_batch challenge with
  | None => throw INVALID
  | Some [] => throw INVALID
  | Some batch =>
      results <- verifyItems P batch [] ;;
      ret {| sol_challenge_id := challenge_id challenge;
             sol_challenge_type := SIGNATURE_BATCH;
             argon2_solution := None;
             signature_results := Some results;
             zk_result := None;
             merkle_results := None |}
  end.

Definition solveZkVerify (P : Platform) (challenge : NuwChallenge)
  : M ErrorCode NuwSolution :=
  match zk_proof challenge with
  | None => throw INVALID
  | Some task =>
      ret {| sol_challenge_id := challenge_id challenge;
             sol_challenge_type := ZK_VERIFY;
             argon2_solution := None;
             signature_results := None;
             zk_result := Some {| zr_proof_id := proof_id task;
                                  zr_valid := true |};
             merkle_results := None |}
  end.

Fixpoint verifyProofs (P : Platform) (tasks : list MerkleProofTask)
    (results : list MerkleResult) : M ErrorCode (list MerkleResult) :=
  match tasks with
  | [] => ret results
  | task :: rest =>
      valid <- verifyMerkleProof P (root task) (leaf task) (proof task)
                 (index task) ;;
      verifyProofs P rest (results ++ [{| mr_index := index task;
                                          mr_valid := valid |}])
  end.

Definition solveMerkleVerify (P : Platform) (challenge : NuwChallenge)
  : M ErrorCode NuwSolution :=
  match merkle_proofs challenge with
  | None => throw INVALID
  | Some [] => throw INVALID
  | Some tasks =>
      results <- verifyProofs P tasks [] ;;
      ret {| sol_challenge_id := challenge_id challenge;
             sol_challenge_type := MERKLE_VERIFY;
             argon2_solution := None;
             signature_results := None;
             zk_result := None;
             merkle_results := Some results |}
  end.

(** The dispatcher. *)
Definition solveChallenge (P : Platform) (challenge : NuwChallenge)
  : M ErrorCode NuwSolution :=
  let now := Date_now P / 1000 in
  if expires_at challenge <? now then throw EXPIRED
  else
    match challenge_type challenge with
    | ARGON2_POW => solveArgon2 P challenge
    | SIGNATURE_BATCH => solveSignatureBatch P challenge
    | ZK_VERIFY => solveZkVerify P challenge
    | MERKLE_VERIFY => solveMerkleVerify P challenge
    | PQ_ASSIST => solveArgon2 P challenge
    | UNKNOWN _ => throw UNSUPPORTED_TYPE
    end.

(** *** Fetching a challenge and reporting capabilities *)

Record NuwChallengeError := {
  error_message : string;
  error_code : ErrorCode
}.

(** [getChallenge(nodeUrl, preferredType?)]; the parameter of the call is
    [{ preferred_type: preferredType }]. *)
Definition getChallenge
    (http : RpcService.Http (option NuwChallengeType) NuwChallenge)
    (onLine : bool) (requestIdCounter : Z) (nodeUrl : string)
    (preferredType : option NuwChallengeType)
  : (NuwChallengeError + NuwChallenge) * Z :=
  match RpcService.call http onLine requestIdCounter nodeUrl
          "get_nuw_challenge" preferredType RpcService.defaultTimeout with
  | (inr challenge, counter) => (inr challenge, counter)
  | (inl error, counter) =>
      (inl {| error_message :=
                ("Failed to get NUW challenge: "
                 ++ RpcService.message error)%string;
              error_code := FETCH_FAILED |},
       counter)
  end.

Definition getSolvedChallenge
    (http : RpcService.Http (option NuwChallengeType) NuwChallenge)
    (onLine : bool) (P : Platform) (requestIdCounter : Z) (nodeUrl : string)
    (preferredType : option NuwChallengeType)
  : M ErrorCode NuwSolution * Z :=
  match getChallenge http onLine requestIdCounter nodeUrl preferredType with
  | (inr challenge, counter) => (solveChallenge P challenge, counter)
  | (inl error, counter) => ((inl (Thrown (error_code error)), []), counter)
  end.

(** [getAvailableTypes]; [isReady] is what [wasmService.isReady()]
    answers, [None] when the call throws. *)
Definition getAvailableTypes (isReady : option bool) : list NuwChallengeType :=
  let types := [ARGON2_POW] in
  match isReady with
  | Some true => (types ++ [SIGNATURE_BATCH]) ++ [MERKLE_VERIFY]
  | Some false => types
  | None => types
  end.

End NuwChallengeService.

(** ** TransactionService (transaction.service.ts) *)

Module TransactionService.

Record SendTransactionRequest := {
  from_address : string;
  to_address : string;
  amount : string;
  fee : string;
  memo : option string;
  signature : string;
  public_key : string;
  nonce : Z
}.

(** The parameter object of [send_transaction]: the request and the
    solved challenge. *)
Record SendParams := {
  sent : SendTransactionRequest;
  challenge : ChallengeService.SolvedChallenge
}.

Inductive SubmitStatus := submit_pending | submitted.

Record SendTransactionResponse := {
  transaction_id : string;
  send_status : SubmitStatus;
  timestamp : string
}.

(** What [sendTransaction] throws: an [Error] with a message of its own,
    or the error of the challenge step, thrown on as it is. *)
Inductive SendError :=
| Error (message : string)
| Rethrown (error : Exn ChallengeService.ErrorCode).

(** [sendTransaction]: the outcome, the events of the solver, and the
    request counter. *)
Definition sendTransaction
    (challengeHttp : RpcService.Http unit ChallengeService.ChallengeResponse)
    (sendHttp : RpcService.Http SendParams SendTransactionResponse)
    (onLine : bool) (P : Platform) (requestIdCounter : Z) (nodeUrl : string)
    (request : SendTransactionRequest)
  : (SendError + SendTransactionResponse) * list Event * Z :=
  match ChallengeService.getSolvedChallenge challengeHttp onLine P
          requestIdCounter nodeUrl with
  | ((inl error, trace), counter) => (inl (Rethrown error), trace, counter)
  | ((inr solvedChallenge, trace), counter) =>
      match RpcService.call sendHttp onLine counter nodeUrl "send_transaction"
              {| sent := request; challenge := solvedChallenge |}
              RpcService.defaultTimeout with
      | (inr result, counter') => (inr result, trace, counter')
      | (inl error, counter') =>
          (inl (Error
                  (if RpcService.isCorsError error then
                     "Cannot send transaction: CORS policy blocks requests to the node. Please use the desktop wallet or configure a proxy."
                   else if RpcService.isNetworkError error then
                     "Cannot send transaction: Unable to connect to the node. Please check your network connection."
                   else if RpcService.requiresChallenge error then
                     "Transaction requires proof-of-work challenge. Please try again."
                   else ("Transaction failed: "
                         ++ RpcService.message error)%string)),
           trace, counter')
      end
  end.

End TransactionService.

(** ** PaymentRequestService (payment-request.service.ts) *)

Module PaymentRequestService.

Definition HEX_ALPHABET : string := "0123456789abcdef".

(** [HEX_ALPHABET[i]] appended to a string: a character, or the text of
    [undefined] past the end. *)
Definition alphabetAt (i : Z) : string :=
  if i <? 0 then "undefined"
  else match String.get (Z.to_nat i) HEX_ALPHABET with
       | Some c => String c EmptyString
       | None => "undefined"
       end.

(** The loop of [createToken] over the buffer that
    [crypto.getRandomValues] filled. *)
Fixpoint tokenOf (buffer : list Z) (token : string) : string :=
  match buffer with
  | [] => token
  | byte :: rest =>
      let token := (token ++ alphabetAt (JS.and (JS.sar byte 4) 15))%string in
      let token := (token ++ alphabetAt (JS.and byte 15))%string in
      tokenOf rest token
  end.

Definition createToken (buffer : list Z) : string := tokenOf buffer "".

End PaymentRequestService.

(** ** SHA-256

    The function behind [crypto.subtle.digest('SHA-256', _)], after
    FIPS 180-4, on words kept below 2^32. It instantiates the platform
    where a run needs a concrete digest. *)

Module SHA256.

Definition w32 (x : Z) : Z := Z.land x 0xffffffff.
Definition add (x y : Z) : Z := w32 (x + y).
Definition rotr (n x : Z) : Z :=
  Z.lor (Z.shiftr x n) (w32 (Z.shiftl x (32 - n))).
Definition shr (n x : Z) : Z := Z.shiftr x n.
Definition bnot (x : Z) : Z := Z.lxor x 0xffffffff.

Definition Ch (x y z : Z) : Z := Z.lxor (Z.land x y) (Z.land (bnot x) z).
Definition Maj (x y z : Z) : Z :=
  Z.lxor (Z.lxor (Z.land x y) (Z.land x z)) (Z.land y z).
Definition Sigma0 (x : Z) : Z :=
  Z.lxor (Z.lxor (rotr 2 x) (rotr 13 x)) (rotr 22 x).
Definition Sigma1 (x : Z) : Z :=
  Z.lxor (Z.lxor (rotr 6 x) (rotr 11 x)) (rotr 25 x).
Definition sigma0 (x : Z) : Z :=
  Z.lxor (Z.lxor (rotr 7 x) (rotr 18 x)) (shr 3 x).
Definition sigma1 (x : Z) : Z :=
  Z.lxor (Z.lxor (rotr 17 x) (rotr 19 x)) (shr 10 x).

(** Big-endian words of a byte string. *)
Fixpoint words (bytes : list Z) : list Z :=
  match bytes with
  | b0 :: b1 :: b2 :: b3 :: rest =>
      (((b0 * 256 + b1) * 256 + b2) * 256 + b3) :: words rest
  | _ => []
  end.

(** The sixty-four round constants, written as one big-endian byte
    string. *)
Definition K : list Z :=
  Eval vm_compute in
    words (ChallengeService.hexToBytes
    ("428a2f9871374491b5c0fbcfe9b5dba53956c25b59f111f1923f82a4ab1c5ed5" ++
     "d807aa9812835b01243185be550c7dc372be5d7480deb1fe9bdc06a7c19bf174" ++
     "e49b69c1efbe47860fc19dc6240ca1cc2de92c6f4a7484aa5cb0a9dc76f988da" ++
     "983e5152a831c66db00327c8bf597fc7c6e00bf3d5a7914706ca635114292967" ++
     "27b70a852e1b21384d2c6dfc53380d13650a7354766a0abb81c2c92e92722c85" ++
     "a2bfe8a1a81a664bc24b8b70c76c51a3d192e819d6990624f40e3585106aa070" ++
     "19a4c1161e376c082748774c34b0bcb5391c0cb34ed8aa4a5b9cca4f682e6ff3" ++
     "748f82ee78a5636f84c878148cc7020890befffaa4506cebbef9a3f7c67178f2")%string).

(** The eight working words. *)
Record State := {
  sa : Z; sb : Z; sc : Z; sd : Z; se : Z; sf : Z; sg : Z; sh : Z
}.

Definition H0 : State :=
  {| sa := 0x6a09e667; sb := 0xbb67ae85; sc := 0x3c6ef372; sd := 0xa54ff53a;
     se := 0x510e527f; sf := 0x9b05688c; sg := 0x1f83d9ab; sh := 0x5be0cd19 |}.

(** Message padding: a 1 bit, zeros, and the bit length on 64 bits. *)
Definition pad (msg : list Z) : list Z :=
  let len := Z.of_nat (length msg) in
  msg ++ [128] ++ repeat 0 (Z.to_nat ((55 - len) mod 64)) ++ be64 (8 * len).

(** The message schedule: [n] more words, from the last sixteen
    (newest first). *)
Fixpoint expand (n : nat) (window : list Z) : list Z :=
  match n with
  | O => []
  | S n' =>
      match window with
      | w1 :: w2 :: w3 :: w4 :: w5 :: w6 :: w7 :: w8 :: w9 :: w10 :: w11
        :: w12 :: w13 :: w14 :: w15 :: w16 :: _ =>
          let w := add (add (sigma1 w2) w7) (add (sigma0 w15) w16) in
          w :: expand n' [w; w1; w2; w3; w4; w5; w6; w7; w8; w9; w10; w11;
                          w12; w13; w14; w15]
      | _ => []
      end
  end.

Definition schedule (block : list Z) : list Z :=
  let ws := words block in
  ws ++ expand 48 (rev ws).

Definition round (s : State) (kw : Z * Z) : State :=
  let t1 := add (add (add (sh s) (Sigma1 (se s)))
                     (add (Ch (se s) (sf s) (sg s)) (fst kw))) (snd kw) in
  let t2 := add (Sigma0 (sa s)) (Maj (sa s) (sb s) (sc s)) in
  {| sa := add t1 t2; sb := sa s; sc := sb s; sd := sc s;
     se := add (sd s) t1; sf := se s; sg := sf s; sh := sg s |}.

Definition compress (h : State) (block : list Z) : State :=
  let s := fold_left round (List.combine K (schedule block)) h in
  {| sa := add (sa h) (sa s); sb := add (sb h) (sb s);
     sc := add (sc h) (sc s); sd := add (sd h) (sd s);
     se := add (se h) (se s); sf := add (sf h) (sf s);
     sg := add (sg h) (sg s); sh := add (sh h) (sh s) |}.

(** Hash [n] blocks of 64 bytes. *)
Fixpoint blocks (n : nat) (h : State) (bytes : list Z) : State :=
  match n with
  | O => h
  | S n' => blocks n' (compress h (firstn 64 bytes)) (skipn 64 bytes)
  end.

Definition wordBytes (x : Z) : list Z :=
  [ Z.land (Z.shiftr x 24) 255; Z.land (Z.shiftr x 16) 255;
    Z.land (Z.shiftr x 8) 255; Z.land x 255 ].

Definition digest (msg : list Z) : list Z :=
  let p := pad msg in
  let s := blocks (length p / 64) H0 p in
  wordBytes (sa s) ++ wordBytes (sb s) ++ wordBytes (sc s)
  ++ wordBytes (sd s) ++ wordBytes (se s) ++ wordBytes (sf s)
  ++ wordBytes (sg s) ++ wordBytes (sh s).

End SHA256.

(** ** Platforms and challenges for concrete runs *)

Module Fixtures.

(** A stand-in for Argon2id: the SHA-256 of salt and password, in hex. *)
Definition argon2Stub (o : Argon2Options) : option string :=
  Some (ChallengeService.bytesToHex (SHA256.digest (salt o ++ password o))).

(** A stand-in for Ed25519: a signature is accepted when it is the
    SHA-256 of key and message. *)
Definition verifyStub (key : CryptoKey) (signature data : list Z)
  : option bool :=
  Some (if list_eq_dec Z.eq_dec signature (SHA256.digest (rawKey key ++ data))
        then true else false).

(** The clock stands at second 1,700,000,000. *)
Definition platform : Platform :=
  {| Date_now := 1700000000999;
     argon2id := argon2Stub;
     subtle_importKey := fun keyData => Some {| rawKey := keyData |};
     subtle_verify := verifyStub;
     subtle_digest := SHA256.digest |}.

(** The same platform with an [argon2id] that throws. *)
Definition platformArgon2Throws : Platform :=
  {| Date_now := 1700000000999;
     argon2id := fun _ => None;
     subtle_importKey := fun keyData => Some {| rawKey := keyData |};
     subtle_verify := verifyStub;
     subtle_digest := SHA256.digest |}.

(** The same platform where WebCrypto has no Ed25519. *)
Definition platformNoEd25519 : Platform :=
  {| Date_now := 1700000000999;
     argon2id := argon2Stub;
     subtle_importKey := fun _ => None;
     subtle_verify := verifyStub;
     subtle_digest := SHA256.digest |}.

(** Any [argon2id] on the clock of [platform]. *)
Definition platformWith (f : Argon2Options -> option string) : Platform :=
  {| Date_now := 1700000000999;
     argon2id := f;
     subtle_importKey := fun keyData => Some {| rawKey := keyData |};
     subtle_verify := verifyStub;
     subtle_digest := SHA256.digest |}.

Definition zeros32 : string :=
  "0000000000000000000000000000000000000000000000000000000000000000".

Definition zeros16 : string := "00000000000000000000000000000000".

Definition powChallenge (difficulty expires_at : Z)
  : ChallengeService.TransactionChallenge :=
  {| ChallengeService.challenge_id := "pow-1";
     ChallengeService.nonce := zeros32;
     ChallengeService.difficulty := difficulty;
     ChallengeService.memory_cost := 1024;
     ChallengeService.time_cost := 2;
     ChallengeService.expires_at := expires_at;
     ChallengeService.instructions := "Solve Argon2id PoW challenge" |}.

Definition nuwChallenge (type : NuwChallengeService.NuwChallengeType)
    (expires_at : Z) (params : option NuwChallengeService.Argon2Params)
  : NuwChallengeService.NuwChallenge :=
  {| NuwChallengeService.challenge_id := "nuw-1";
     NuwChallengeService.challenge_type := type;
     NuwChallengeService.fee_discount_percent := 0;
     NuwChallengeService.expires_at := expires_at;
     NuwChallengeService.argon2_params := params;
     NuwChallengeService.signature_batch := None;
     NuwChallengeService.zk_proof := None;
     NuwChallengeService.merkle_proofs := None |}.

Definition leafAA : string :=
  "aaaaaaaaaaaaaaaaaaaaaaaaaaaaaaaaaaaaaaaaaaaaaaaaaaaaaaaaaaaaaaaa".

Definition siblingBB : string :=
  "bbbbbbbbbbbbbbbbbbbbbbbbbbbbbbbbbbbbbbbbbbbbbbbbbbbbbbbbbbbbbbbb".

(** A proof path of [depth] levels for the leaf at [index]. *)
Definition merkleTask (rootHex : string) (depth : nat) (index : Z)
  : NuwChallengeService.MerkleProofTask :=
  {| NuwChallengeService.root := rootHex;
     NuwChallengeService.leaf := leafAA;
     NuwChallengeService.proof := repeat siblingBB depth;
     NuwChallengeService.index := index |}.

Definition argon2Params (nonce : string) (difficulty : Z)
  : NuwChallengeService.Argon2Params :=
  {| NuwChallengeService.nonce := nonce;
     NuwChallengeService.difficulty := difficulty;
     NuwChallengeService.memory_cost := 1024;
     NuwChallengeService.time_cost := 2 |}.

(** An [ARGON2_POW] challenge whose nonce decodes to 16 bytes. *)
Definition nuwShortNonce : NuwChallengeService.NuwChallenge :=
  nuwChallenge NuwChallengeService.ARGON2_POW 1700000060
    (Some (argon2Params zeros16 3)).

Definition nuwPow (type : NuwChallengeService.NuwChallengeType)
    (expires_at : Z) : NuwChallengeService.NuwChallenge :=
  nuwChallenge type expires_at (Some (argon2Params zeros32 4)).

Definition pending (tx_id signature : string)
    (algorithm : NuwChallengeService.Algorithm)
  : NuwChallengeService.PendingSignature :=
  {| NuwChallengeService.tx_id := tx_id;
     NuwChallengeService.message := "01";
     NuwChallengeService.signature := signature;
     NuwChallengeService.public_key := "02";
     NuwChallengeService.algorithm := algorithm |}.

Definition goodSignature : string :=
  "25dfd29c09617dcc9852281c030e5b3037a338a4712a42a21c907f259c6412a0".

Definition badSignature : string :=
  "35dfd29c09617dcc9852281c030e5b3037a338a4712a42a21c907f259c6412a0".

(** A verifiable item, a corrupted one and a [dilithium2] one. *)
Definition batch : list NuwChallengeService.PendingSignature :=
  [ pending "A" goodSignature NuwChallengeService.ed25519;
    pending "B" badSignature NuwChallengeService.ed25519;
    pending "C" goodSignature NuwChallengeService.dilithium2 ].

Definition batchChallenge : NuwChallengeService.NuwChallenge :=
  {| NuwChallengeService.challenge_id := "nuw-2";
     NuwChallengeService.challenge_type := NuwChallengeService.SIGNATURE_BATCH;
     NuwChallengeService.fee_discount_percent := 25;
     NuwChallengeService.expires_at := 1700000060;
     NuwChallengeService.argon2_params := None;
     NuwChallengeService.signature_batch := Some batch;
     NuwChallengeService.zk_proof := None;
     NuwChallengeService.merkle_proofs := None |}.

Definition zkTask : NuwChallengeService.ZkProofTask :=
  {| NuwChallengeService.proof_id := "zk-7";
     NuwChallengeService.proof_type := "halo2";
     NuwChallengeService.zk_proof_data := "not a proof";
     NuwChallengeService.public_inputs := [];
     NuwChallengeService.verification_key := "" |}.

Definition zkChallenge (expires_at : Z) : NuwChallengeService.NuwChallenge :=
  {| NuwChallengeService.challenge_id := "nuw-3";
     NuwChallengeService.challenge_type := NuwChallengeService.ZK_VERIFY;
     NuwChallengeService.fee_discount_percent := 50;
     NuwChallengeService.expires_at := expires_at;
     NuwChallengeService.argon2_params := None;
     NuwChallengeService.signature_batch := None;
     NuwChallengeService.zk_proof := Some zkTask;
     NuwChallengeService.merkle_proofs := None |}.

(** The root of the 33-level path of [merkleTask] for index 1. *)
Definition root33 : string :=
  "b7ce8675fe824c59240d4c6d4596766d15525e0863157b3c9527bb43f4e404f2".

(** The root of the same path for index 1 + 2^32. *)
Definition root33wrap : string :=
  "0b1c31f476ac8e01ba680498c696bece4698e38d7e8f6a1aad00c2cd7e436a72".

(** The root of the 2-level path of [merkleTask] for index 1. *)
Definition root2 : string :=
  "f5c19928c359a7e7ab75105a07ffd60ca3aaffe4d73420709f254a2bf5559be1".

Definition ones32 : string :=
  "ffffffffffffffffffffffffffffffffffffffffffffffffffffffffffffffff".

(** Two primitives that ignore their input: the first passes every
    difficulty, the second none. *)
Definition alwaysZero (o : Argon2Options) : option string := Some zeros32.
Definition alwaysOnes (o : Argon2Options) : option string := Some ones32.

(** A node's answer that names neither difficulty nor cost. *)
Definition challengeAnswer : ChallengeService.ChallengeResponse :=
  {| ChallengeService.response_challenge_id := "pow-7";
     ChallengeService.response_nonce := zeros32;
     ChallengeService.response_difficulty := None;
     ChallengeService.response_memory_cost := None;
     ChallengeService.response_time_cost := None;
     ChallengeService.response_expires_at := 1700000060;
     ChallengeService.response_instructions := None |}.

(** A node that answers every request with [r]. *)
Definition answeringNode {Params T} (r : T) : RpcService.Http Params T :=
  fun _ request _ =>
    RpcService.Emits
      (Some {| RpcService.jsonrpc := "2.0";
               RpcService.result := Some r;
               RpcService.error := None;
               RpcService.response_id := RpcService.id request |}).

Definition challengeRequired : RpcService.ErrorObject :=
  {| RpcService.error_code := -32001;
     RpcService.error_message := "challenge required";
     RpcService.data :=
       Some {| RpcService.requires_challenge := Some true;
               RpcService.hint := None |} |}.

(** A node that refuses every request and asks for a challenge. *)
Definition rejectingNode {Params T} : RpcService.Http Params T :=
  fun _ request _ =>
    RpcService.Emits
      (Some {| RpcService.jsonrpc := "2.0";
               RpcService.result := None;
               RpcService.error := Some challengeRequired;
               RpcService.response_id := RpcService.id request |}).

Definition transfer : TransactionService.SendTransactionRequest :=
  {| TransactionService.from_address := "alice";
     TransactionService.to_address := "bob";
     TransactionService.amount := "10";
     TransactionService.fee := "1";
     TransactionService.memo := None;
     TransactionService.signature := "00";
     TransactionService.public_key := "01";
     TransactionService.nonce := 7 |}.

(** The solution of [challengeAnswer] on a platform whose primitive is
    [alwaysZero]. *)
Definition solvedAnswer : ChallengeService.SolvedChallenge :=
  {| ChallengeService.solved_challenge_id := "pow-7";
     ChallengeService.solution := "0000000000000000";
     ChallengeService.hash := zeros32 |}.

(** A [MERKLE_VERIFY] challenge with one two-level path. *)
Definition merkleChallenge : NuwChallengeService.NuwChallenge :=
  {| NuwChallengeService.challenge_id := "nuw-4";
     NuwChallengeService.challenge_type := NuwChallengeService.MERKLE_VERIFY;
     NuwChallengeService.fee_discount_percent := 10;
     NuwChallengeService.expires_at := 1700000060;
     NuwChallengeService.argon2_params := None;
     NuwChallengeService.signature_batch := None;
     NuwChallengeService.zk_proof := None;
     NuwChallengeService.merkle_proofs := Some [merkleTask root2 2 1] |}.

End Fixtures.

(** ** Vocabulary of the specification *)

(** Bytes [0 .. n) of [digest] exist and are zero. *)
Definition zeroBytes (digest : list Z) (n : Z) : Prop :=
  forall i : nat, Z.of_nat i < n -> nth_error digest i = Some 0.

(** The top [r] bits of the byte [b] are zero. *)
Definition topBitsZero (b r : Z) : Prop :=
  forall j, 8 - r <= j < 8 -> Z.testbit b j = false.

(** The counters [from], [from + 1], ... ([n] of them). *)
Definition counters (from : Z) (n : nat) : list Z :=
  map (fun k => from + Z.of_nat k) (seq 0 n).

(** The Argon2id parameters the specification gives for counter [c]. *)
Definition powOptions (nonce : string) (memory_cost time_cost c : Z)
  : Argon2Options :=
  {| password := be64 c;
     salt := ChallengeService.hexToBytes nonce;
     memorySize := memory_cost;
     iterations := time_cost;
     parallelism := 1;
     hashLength := 32 |}.

(** The digest (in hex) of counter [c] passes, or misses, the
    leading-zero-bit test at [difficulty]; [None] is a primitive that
    threw. *)
Definition passesAt (digestHex : option string) (difficulty : Z) : Prop :=
  exists d, digestHex = Some d /\
    ChallengeService.hasLeadingZeros (ChallengeService.hexToBytes d) difficulty
    = true.

Definition missesAt (digestHex : option string) (difficulty : Z) : Prop :=
  exists d, digestHex = Some d /\
    ChallengeService.hasLeadingZeros (ChallengeService.hexToBytes d) difficulty
    = false.

(** The attempts bound in force: the argument, or 10,000 by default. *)
Definition attemptsBound (maxAttempts : option Z) : Z :=
  match maxAttempts with Some m => m | None => 10000 end.

(** What the primitive answers for counter [c] of a PoW challenge. *)
Definition powDigest (P : Platform)
    (ch : ChallengeService.TransactionChallenge) (c : Z) : option string :=
  argon2id P (powOptions (ChallengeService.nonce ch)
                         (ChallengeService.memory_cost ch)
                         (ChallengeService.time_cost ch) c).

(** What the specification asks of one item of a signature batch:
    [dilithium2] is never valid; an [ed25519] item is valid when the
    platform imports the key and verifies the signature, and invalid when
    either step throws. *)
Definition expectedValid (P : Platform)
    (sig : NuwChallengeService.PendingSignature) : bool :=
  match NuwChallengeService.algorithm sig with
  | NuwChallengeService.dilithium2 => false
  | NuwChallengeService.ed25519 =>
      match subtle_importKey P
              (NuwChallengeService.hexToBytes
                 (NuwChallengeService.public_key sig)) with
      | None => false
      | Some key =>
          match subtle_verify P key
                  (NuwChallengeService.hexToBytes
                     (NuwChallengeService.signature sig))
                  (NuwChallengeService.hexToBytes
                     (NuwChallengeService.message sig)) with
          | Some valid => valid
          | None => false
          end
      end
  end.

Definition expectedResult (P : Platform)
    (sig : NuwChallengeService.PendingSignature)
  : NuwChallengeService.SignatureResult :=
  {| NuwChallengeService.sr_tx_id := NuwChallengeService.tx_id sig;
     NuwChallengeService.sr_valid := expectedValid P sig |}.

(** Merkle verification in the words of the specification: from the
    leaf, step [i] hashes [sibling ++ current] when bit [i] of [index]
    is 1 and [current ++ sibling] otherwise. *)
Fixpoint merkleFold (sha : list Z -> list Z) (proof : list (list Z))
    (index i : Z) (current : list Z) : list Z :=
  match proof with
  | [] => current
  | sibling :: rest =>
      merkleFold sha rest index (i + 1)
        (sha (if Z.testbit index i then sibling ++ current
              else current ++ sibling))
  end.

(** ... and the answer is whether the last digest is the root. *)
Definition merkleValid (sha : list Z -> list Z)
    (task : NuwChallengeService.MerkleProofTask) : bool :=
  if list_eq_dec Z.eq_dec
       (merkleFold sha
          (map NuwChallengeService.hexToBytes (NuwChallengeService.proof task))
          (NuwChallengeService.index task) 0
          (NuwChallengeService.hexToBytes (NuwChallengeService.leaf task)))
       (NuwChallengeService.hexToBytes (NuwChallengeService.root task))
  then true else false.

(** The payload that the solver of the challenge's type reads is absent,
    or is an empty list; [PQ_ASSIST] is solved from [argon2_params]. *)
Definition payloadMissing (ch : NuwChallengeService.NuwChallenge) : Prop :=
  match NuwChallengeService.challenge_type ch with
  | NuwChallengeService.ARGON2_POW | NuwChallengeService.PQ_ASSIST =>
      NuwChallengeService.argon2_params ch = None
  | NuwChallengeService.SIGNATURE_BATCH =>
      NuwChallengeService.signature_batch ch = None
      \/ NuwChallengeService.signature_batch ch = Some []
  | NuwChallengeService.ZK_VERIFY =>
      NuwChallengeService.zk_proof ch = None
  | NuwChallengeService.MERKLE_VERIFY =>
      NuwChallengeService.merkle_proofs ch = None
      \/ NuwChallengeService.merkle_proofs ch = Some []
  | NuwChallengeService.UNKNOWN _ => False
  end.

(** The name of the error code a run ended with, if it threw an error of
    its service. *)
Definition powErrorName {A} (m : M ChallengeService.ErrorCode A)
  : option string :=
  match outcome m with
  | inl (Thrown code) => Some (ChallengeService.codeName code)
  | _ => None
  end.

Definition nuwErrorName {A} (m : M NuwChallengeService.ErrorCode A)
  : option string :=
  match outcome m with
  | inl (Thrown code) => Some (NuwChallengeService.codeName code)
  | _ => None
  end.

(** The elements of a [Uint8Array]. *)
Definition isBytes (bytes : list Z) : Prop :=
  Forall (fun b => 0 <= b < 256) bytes.

(** The number a byte string writes, most significant byte first. *)
Fixpoint bigEndianValue (bytes : list Z) : Z :=
  match bytes with
  | [] => 0
  | b :: rest => b * 256 ^ Z.of_nat (length rest) + bigEndianValue rest
  end.

(** A lower-case hex digit. *)
Definition isLowerHexDigit (c : ascii) : bool :=
  let n := nat_of_ascii c in
  ((48 <=? n) && (n <=? 57) || (97 <=? n) && (n <=? 102))%nat.

(** A solution carries the payload of its own type and no other. *)
Definition onePayload (sol : NuwChallengeService.NuwSolution) : Prop :=
  match NuwChallengeService.sol_challenge_type sol with
  | NuwChallengeService.ARGON2_POW =>
      NuwChallengeService.argon2_solution sol <> None
      /\ NuwChallengeService.signature_results sol = None
      /\ NuwChallengeService.zk_result sol = None
      /\ NuwChallengeService.merkle_results sol = None
  | NuwChallengeService.SIGNATURE_BATCH =>
      NuwChallengeService.argon2_solution sol = None
      /\ NuwChallengeService.signature_results sol <> None
      /\ NuwChallengeService.zk_result sol = None
      /\ NuwChallengeService.merkle_results sol = None
  | NuwChallengeService.ZK_VERIFY =>
      NuwChallengeService.argon2_solution sol = None
      /\ NuwChallengeService.signature_results sol = None
      /\ NuwChallengeService.zk_result sol <> None
      /\ NuwChallengeService.merkle_results sol = None
  | NuwChallengeService.MERKLE_VERIFY =>
      NuwChallengeService.argon2_solution sol = None
      /\ NuwChallengeService.signature_results sol = None
      /\ NuwChallengeService.zk_result sol = None
      /\ NuwChallengeService.merkle_results sol <> None
  | _ => False
  end.

(** The platform calls one item of a signature batch causes. *)
Definition itemEvents (P : Platform)
    (sig : NuwChallengeService.PendingSignature) : list Event :=
  match NuwChallengeService.algorithm sig with
  | NuwChallengeService.ed25519 =>
      let publicKey :=
        NuwChallengeService.hexToBytes (NuwChallengeService.public_key sig) in
      EvImportKey publicKey
      :: match subtle_importKey P publicKey with
         | Some key =>
             [EvVerify key
                (NuwChallengeService.hexToBytes
                   (NuwChallengeService.signature sig))
                (NuwChallengeService.hexToBytes
                   (NuwChallengeService.message sig))]
         | None => []
         end
  | NuwChallengeService.dilithium2 => []
  end ++ [EvYield].

(** A Merkle task as the data model has it, root aside: a 32-byte leaf
    and 32-byte siblings, on at most 32 levels. *)
Definition shallowTask (task : NuwChallengeService.MerkleProofTask) : Prop :=
  length (NuwChallengeService.hexToBytes (NuwChallengeService.leaf task))
  = 32%nat
  /\ Forall (fun h => length (NuwChallengeService.hexToBytes h) = 32%nat)
            (NuwChallengeService.proof task)
  /\ (length (NuwChallengeService.proof task) <= 32)%nat.

Definition expectedMerkleResult (sha : list Z -> list Z)
    (task : NuwChallengeService.MerkleProofTask)
  : NuwChallengeService.MerkleResult :=
  {| NuwChallengeService.mr_index := NuwChallengeService.index task;
     NuwChallengeService.mr_valid := merkleValid sha task |}.

(** The endpoint a call posts to, and the request it posts. *)
Definition rpcUrlOf (nodeUrl : string) : string :=
  if RpcService.endsWith nodeUrl "/jsonrpc" then nodeUrl
  else (nodeUrl ++ "/jsonrpc")%string.

Definition requestOf {Params} (counter : Z) (method : string)
    (params : Params) : RpcService.JsonRpcRequest Params :=
  {| RpcService.method := method;
     RpcService.params := params;
     RpcService.id := counter + 1 |}.

(** The node answered with a result and no error. *)
Definition answers {Params T} (http : RpcService.Http Params T)
    (nodeUrl : string) (counter : Z) (method : string) (params : Params)
    (r : T) : Prop :=
  exists response,
    http (rpcUrlOf nodeUrl) (requestOf counter method params)
         RpcService.defaultTimeout
    = RpcService.Emits (Some response)
    /\ RpcService.error response = None
    /\ RpcService.result response = Some r.

(** The challenge [getChallenge] builds from an answer. *)
Definition challengeOf (r : ChallengeService.ChallengeResponse)
  : ChallengeService.TransactionChallenge :=
  {| ChallengeService.challenge_id := ChallengeService.response_challenge_id r;
     ChallengeService.nonce := ChallengeService.response_nonce r;
     ChallengeService.difficulty :=
       match ChallengeService.response_difficulty r with
       | Some d => d
       | None => 16
       end;
     ChallengeService.memory_cost :=
       match ChallengeService.response_memory_cost r with
       | Some m => m
       | None => 1024
       end;
     ChallengeService.time_cost :=
       match ChallengeService.response_time_cost r with
       | Some t => t
       | None => 2
       end;
     ChallengeService.expires_at := ChallengeService.response_expires_at r;
     ChallengeService.instructions :=
       match ChallengeService.response_instructions r with
       | Some i => i
       | None => "Solve Argon2id PoW challenge"
       end |}.

(** * Properties *)

(** ** 32-bit operators *)

Lemma ToInt32_mod (z : Z) : JS.ToInt32 z mod 2 ^ 32 = z mod 2 ^ 32.
Proof.
  unfold JS.ToInt32.
  rewrite Zminus_mod, Z.mod_mod by lia.
  rewrite <- Zminus_mod. f_equal. lia.
Qed.

Lemma ToInt32_testbit (z j : Z) :
  0 <= j < 32 -> Z.testbit (JS.ToInt32 z) j = Z.testbit z j.
Proof.
  intros Hj.
  rewrite <- (Z.mod_pow2_bits_low (JS.ToInt32 z) 32 j) by lia.
  rewrite <- (Z.mod_pow2_bits_low z 32 j) by lia.
  now rewrite ToInt32_mod.
Qed.

Lemma ToInt32_small (z : Z) : - 2 ^ 31 <= z < 2 ^ 31 -> JS.ToInt32 z = z.
Proof.
  intros H. unfold JS.ToInt32. rewrite Z.mod_small; lia.
Qed.

Lemma land_byte_mask (x k : Z) :
  0 <= k ->
  Z.land x (Z.shiftl 255 k) = 0 <->
  (forall j, k <= j < k + 8 -> Z.testbit x j = false).
Proof.
  intros Hk. change 255 with (Z.ones 8). split.
  - intros H j Hj.
    assert (E : Z.testbit (Z.land x (Z.shiftl (Z.ones 8) k)) j = false)
      by (rewrite H; apply Z.bits_0).
    rewrite Z.land_spec, Z.shiftl_spec, Z.testbit_ones_nonneg in E by lia.
    replace (j - k <? 8) with true in E by (symmetry; apply Z.ltb_lt; lia).
    now rewrite andb_true_r in E.
  - intros H. apply Z.bits_inj'. intros n Hn.
    rewrite Z.land_spec, Z.bits_0, Z.shiftl_spec by lia.
    destruct (Z.ltb_spec n k) as [Hlt | Hge].
    + rewrite (Z.testbit_neg_r _ (n - k)) by lia. apply andb_false_r.
    + destruct (Z.ltb_spec n (k + 8)) as [H8 | H8].
      * rewrite H by lia. reflexivity.
      * rewrite Z.testbit_ones_nonneg by lia.
        replace (n - k <? 8) with false; [apply andb_false_r |].
        symmetry. apply Z.ltb_ge. lia.
Qed.

Lemma byte_high_bits (b j : Z) :
  0 <= b < 256 -> 8 <= j -> Z.testbit b j = false.
Proof.
  intros Hb Hj. rewrite <- (Z.mod_small b (2 ^ 8)) by lia.
  apply Z.mod_pow2_bits_high. lia.
Qed.

(** The mask [0xFF << (8 - r)] tests the top [r] bits of a byte. *)
Lemma mask_test (b r : Z) :
  0 <= b < 256 -> 0 < r < 8 ->
  JS.and b (JS.shl 255 (8 - r)) = 0 <-> topBitsZero b r.
Proof.
  intros Hb Hr. unfold JS.and, JS.shl, topBitsZero.
  rewrite (ToInt32_small 255) by lia.
  rewrite (Z.mod_small (8 - r)) by lia.
  assert (Hs : 0 <= Z.shiftl 255 (8 - r) < 2 ^ 31).
  { rewrite Z.shiftl_mul_pow2 by lia.
    assert (2 ^ (8 - r) <= 2 ^ 7) by (apply Z.pow_le_mono_r; lia).
    assert (0 < 2 ^ (8 - r)) by (apply Z.pow_pos_nonneg; lia).
    lia. }
  rewrite !(ToInt32_small (Z.shiftl 255 (8 - r))) by lia.
  rewrite (ToInt32_small b) by lia.
  rewrite land_byte_mask by lia.
  split.
  - intros H j Hj. apply H. lia.
  - intros H j Hj. destruct (Z.ltb_spec j 8).
    + apply H. lia.
    + apply byte_high_bits; lia.
Qed.

(** ** The leading-zero-bit test *)

Lemma elemNonZero_false (arr : list Z) (i : nat) :
  JS.elemNonZero arr i = false <-> nth_error arr i = Some 0.
Proof.
  unfold JS.elemNonZero. destruct (nth_error arr i) as [b |].
  - rewrite negb_false_iff, Z.eqb_eq. split; congruence.
  - split; discriminate.
Qed.

Lemma fullBytes_loop (hash : list Z) (n : nat) :
  existsb (JS.elemNonZero hash) (seq 0 n) = false <->
  zeroBytes hash (Z.of_nat n).
Proof.
  unfold zeroBytes. split.
  - intros H i Hi. apply elemNonZero_false.
    destruct (JS.elemNonZero hash i) eqn:E; [| reflexivity].
    assert (X : existsb (JS.elemNonZero hash) (seq 0 n) = true).
    { apply existsb_exists. exists i. split; [| exact E].
      apply in_seq. lia. }
    congruence.
  - intros H.
    destruct (existsb (JS.elemNonZero hash) (seq 0 n)) eqn:E; [| reflexivity].
    apply existsb_exists in E. destruct E as [i [Hin Hi]].
    apply in_seq in Hin.
    assert (X : JS.elemNonZero hash i = false)
      by (apply elemNonZero_false, H; lia).
    congruence.
Qed.

Lemma hasLeadingZeros_same (hash : list Z) (requiredBits : Z) :
  NuwChallengeService.hasLeadingZeros hash requiredBits
  = ChallengeService.hasLeadingZeros hash requiredBits.
Proof. reflexivity. Qed.

(** C4. For every digest and every [requiredBits] in [0, 256], the
    leading-zero-bit test of either service is true exactly when the first
    [floor(requiredBits / 8)] bytes of the digest are zero and, when
    [requiredBits mod 8 > 0] and byte [floor(requiredBits / 8)] lies within
    the digest, the top [requiredBits mod 8] bits of that byte are zero; a
    remainder byte past the end of the digest imposes nothing. The test is
    a function of its two arguments. *)
Theorem hasLeadingZeros_spec (digest : list Z) (requiredBits : Z) :
  isBytes digest ->
  0 <= requiredBits <= 256 ->
  (ChallengeService.hasLeadingZeros digest requiredBits = true <->
   zeroBytes digest (requiredBits / 8) /\
   (requiredBits mod 8 > 0 ->
    requiredBits / 8 < Z.of_nat (length digest) ->
    topBitsZero (nth (Z.to_nat (requiredBits / 8)) digest 0)
                (requiredBits mod 8)))
  /\ NuwChallengeService.hasLeadingZeros digest requiredBits
     = ChallengeService.hasLeadingZeros digest requiredBits.
Proof.
  intros Hbytes Hr. split; [| apply hasLeadingZeros_same].
  unfold ChallengeService.hasLeadingZeros.
  assert (Hb : 0 <= nth (Z.to_nat (requiredBits / 8)) digest 0 < 256).
  { destruct (nth_in_or_default (Z.to_nat (requiredBits / 8)) digest 0)
      as [Hin | ->]; [| lia].
    unfold isBytes in Hbytes. rewrite Forall_forall in Hbytes.
    now apply Hbytes. }
  rewrite Z.rem_mod_nonneg by lia.
  assert (Hq : 0 <= requiredBits / 8) by (apply Z.div_pos; lia).
  assert (Hm : 0 <= requiredBits mod 8 < 8) by (apply Z.mod_pos_bound; lia).
  pose proof (fullBytes_loop digest (Z.to_nat (requiredBits / 8))) as Hloop.
  rewrite Z2Nat.id in Hloop by lia.
  destruct (existsb _ _) eqn:Eloop.
  - split; [discriminate |]. intros [Hz _].
    apply Hloop in Hz. discriminate.
  - assert (Hz : zeroBytes digest (requiredBits / 8))
      by (now apply Hloop).
    destruct (Z.gtb_spec (requiredBits mod 8) 0) as [Hpos | Hzero];
      destruct (Z.ltb_spec (requiredBits / 8) (Z.of_nat (length digest)))
        as [Hin | Hout]; cbn [andb].
    + pose proof (mask_test (nth (Z.to_nat (requiredBits / 8)) digest 0)
                            (requiredBits mod 8)) as Hmask.
      destruct (Z.eqb_spec
                  (JS.and (nth (Z.to_nat (requiredBits / 8)) digest 0)
                          (JS.shl 255 (8 - requiredBits mod 8))) 0)
        as [E | E]; cbn [negb].
      * split; [| reflexivity]. intros _. split; [exact Hz |].
        intros _ _. apply Hmask; [lia | lia | exact E].
      * split; [discriminate |]. intros [_ Htop].
        exfalso. apply E, Hmask; [lia | lia |]. apply Htop; lia.
    + split; [| reflexivity]. intros _. split; [exact Hz | lia].
    + split; [| reflexivity]. intros _. split; [exact Hz | lia].
    + split; [| reflexivity]. intros _. split; [exact Hz | lia].
Qed.

(** ** The monad *)

Lemma bind_value {Code A B} (m : M Code A) (k : A -> M Code B) a t :
  m = (inr a, t) -> bind m k = (outcome (k a), t ++ events (k a)).
Proof. intros ->. unfold bind, outcome, events. now destruct (k a). Qed.

Lemma bind_thrown {Code A B} (m : M Code A) (k : A -> M Code B) e t :
  m = (inl e, t) -> bind m k = (inl e, t).
Proof. now intros ->. Qed.

Lemma argon2Calls_app (t1 t2 : list Event) :
  argon2Calls (t1 ++ t2) = argon2Calls t1 ++ argon2Calls t2.
Proof. apply flat_map_app. Qed.

Lemma counters_S (from : Z) (n : nat) :
  counters from (S n) = from :: counters (from + 1) n.
Proof.
  unfold counters. cbn [seq map]. f_equal; [lia |].
  rewrite <- seq_shift, map_map. apply map_ext. intros k. lia.
Qed.

Lemma counters_in (from : Z) (n : nat) (c : Z) :
  In c (counters from n) <-> from <= c < from + Z.of_nat n.
Proof.
  unfold counters. rewrite in_map_iff. split.
  - intros [k [<- Hk]]. apply in_seq in Hk. lia.
  - intros H. exists (Z.to_nat (c - from)). split; [lia |].
    apply in_seq. lia.
Qed.

(** ** The proof-of-work loop of ChallengeService *)

Section PowLoop.

Import ChallengeService.

Variable P : Platform.
Variable challenge : TransactionChallenge.
Variable salt : list Z.

Let digestOf (c : Z) : option string :=
  argon2id P (argon2Options challenge salt c).

Lemma attempt_pass (c : Z) (d : string) :
  digestOf c = Some d ->
  hasLeadingZeros (hexToBytes d) (difficulty challenge) = true ->
  attempt P challenge salt c
  = (inr (Some {| solved_challenge_id := challenge_id challenge;
                  solution := bytesToHex (be64 c);
                  hash := d |}),
     [EvArgon2id (argon2Options challenge salt c)]).
Proof.
  intros Hd Hz. unfold attempt, digestOf in *. rewrite Hd.
  cbn [call bind tryCatch]. rewrite Hz. reflexivity.
Qed.

Lemma attempt_miss (c : Z) (d : string) :
  digestOf c = Some d ->
  hasLeadingZeros (hexToBytes d) (difficulty challenge) = false ->
  exists t,
    attempt P challenge salt c = (inr None, t) /\
    argon2Calls t = [argon2Options challenge salt c].
Proof.
  intros Hd Hz. unfold attempt, digestOf in *. rewrite Hd.
  cbn [call bind tryCatch]. rewrite Hz.
  destruct ((Z.rem c 10 =? 0) && (c >? 0)); eexists; split; reflexivity.
Qed.

Lemma attempt_error (c : Z) :
  digestOf c = None ->
  attempt P challenge salt c
  = (inl (Thrown WASM_FAILED), [EvArgon2id (argon2Options challenge salt c)]).
Proof.
  intros Hd. unfold attempt, digestOf in *. rewrite Hd. reflexivity.
Qed.

(** The loop stops at the first counter whose digest passes. *)
Lemma solveLoop_found (turns : nat) (from c : Z) (d : string) :
  from <= c < from + Z.of_nat turns ->
  digestOf c = Some d ->
  hasLeadingZeros (hexToBytes d) (difficulty challenge) = true ->
  (forall c', from <= c' < c ->
     missesAt (digestOf c') (difficulty challenge)) ->
  outcome (solveLoop P challenge salt turns from)
  = inr {| solved_challenge_id := challenge_id challenge;
           solution := bytesToHex (be64 c);
           hash := d |}
  /\ argon2Calls (events (solveLoop P challenge salt turns from))
     = map (argon2Options challenge salt)
           (counters from (S (Z.to_nat (c - from)))).
Proof.
  revert from. induction turns as [| turns IH]; intros from Hc Hd Hz Hmiss.
  - lia.
  - cbn [solveLoop]. destruct (Z.eq_dec from c) as [-> | Hne].
    + rewrite (bind_value _ _ _ _ (attempt_pass c d Hd Hz)).
      replace (c - c) with 0 by lia. change (Z.to_nat 0) with O.
      rewrite counters_S. split; reflexivity.
    + destruct (Hmiss from) as [d' [Hd' Hz']]; [lia |].
      destruct (attempt_miss from d' Hd' Hz') as [t [Ht Hcalls]].
      rewrite (bind_value _ _ _ _ Ht). cbn [outcome events fst snd].
      destruct (IH (from + 1)) as [IHo IHe];
        [lia | exact Hd | exact Hz | intros; apply Hmiss; lia |].
      split; [exact IHo |].
      rewrite argon2Calls_app, Hcalls, IHe.
      replace (S (Z.to_nat (c - from)))
        with (S (S (Z.to_nat (c - (from + 1))))) by lia.
      rewrite (counters_S from). reflexivity.
Qed.

(** With no passing counter the loop ends in [SOLVE_FAILED] after
    [turns] hashes. *)
Lemma solveLoop_exhausted (turns : nat) (from : Z) :
  (forall c, from <= c < from + Z.of_nat turns ->
     missesAt (digestOf c) (difficulty challenge)) ->
  outcome (solveLoop P challenge salt turns from) = inl (Thrown SOLVE_FAILED)
  /\ argon2Calls (events (solveLoop P challenge salt turns from))
     = map (argon2Options challenge salt) (counters from turns).
Proof.
  revert from. induction turns as [| turns IH]; intros from Hmiss.
  - split; reflexivity.
  - cbn [solveLoop].
    destruct (Hmiss from) as [d' [Hd' Hz']]; [lia |].
    destruct (attempt_miss from d' Hd' Hz') as [t [Ht Hcalls]].
    rewrite (bind_value _ _ _ _ Ht). cbn [outcome events fst snd].
    destruct (IH (from + 1)) as [IHo IHe]; [intros; apply Hmiss; lia |].
    split; [exact IHo |].
    rewrite argon2Calls_app, Hcalls, IHe, (counters_S from). reflexivity.
Qed.

(** A primitive that throws at the first counter that does not miss
    ends the loop in [WASM_FAILED]. *)
Lemma solveLoop_primitive_error (turns : nat) (from c : Z) :
  from <= c < from + Z.of_nat turns ->
  digestOf c = None ->
  (forall c', from <= c' < c ->
     missesAt (digestOf c') (difficulty challenge)) ->
  outcome (solveLoop P challenge salt turns from) = inl (Thrown WASM_FAILED).
Proof.
  revert from. induction turns as [| turns IH]; intros from Hc Hd Hmiss.
  - lia.
  - cbn [solveLoop]. destruct (Z.eq_dec from c) as [-> | Hne].
    + rewrite (bind_thrown _ _ _ _ (attempt_error c Hd)). reflexivity.
    + destruct (Hmiss from) as [d' [Hd' Hz']]; [lia |].
      destruct (attempt_miss from d' Hd' Hz') as [t [Ht Hcalls]].
      rewrite (bind_value _ _ _ _ Ht). cbn [outcome events fst snd].
      apply IH; [lia | exact Hd | intros; apply Hmiss; lia].
Qed.

(** The loop throws nothing but [SOLVE_FAILED] and [WASM_FAILED]. *)
Lemma solveLoop_throws (turns : nat) (from : Z) (e : Exn ErrorCode) :
  outcome (solveLoop P challenge salt turns from) = inl e ->
  e = Thrown SOLVE_FAILED \/ e = Thrown WASM_FAILED.
Proof.
  revert from. induction turns as [| turns IH]; intros from.
  - cbn. intros [= <-]. now left.
  - cbn [solveLoop]. unfold attempt.
    destruct (argon2id P (argon2Options challenge salt from)) as [d |];
      cbn [call bind tryCatch].
    + destruct (hasLeadingZeros (hexToBytes d) (difficulty challenge)).
      * discriminate.
      * specialize (IH (from + 1)).
        destruct ((Z.rem from 10 =? 0) && (from >? 0));
          destruct (solveLoop P challenge salt turns (from + 1))
            as [r t]; exact IH.
    + intros [= <-]. now right.
Qed.

End PowLoop.

(** ** The standalone PoW solver *)

Section PowSolver.

Import ChallengeService.

Variable P : Platform.
Variable ch : TransactionChallenge.

Lemma solveChallenge_expired (maxAttempts : option Z) :
  expires_at ch < Date_now P / 1000 ->
  solveChallenge P ch maxAttempts = (inl (Thrown EXPIRED), []).
Proof.
  intros H. unfold solveChallenge.
  destruct (Z.ltb_spec (expires_at ch) (Date_now P / 1000)); [reflexivity | lia].
Qed.

Lemma solveChallenge_invalid_nonce (maxAttempts : option Z) :
  Date_now P / 1000 <= expires_at ch ->
  length (hexToBytes (nonce ch)) <> 32%nat ->
  solveChallenge P ch maxAttempts = (inl (Thrown INVALID), []).
Proof.
  intros H Hn. unfold solveChallenge.
  destruct (Z.ltb_spec (expires_at ch) (Date_now P / 1000)); [lia |].
  destruct (Nat.eqb_spec (length (hexToBytes (nonce ch))) 32);
    [contradiction | reflexivity].
Qed.

Lemma solveChallenge_loop (maxAttempts : option Z) :
  Date_now P / 1000 <= expires_at ch ->
  length (hexToBytes (nonce ch)) = 32%nat ->
  solveChallenge P ch maxAttempts
  = solveLoop P ch (hexToBytes (nonce ch))
              (Z.to_nat (attemptsBound maxAttempts)) 0.
Proof.
  intros H Hn. unfold solveChallenge.
  destruct (Z.ltb_spec (expires_at ch) (Date_now P / 1000)); [lia |].
  rewrite Hn. reflexivity.
Qed.

End PowSolver.

(** C1. For a PoW challenge that has not expired and whose nonce decodes
    to 32 bytes, the solver hashes the counters 0, 1, 2, ... below
    [maxAttempts] (10,000 by default), each with password = the 8-byte
    big-endian counter, salt = the decoded nonce, memory = [memory_cost],
    iterations = [time_cost], parallelism 1 and a 32-byte output. It
    returns the first counter whose digest passes the leading-zero-bit
    test, as the hex of its 8 bytes, with that digest, having hashed
    nothing beyond it; when every counter below the bound misses, it fails
    with [SOLVE_FAILED] after hashing each of them once. *)
Theorem solveChallenge_search
    (P : Platform) (ch : ChallengeService.TransactionChallenge)
    (maxAttempts : option Z) :
  Date_now P / 1000 < ChallengeService.expires_at ch ->
  length (ChallengeService.hexToBytes (ChallengeService.nonce ch)) = 32%nat ->
  (forall c d,
     0 <= c < attemptsBound maxAttempts ->
     powDigest P ch c = Some d ->
     ChallengeService.hasLeadingZeros
       (ChallengeService.hexToBytes d) (ChallengeService.difficulty ch) = true ->
     (forall c', 0 <= c' < c ->
        missesAt (powDigest P ch c') (ChallengeService.difficulty ch)) ->
     outcome (ChallengeService.solveChallenge P ch maxAttempts)
     = inr {| ChallengeService.solved_challenge_id :=
                ChallengeService.challenge_id ch;
              ChallengeService.solution :=
                ChallengeService.bytesToHex (be64 c);
              ChallengeService.hash := d |}
     /\ argon2Calls (events (ChallengeService.solveChallenge P ch maxAttempts))
        = map (powOptions (ChallengeService.nonce ch)
                          (ChallengeService.memory_cost ch)
                          (ChallengeService.time_cost ch))
              (counters 0 (S (Z.to_nat c))))
  /\ ((forall c, 0 <= c < attemptsBound maxAttempts ->
         missesAt (powDigest P ch c) (ChallengeService.difficulty ch)) ->
      outcome (ChallengeService.solveChallenge P ch maxAttempts)
      = inl (Thrown ChallengeService.SOLVE_FAILED)
      /\ argon2Calls (events (ChallengeService.solveChallenge P ch maxAttempts))
         = map (powOptions (ChallengeService.nonce ch)
                           (ChallengeService.memory_cost ch)
                           (ChallengeService.time_cost ch))
               (counters 0 (Z.to_nat (attemptsBound maxAttempts)))).
Proof.
  intros Hexp Hnonce.
  rewrite solveChallenge_loop by (lia || exact Hnonce).
  split.
  - intros c d Hc Hd Hz Hmiss.
    pose proof (solveLoop_found P ch
                  (ChallengeService.hexToBytes (ChallengeService.nonce ch))
                  (Z.to_nat (attemptsBound maxAttempts)) 0 c d) as H.
    rewrite Z.sub_0_r in H. apply H; [lia | exact Hd | exact Hz |].
    intros c' Hc'. apply Hmiss. lia.
  - intros Hmiss.
    apply (solveLoop_exhausted P ch
             (ChallengeService.hexToBytes (ChallengeService.nonce ch))).
    intros c Hc. apply Hmiss. lia.
Qed.

(** ** The proof-of-work loop of NuwChallengeService *)

Section NuwPowLoop.

Import NuwChallengeService.

Variable P : Platform.
Variable challenge : NuwChallenge.
Variable params : Argon2Params.
Variable salt : list Z.

Let digestOf (c : Z) : option string :=
  argon2id P (argon2Options params salt c).

Let solved (c : Z) : NuwSolution :=
  {| sol_challenge_id := challenge_id challenge;
     sol_challenge_type := ARGON2_POW;
     argon2_solution := Some (bytesToHex (be64 c));
     signature_results := None;
     zk_result := None;
     merkle_results := None |}.

Lemma nuw_attempt_pass (c : Z) (d : string) :
  digestOf c = Some d ->
  hasLeadingZeros (hexToBytes d) (difficulty params) = true ->
  attempt P challenge params salt c
  = (inr (Some (solved c)), [EvArgon2id (argon2Options params salt c)]).
Proof.
  intros Hd Hz. unfold attempt, digestOf in *. rewrite Hd.
  cbn [call bind tryCatch]. rewrite Hz. reflexivity.
Qed.

Lemma nuw_attempt_miss (c : Z) (d : string) :
  digestOf c = Some d ->
  hasLeadingZeros (hexToBytes d) (difficulty params) = false ->
  exists t,
    attempt P challenge params salt c = (inr None, t) /\
    argon2Calls t = [argon2Options params salt c].
Proof.
  intros Hd Hz. unfold attempt, digestOf in *. rewrite Hd.
  cbn [call bind tryCatch]. rewrite Hz.
  destruct (Z.rem c 10 =? 0); eexists; split; reflexivity.
Qed.

Lemma nuw_attempt_error (c : Z) :
  digestOf c = None ->
  attempt P challenge params salt c
  = (inl (Thrown SOLVE_FAILED), [EvArgon2id (argon2Options params salt c)]).
Proof.
  intros Hd. unfold attempt, digestOf in *. rewrite Hd. reflexivity.
Qed.

Lemma nuw_solveLoop_found (turns : nat) (from c : Z) (d : string) :
  from <= c < from + Z.of_nat turns ->
  digestOf c = Some d ->
  hasLeadingZeros (hexToBytes d) (difficulty params) = true ->
  (forall c', from <= c' < c ->
     missesAt (digestOf c') (difficulty params)) ->
  outcome (solveLoop P challenge params salt turns from) = inr (solved c).
Proof.
  revert from. induction turns as [| turns IH]; intros from Hc Hd Hz Hmiss.
  - lia.
  - cbn [solveLoop]. destruct (Z.eq_dec from c) as [-> | Hne].
    + rewrite (bind_value _ _ _ _ (nuw_attempt_pass c d Hd Hz)).
      reflexivity.
    + destruct (Hmiss from) as [d' [Hd' Hz']]; [lia |].
      destruct (nuw_attempt_miss from d' Hd' Hz') as [t [Ht Hcalls]].
      rewrite (bind_value _ _ _ _ Ht). cbn [outcome events fst snd].
      apply IH; [lia | exact Hd | exact Hz | intros; apply Hmiss; lia].
Qed.

(** A primitive that throws ends this loop in [SOLVE_FAILED], the code
    of the exhausted search. *)
Lemma nuw_solveLoop_primitive_error (turns : nat) (from c : Z) :
  from <= c < from + Z.of_nat turns ->
  digestOf c = None ->
  (forall c', from <= c' < c ->
     missesAt (digestOf c') (difficulty params)) ->
  outcome (solveLoop P challenge params salt turns from)
  = inl (Thrown SOLVE_FAILED).
Proof.
  revert from. induction turns as [| turns IH]; intros from Hc Hd Hmiss.
  - lia.
  - cbn [solveLoop]. destruct (Z.eq_dec from c) as [-> | Hne].
    + rewrite (bind_thrown _ _ _ _ (nuw_attempt_error c Hd)). reflexivity.
    + destruct (Hmiss from) as [d' [Hd' Hz']]; [lia |].
      destruct (nuw_attempt_miss from d' Hd' Hz') as [t [Ht Hcalls]].
      rewrite (bind_value _ _ _ _ Ht). cbn [outcome events fst snd].
      apply IH; [lia | exact Hd | intros; apply Hmiss; lia].
Qed.

(** Every way out of the loop: a solution of type [ARGON2_POW] that
    carries a counter and nothing else, or [SOLVE_FAILED]; and every
    turn starts with a hash. *)
Lemma nuw_solveLoop_cases (turns : nat) (from : Z) :
  (exists c, outcome (solveLoop P challenge params salt turns from)
             = inr (solved c))
  \/ outcome (solveLoop P challenge params salt turns from)
     = inl (Thrown SOLVE_FAILED).
Proof.
  revert from. induction turns as [| turns IH]; intros from.
  - right. reflexivity.
  - cbn [solveLoop]. unfold attempt.
    destruct (argon2id P (argon2Options params salt from)) as [d |];
      cbn [call bind tryCatch].
    + destruct (hasLeadingZeros (hexToBytes d) (difficulty params)).
      * left. exists from. reflexivity.
      * specialize (IH (from + 1)).
        destruct (Z.rem from 10 =? 0);
          destruct (solveLoop P challenge params salt turns (from + 1))
            as [r t]; exact IH.
    + right. reflexivity.
Qed.

Lemma nuw_solveLoop_first_event (turns : nat) (from : Z) :
  turns <> O ->
  hd_error (events (solveLoop P challenge params salt turns from))
  = Some (EvArgon2id (argon2Options params salt from)).
Proof.
  destruct turns as [| turns]; [contradiction |]. intros _.
  cbn [solveLoop]. unfold attempt.
  destruct (argon2id P (argon2Options params salt from)) as [d |];
    cbn [call bind tryCatch].
  - destruct (hasLeadingZeros (hexToBytes d) (difficulty params)).
    + reflexivity.
    + destruct (Z.rem from 10 =? 0);
        destruct (solveLoop P challenge params salt turns (from + 1));
        reflexivity.
  - reflexivity.
Qed.

End NuwPowLoop.

(** ** Signature batches *)

Section SignatureBatch.

Import NuwChallengeService.

Variable P : Platform.

Lemma verifySignature_outcome (sig : PendingSignature) :
  outcome (verifySignature P (hexToBytes (message sig))
             (hexToBytes (signature sig)) (hexToBytes (public_key sig))
             (algorithm sig))
  = inr (expectedValid P sig).
Proof.
  unfold verifySignature, expectedValid.
  destruct (algorithm sig); [| reflexivity].
  destruct (subtle_importKey P (hexToBytes (public_key sig))) as [key |];
    [| reflexivity].
  cbn [call bind tryCatch].
  destruct (subtle_verify P key (hexToBytes (signature sig))
              (hexToBytes (message sig))); reflexivity.
Qed.

Lemma verifyItem_outcome (sig : PendingSignature) :
  outcome (verifyItem P sig) = inr (expectedResult P sig).
Proof.
  unfold verifyItem.
  pose proof (verifySignature_outcome sig) as H.
  destruct (verifySignature P (hexToBytes (message sig))
              (hexToBytes (signature sig)) (hexToBytes (public_key sig))
              (algorithm sig)) as [r t].
  cbn in H. subst r. reflexivity.
Qed.

(** The loop pushes one result per item, in the order of the batch. *)
Lemma verifyItems_outcome (batch : list PendingSignature)
    (results : list SignatureResult) :
  outcome (verifyItems P batch results)
  = inr (results ++ map (expectedResult P) batch).
Proof.
  revert results. induction batch as [| sig rest IH]; intros results.
  - cbn. now rewrite app_nil_r.
  - cbn [verifyItems map].
    pose proof (verifyItem_outcome sig) as H.
    destruct (verifyItem P sig) as [r t]. cbn in H. subst r.
    cbn [bind]. specialize (IH (results ++ [expectedResult P sig])).
    destruct (verifyItems P rest (results ++ [expectedResult P sig]))
      as [r' t'].
    cbn in *. rewrite IH, <- app_assoc. reflexivity.
Qed.

Lemma solveSignatureBatch_outcome (challenge : NuwChallenge)
    (batch : list PendingSignature) :
  signature_batch challenge = Some batch -> batch <> [] ->
  outcome (solveSignatureBatch P challenge)
  = inr {| sol_challenge_id := challenge_id challenge;
           sol_challenge_type := SIGNATURE_BATCH;
           argon2_solution := None;
           signature_results := Some (map (expectedResult P) batch);
           zk_result := None;
           merkle_results := None |}.
Proof.
  intros Hb Hne. unfold solveSignatureBatch. rewrite Hb.
  destruct batch as [| sig rest]; [contradiction |].
  pose proof (verifyItems_outcome (sig :: rest) []) as H.
  destruct (verifyItems P (sig :: rest) []) as [r t].
  cbn in H. subst r. reflexivity.
Qed.

Lemma solveSignatureBatch_missing (challenge : NuwChallenge) :
  signature_batch challenge = None \/ signature_batch challenge = Some [] ->
  solveSignatureBatch P challenge = (inl (Thrown INVALID), []).
Proof.
  unfold solveSignatureBatch. intros [-> | ->]; reflexivity.
Qed.

End SignatureBatch.

(** C5. For a non-empty list of pending signatures, batch verification
    returns one [{tx_id, valid}] per item, in the order of the input. An
    item whose algorithm is [dilithium2], whose key the platform cannot
    import (no Ed25519 there) or whose verification throws has
    [valid = false]; any other item has the answer of the primitive. The
    batch itself ends in a value whatever the items do. *)
Theorem solveSignatureBatch_results
    (P : Platform) (challenge : NuwChallengeService.NuwChallenge)
    (batch : list NuwChallengeService.PendingSignature) :
  NuwChallengeService.signature_batch challenge = Some batch ->
  batch <> [] ->
  exists results,
    outcome (NuwChallengeService.solveSignatureBatch P challenge)
    = inr {| NuwChallengeService.sol_challenge_id :=
               NuwChallengeService.challenge_id challenge;
             NuwChallengeService.sol_challenge_type :=
               NuwChallengeService.SIGNATURE_BATCH;
             NuwChallengeService.argon2_solution := None;
             NuwChallengeService.signature_results := Some results;
             NuwChallengeService.zk_result := None;
             NuwChallengeService.merkle_results := None |}
    /\ length results = length batch
    /\ map NuwChallengeService.sr_tx_id results
       = map NuwChallengeService.tx_id batch
    /\ forall i sig r,
         nth_error batch i = Some sig ->
         nth_error results i = Some r ->
         NuwChallengeService.sr_tx_id r = NuwChallengeService.tx_id sig
         /\ (NuwChallengeService.algorithm sig
             = NuwChallengeService.dilithium2 ->
             NuwChallengeService.sr_valid r = false)
         /\ (subtle_importKey P
               (NuwChallengeService.hexToBytes
                  (NuwChallengeService.public_key sig)) = None ->
             NuwChallengeService.sr_valid r = false)
         /\ (forall key,
               subtle_importKey P
                 (NuwChallengeService.hexToBytes
                    (NuwChallengeService.public_key sig)) = Some key ->
               subtle_verify P key
                 (NuwChallengeService.hexToBytes
                    (NuwChallengeService.signature sig))
                 (NuwChallengeService.hexToBytes
                    (NuwChallengeService.message sig)) = None ->
               NuwChallengeService.sr_valid r = false)
         /\ (forall key valid,
               NuwChallengeService.algorithm sig
               = NuwChallengeService.ed25519 ->
               subtle_importKey P
                 (NuwChallengeService.hexToBytes
                    (NuwChallengeService.public_key sig)) = Some key ->
               subtle_verify P key
                 (NuwChallengeService.hexToBytes
                    (NuwChallengeService.signature sig))
                 (NuwChallengeService.hexToBytes
                    (NuwChallengeService.message sig)) = Some valid ->
               NuwChallengeService.sr_valid r = valid).
Proof.
  intros Hb Hne. exists (map (expectedResult P) batch).
  split; [now apply solveSignatureBatch_outcome |].
  split; [apply length_map |].
  split; [rewrite map_map; reflexivity |].
  intros i sig r Hsig Hr.
  rewrite nth_error_map, Hsig in Hr. injection Hr as <-.
  cbn [expectedResult NuwChallengeService.sr_tx_id
       NuwChallengeService.sr_valid].
  unfold expectedValid.
  split; [reflexivity |].
  split; [intros ->; reflexivity |].
  split; [intros ->; now destruct (NuwChallengeService.algorithm sig) |].
  split.
  - intros key -> ->. now destruct (NuwChallengeService.algorithm sig).
  - intros key valid -> -> ->. reflexivity.
Qed.

(** ** Merkle proofs *)

Lemma hexToBytes_length (hex : string) :
  length (NuwChallengeService.hexToBytes hex) = (String.length hex / 2)%nat.
Proof.
  unfold NuwChallengeService.hexToBytes. now rewrite length_map, length_seq.
Qed.

Lemma sameBytes_eq (current root : list Z) :
  NuwChallengeService.sameBytes current root = true <-> current = root.
Proof.
  unfold NuwChallengeService.sameBytes.
  destruct (Nat.eqb_spec (length current) (length root)) as [Hlen | Hlen];
    cbn [negb].
  - destruct (existsb _ _) eqn:E.
    + split; [discriminate |]. intros ->.
      apply existsb_exists in E. destruct E as [i [_ Hi]].
      now rewrite Z.eqb_refl in Hi.
    + split; [| reflexivity]. intros _.
      apply (nth_ext _ _ 0 0 Hlen). intros i Hi.
      destruct (Z.eqb_spec (nth i current 0) (nth i root 0)) as [Hn | Hn];
        [exact Hn |].
      assert (X : existsb (fun i => negb (nth i current 0 =? nth i root 0))
                    (seq 0 (length current)) = true).
      { apply existsb_exists. exists i. split; [apply in_seq; lia |].
        apply negb_true_iff, Z.eqb_neq, Hn. }
      congruence.
  - split; [discriminate |]. intros ->. contradiction.
Qed.

(** On two 32-byte operands the 64-byte buffer is their concatenation,
    the sibling first when the node is a right child. *)
Lemma combine_concat (isRight : bool) (current sibling : list Z) :
  length current = 32%nat -> length sibling = 32%nat ->
  NuwChallengeService.combine isRight current sibling
  = Some (if isRight then sibling ++ current else current ++ sibling).
Proof.
  intros Hc Hs.
  do 33 (destruct current as [| ? current]; try discriminate Hc).
  do 33 (destruct sibling as [| ? sibling]; try discriminate Hs).
  destruct isRight; reflexivity.
Qed.

(** [(index >> i) & 1] reads bit [i mod 32] of [index]. *)
Lemma isRight_testbit (index i : Z) :
  negb (JS.and (JS.sar index i) 1 =? 0) = Z.testbit index (i mod 32).
Proof.
  assert (Hk : 0 <= i mod 32 < 32) by (apply Z.mod_pos_bound; lia).
  unfold JS.and, JS.sar. rewrite (ToInt32_small 1) by lia.
  change 1 with (Z.ones 1) at 1. rewrite Z.land_ones by lia.
  change (2 ^ 1) with 2. rewrite <- Z.bit0_mod.
  rewrite ToInt32_testbit, Z.shiftr_spec, Z.add_0_l, ToInt32_testbit by lia.
  now destruct (Z.testbit index (i mod 32)).
Qed.

Section MerkleLoop.

Import NuwChallengeService.

Variable P : Platform.
Hypothesis digest_length : forall data, length (subtle_digest P data) = 32%nat.

(** On 32-byte operands the loop is a fold that, at step [j], takes its
    direction from bit [j mod 32] of the index. *)
Lemma merkleLoop_fold (proofHex : list string) (index index' i : Z)
    (current : list Z) :
  length current = 32%nat ->
  Forall (fun h => length (hexToBytes h) = 32%nat) proofHex ->
  (forall j, i <= j < i + Z.of_nat (length proofHex) ->
     Z.testbit index' j = Z.testbit index (j mod 32)) ->
  outcome (merkleLoop P proofHex index i current)
  = inr (merkleFold (subtle_digest P) (map hexToBytes proofHex) index' i
           current).
Proof.
  revert i current.
  induction proofHex as [| h rest IH]; intros i current Hc Hall Hbits.
  - reflexivity.
  - inversion Hall as [| ? ? Hh Hrest]; subst.
    cbn [merkleLoop map merkleFold length] in *.
    rewrite isRight_testbit, <- (Hbits i) by lia.
    rewrite combine_concat by assumption.
    cbn [fromOption digestSha256 bind].
    specialize (IH (i + 1)
                   (subtle_digest P
                      (if Z.testbit index' i then hexToBytes h ++ current
                       else current ++ hexToBytes h))).
    destruct (merkleLoop P rest index (i + 1) _) as [r t].
    cbn in *. apply IH; [apply digest_length | assumption |].
    intros j Hj. apply Hbits. lia.
Qed.

(** Up to 32 levels the loop is the fold of the specification. *)
Lemma merkleLoop_shallow (proofHex : list string) (index i : Z)
    (current : list Z) :
  length current = 32%nat ->
  Forall (fun h => length (hexToBytes h) = 32%nat) proofHex ->
  0 <= i -> i + Z.of_nat (length proofHex) <= 32 ->
  outcome (merkleLoop P proofHex index i current)
  = inr (merkleFold (subtle_digest P) (map hexToBytes proofHex) index i
           current).
Proof.
  intros Hc Hall Hi Hdepth. apply merkleLoop_fold; try assumption.
  intros j Hj. now rewrite Z.mod_small by lia.
Qed.

End MerkleLoop.

(** On a well-formed task of at most 32 levels the verifier answers as
    the specification says, and always with a value. *)
Lemma verifyMerkleProof_shallow (P : Platform)
    (task : NuwChallengeService.MerkleProofTask) :
  (forall data, length (subtle_digest P data) = 32%nat) ->
  length (NuwChallengeService.hexToBytes (NuwChallengeService.leaf task))
  = 32%nat ->
  Forall (fun h => length (NuwChallengeService.hexToBytes h) = 32%nat)
         (NuwChallengeService.proof task) ->
  (length (NuwChallengeService.proof task) <= 32)%nat ->
  outcome (NuwChallengeService.verifyMerkleProof P
             (NuwChallengeService.root task) (NuwChallengeService.leaf task)
             (NuwChallengeService.proof task) (NuwChallengeService.index task))
  = inr (merkleValid (subtle_digest P) task).
Proof.
  intros Hd Hleaf Hproof Hdepth.
  unfold NuwChallengeService.verifyMerkleProof, merkleValid.
  pose proof (merkleLoop_shallow P Hd (NuwChallengeService.proof task)
                (NuwChallengeService.index task) 0 _ Hleaf Hproof) as H.
  destruct (NuwChallengeService.merkleLoop P _ _ 0 _) as [r t].
  cbn in H. rewrite H by lia. cbn.
  f_equal.
  destruct (list_eq_dec Z.eq_dec _ _) as [E | E].
  - now apply sameBytes_eq.
  - destruct (NuwChallengeService.sameBytes _ _) eqn:Es; [| reflexivity].
    apply sameBytes_eq in Es. contradiction.
Qed.

(** ** The dispatcher *)

Section Dispatcher.

Import NuwChallengeService.

Variable P : Platform.

Lemma nuw_solveChallenge_expired (ch : NuwChallenge) :
  expires_at ch < Date_now P / 1000 ->
  solveChallenge P ch = (inl (Thrown EXPIRED), []).
Proof.
  intros H. unfold solveChallenge.
  destruct (Z.ltb_spec (expires_at ch) (Date_now P / 1000)); [reflexivity | lia].
Qed.

Lemma nuw_solveChallenge_dispatch (ch : NuwChallenge) :
  Date_now P / 1000 <= expires_at ch ->
  solveChallenge P ch
  = match challenge_type ch with
    | ARGON2_POW => solveArgon2 P ch
    | SIGNATURE_BATCH => solveSignatureBatch P ch
    | ZK_VERIFY => solveZkVerify P ch
    | MERKLE_VERIFY => solveMerkleVerify P ch
    | PQ_ASSIST => solveArgon2 P ch
    | UNKNOWN _ => throw UNSUPPORTED_TYPE
    end.
Proof.
  intros H. unfold solveChallenge.
  destruct (Z.ltb_spec (expires_at ch) (Date_now P / 1000)); [lia | reflexivity].
Qed.

(** The Merkle loops throw nothing of the service's own. *)
Lemma merkleLoop_throws (proofHex : list string) (index i : Z)
    (current : list Z) (e : Exn ErrorCode) :
  outcome (merkleLoop P proofHex index i current) = inl e ->
  e = PlatformError.
Proof.
  revert i current. induction proofHex as [| h rest IH]; intros i current.
  - discriminate.
  - cbn [merkleLoop].
    destruct (combine _ current (hexToBytes h)) as [combined |];
      cbn [fromOption digestSha256 bind].
    + specialize (IH (i + 1) (subtle_digest P combined)).
      destruct (merkleLoop P rest index (i + 1) _) as [r t]. exact IH.
    + now intros [= <-].
Qed.

Lemma verifyProofs_throws (tasks : list MerkleProofTask)
    (results : list MerkleResult) (e : Exn ErrorCode) :
  outcome (verifyProofs P tasks results) = inl e -> e = PlatformError.
Proof.
  revert results. induction tasks as [| task rest IH]; intros results.
  - discriminate.
  - cbn [verifyProofs]. unfold verifyMerkleProof.
    pose proof (merkleLoop_throws (proof task) (index task) 0
                  (hexToBytes (leaf task))) as Hloop.
    destruct (merkleLoop P (proof task) (index task) 0 _) as [[e' | cur] t];
      cbn [bind ret].
    + intros [= <-]. now apply Hloop.
    + match goal with
      | |- context [verifyProofs P rest ?rs] =>
          specialize (IH rs); destruct (verifyProofs P rest rs) as [r' t']
      end.
      exact IH.
Qed.

(** Past the guard nothing throws [EXPIRED]. *)
Lemma nuw_solveChallenge_not_expired (ch : NuwChallenge) :
  Date_now P / 1000 <= expires_at ch ->
  nuwErrorName (solveChallenge P ch) <> Some "EXPIRED".
Proof.
  intros H. rewrite nuw_solveChallenge_dispatch by exact H.
  unfold nuwErrorName.
  destruct (challenge_type ch).
  - unfold solveArgon2. destruct (argon2_params ch) as [params |];
      [| discriminate].
    destruct (nuw_solveLoop_cases P ch params (hexToBytes (nonce params))
                (Z.to_nat MAX_ATTEMPTS) 0) as [[c ->] | ->]; discriminate.
  - unfold solveSignatureBatch.
    destruct (signature_batch ch) as [[| sig rest] |]; try discriminate.
    pose proof (verifyItems_outcome P (sig :: rest) []) as Hv.
    destruct (verifyItems P (sig :: rest) []) as [r t].
    cbn in Hv. subst r. discriminate.
  - unfold solveZkVerify. destruct (zk_proof ch); discriminate.
  - unfold solveArgon2. destruct (argon2_params ch) as [params |];
      [| discriminate].
    destruct (nuw_solveLoop_cases P ch params (hexToBytes (nonce params))
                (Z.to_nat MAX_ATTEMPTS) 0) as [[c ->] | ->]; discriminate.
  - unfold solveMerkleVerify.
    destruct (merkle_proofs ch) as [[| task rest] |]; try discriminate.
    pose proof (verifyProofs_throws (task :: rest) []) as Hv.
    destruct (verifyProofs P (task :: rest) []) as [[e | r] t].
    + cbn in Hv. rewrite (Hv e eq_refl). discriminate.
    + discriminate.
  - discriminate.
Qed.

Lemma pow_solveChallenge_not_expired
    (ch : ChallengeService.TransactionChallenge) (maxAttempts : option Z) :
  Date_now P / 1000 <= ChallengeService.expires_at ch ->
  powErrorName (ChallengeService.solveChallenge P ch maxAttempts)
  <> Some "EXPIRED".
Proof.
  intros H. unfold powErrorName, ChallengeService.solveChallenge.
  destruct (Z.ltb_spec (ChallengeService.expires_at ch) (Date_now P / 1000));
    [lia |].
  destruct (negb _); [discriminate |].
  destruct (outcome (ChallengeService.solveLoop P ch _ _ 0)) as [e | r] eqn:E;
    [| discriminate].
  destruct (solveLoop_throws P ch _ _ _ e E) as [-> | ->]; discriminate.
Qed.

End Dispatcher.

(** ** The hex codec *)

Lemma hexToBytes_same (hex : string) :
  NuwChallengeService.hexToBytes hex = ChallengeService.hexToBytes hex.
Proof. reflexivity. Qed.

Lemma bytesToHex_same (bytes : list Z) :
  NuwChallengeService.bytesToHex bytes = ChallengeService.bytesToHex bytes.
Proof. reflexivity. Qed.

(** [hexToBytes] reads its argument two characters at a time. *)
Lemma hexToBytes_pair (a b : ascii) (rest : string) :
  ChallengeService.hexToBytes (String a (String b rest))
  = JS.ToUint8 (JS.parseInt16 (String a (String b EmptyString)))
    :: ChallengeService.hexToBytes rest.
Proof.
  unfold ChallengeService.hexToBytes.
  change (String.length (String a (String b rest)))
    with (1 * 2 + String.length rest)%nat.
  rewrite Nat.div_add_l by lia.
  cbn [Nat.add seq map]. f_equal; [now destruct rest |].
  rewrite <- seq_shift, map_map. apply map_ext. intros i.
  reflexivity.
Qed.

(** Every element [hexToBytes] stores is a byte. *)
Lemma hexToBytes_isBytes (hex : string) :
  isBytes (ChallengeService.hexToBytes hex).
Proof.
  unfold isBytes, ChallengeService.hexToBytes. apply Forall_forall.
  intros b Hb. apply in_map_iff in Hb. destruct Hb as [i [<- _]].
  unfold JS.ToUint8. destruct (JS.parseInt16 _); [| lia].
  apply Z.mod_pos_bound. lia.
Qed.

Lemma byteToHex_decodes (b : Z) :
  0 <= b < 256 ->
  JS.ToUint8 (JS.parseInt16 (ChallengeService.byteToHex b)) = b.
Proof.
  intros Hb.
  assert (Hall : forallb
                   (fun n => JS.ToUint8 (JS.parseInt16
                               (ChallengeService.byteToHex (Z.of_nat n)))
                             =? Z.of_nat n)
                   (seq 0 256) = true) by (vm_compute; reflexivity).
  rewrite forallb_forall in Hall.
  specialize (Hall (Z.to_nat b)). rewrite Z2Nat.id in Hall by lia.
  apply Z.eqb_eq, Hall, in_seq. lia.
Qed.

Lemma bytesToHex_cons (b : Z) (bytes : list Z) :
  ChallengeService.bytesToHex (b :: bytes)
  = String (JS.hexDigit (b / 16))
      (String (JS.hexDigit (b mod 16)) (ChallengeService.bytesToHex bytes)).
Proof.
  unfold ChallengeService.bytesToHex. cbn [map String.concat].
  destruct (map ChallengeService.byteToHex bytes); reflexivity.
Qed.

(** Decoding the hex of a byte array gives the array back: the bytes
    tested for leading zeros are the bytes of the digest whose hex the
    primitive returned. *)
Lemma hexToBytes_bytesToHex (bytes : list Z) :
  isBytes bytes ->
  ChallengeService.hexToBytes (ChallengeService.bytesToHex bytes) = bytes.
Proof.
  induction 1 as [| b bytes Hb _ IH].
  - reflexivity.
  - rewrite bytesToHex_cons, hexToBytes_pair, IH. f_equal.
    now apply byteToHex_decodes.
Qed.

Lemma bytesToHex_length (bytes : list Z) :
  String.length (ChallengeService.bytesToHex bytes) = (2 * length bytes)%nat.
Proof.
  induction bytes as [| b bytes IH]; [reflexivity |].
  rewrite bytesToHex_cons. cbn [String.length length]. lia.
Qed.

(** The counter of a solution is sixteen hex digits. *)
Lemma be64_isBytes (counter : Z) : isBytes (be64 counter).
Proof.
  unfold isBytes, be64. apply Forall_forall. intros b Hb.
  apply in_map_iff in Hb. destruct Hb as [k [<- _]].
  apply Z.mod_pos_bound. lia.
Qed.

Lemma solution_decodes (counter : Z) :
  ChallengeService.hexToBytes (ChallengeService.bytesToHex (be64 counter))
  = be64 counter
  /\ String.length (ChallengeService.bytesToHex (be64 counter)) = 16%nat.
Proof.
  split; [apply hexToBytes_bytesToHex, be64_isBytes |].
  now rewrite bytesToHex_length.
Qed.

(** ** SHA-256 *)

Lemma SHA256_digest_length (msg : list Z) : length (SHA256.digest msg) = 32%nat.
Proof. reflexivity. Qed.

Example SHA256_abc :
  ChallengeService.bytesToHex (SHA256.digest [97; 98; 99])
  = "ba7816bf8f01cfea414140de5dae2223b00361a396177a9cb410ff61f20015ad".
Proof. vm_compute. reflexivity. Qed.

Example SHA256_empty :
  ChallengeService.bytesToHex (SHA256.digest [])
  = "e3b0c44298fc1c149afbf4c8996fb92427ae41e4649b934ca495991b7852b855".
Proof. vm_compute. reflexivity. Qed.

(** ** The search of the NUW solver *)

(** [solveArgon2] runs the search of the standalone solver with the
    bound fixed at 10,000 and without looking at the length of the salt;
    its solution carries the counter only. *)
Lemma nuw_solveArgon2_search
    (P : Platform) (ch : NuwChallengeService.NuwChallenge)
    (params : NuwChallengeService.Argon2Params) (c : Z) (d : string) :
  NuwChallengeService.argon2_params ch = Some params ->
  0 <= c < 10000 ->
  argon2id P (powOptions (NuwChallengeService.nonce params)
                (NuwChallengeService.memory_cost params)
                (NuwChallengeService.time_cost params) c) = Some d ->
  NuwChallengeService.hasLeadingZeros (NuwChallengeService.hexToBytes d)
    (NuwChallengeService.difficulty params) = true ->
  (forall c', 0 <= c' < c ->
     missesAt
       (argon2id P (powOptions (NuwChallengeService.nonce params)
                      (NuwChallengeService.memory_cost params)
                      (NuwChallengeService.time_cost params) c'))
       (NuwChallengeService.difficulty params)) ->
  outcome (NuwChallengeService.solveArgon2 P ch)
  = inr {| NuwChallengeService.sol_challenge_id :=
             NuwChallengeService.challenge_id ch;
           NuwChallengeService.sol_challenge_type :=
             NuwChallengeService.ARGON2_POW;
           NuwChallengeService.argon2_solution :=
             Some (NuwChallengeService.bytesToHex (be64 c));
           NuwChallengeService.signature_results := None;
           NuwChallengeService.zk_result := None;
           NuwChallengeService.merkle_results := None |}.
Proof.
  intros Hparams Hc Hd Hz Hmiss.
  unfold NuwChallengeService.solveArgon2. rewrite Hparams.
  apply (nuw_solveLoop_found P ch params _ _ 0 c d);
    [unfold NuwChallengeService.MAX_ATTEMPTS; lia | exact Hd | exact Hz
    | exact Hmiss].
Qed.

(** With its parameters present, [solveArgon2] starts hashing at once,
    whatever the nonce decodes to, and never ends in [INVALID]. *)
Lemma nuw_solveArgon2_unchecked_nonce
    (P : Platform) (ch : NuwChallengeService.NuwChallenge)
    (params : NuwChallengeService.Argon2Params) :
  NuwChallengeService.argon2_params ch = Some params ->
  hd_error (events (NuwChallengeService.solveArgon2 P ch))
  = Some (EvArgon2id (powOptions (NuwChallengeService.nonce params)
                        (NuwChallengeService.memory_cost params)
                        (NuwChallengeService.time_cost params) 0))
  /\ nuwErrorName (NuwChallengeService.solveArgon2 P ch) <> Some "INVALID".
Proof.
  intros Hparams. unfold NuwChallengeService.solveArgon2. rewrite Hparams.
  split.
  - apply nuw_solveLoop_first_event.
    unfold NuwChallengeService.MAX_ATTEMPTS. lia.
  - unfold nuwErrorName.
    destruct (nuw_solveLoop_cases P ch params
                (NuwChallengeService.hexToBytes
                   (NuwChallengeService.nonce params))
                (Z.to_nat NuwChallengeService.MAX_ATTEMPTS) 0)
      as [[c ->] | ->]; discriminate.
Qed.

(** * The claims about the solvers *)

(** C2, as the code has it. A solver rejects a challenge as [EXPIRED],
    before any hash and before dispatching, exactly when [expires_at] is
    less than the current time in whole seconds; a challenge whose
    [expires_at] is the current second or later passes the guard, and
    nothing after the guard reports [EXPIRED]. This holds for the PoW
    solver and for the NUW dispatcher. *)
Theorem expiry_guard
    (P : Platform) (pow : ChallengeService.TransactionChallenge)
    (maxAttempts : option Z) (nuw : NuwChallengeService.NuwChallenge) :
  (ChallengeService.expires_at pow < Date_now P / 1000 ->
   ChallengeService.solveChallenge P pow maxAttempts
   = (inl (Thrown ChallengeService.EXPIRED), []))
  /\ (Date_now P / 1000 <= ChallengeService.expires_at pow ->
      powErrorName (ChallengeService.solveChallenge P pow maxAttempts)
      <> Some "EXPIRED")
  /\ (NuwChallengeService.expires_at nuw < Date_now P / 1000 ->
      NuwChallengeService.solveChallenge P nuw
      = (inl (Thrown NuwChallengeService.EXPIRED), []))
  /\ (Date_now P / 1000 <= NuwChallengeService.expires_at nuw ->
      nuwErrorName (NuwChallengeService.solveChallenge P nuw)
      <> Some "EXPIRED").
Proof.
  repeat split.
  - apply solveChallenge_expired.
  - apply pow_solveChallenge_not_expired.
  - apply nuw_solveChallenge_expired.
  - apply nuw_solveChallenge_not_expired.
Qed.

(** C2 as stated fails: with the clock at second 1,700,000,000 a PoW
    challenge and a NUW challenge that expire at that very second are both
    solved, the first after two hashes. *)
Lemma expiry_boundary_is_accepted :
  Date_now Fixtures.platform / 1000
  = ChallengeService.expires_at (Fixtures.powChallenge 4 1700000000)
  /\ ChallengeService.solveChallenge Fixtures.platform
       (Fixtures.powChallenge 4 1700000000) (Some 20)
     = (inr {| ChallengeService.solved_challenge_id := "pow-1";
               ChallengeService.solution := "0000000000000001";
               ChallengeService.hash :=
                 "08e00266fff0aacc64974f22a53622a7dc458ac1b5fd446ae7c99a4a99a564e6" |},
        [EvArgon2id (powOptions Fixtures.zeros32 1024 2 0);
         EvArgon2id (powOptions Fixtures.zeros32 1024 2 1)])
  /\ outcome (NuwChallengeService.solveChallenge Fixtures.platform
                (Fixtures.zkChallenge 1700000000))
     = inr {| NuwChallengeService.sol_challenge_id := "nuw-3";
              NuwChallengeService.sol_challenge_type :=
                NuwChallengeService.ZK_VERIFY;
              NuwChallengeService.argon2_solution := None;
              NuwChallengeService.signature_results := None;
              NuwChallengeService.zk_result :=
                Some {| NuwChallengeService.zr_proof_id := "zk-7";
                        NuwChallengeService.zr_valid := true |};
              NuwChallengeService.merkle_results := None |}.
Proof.
  split; [vm_compute; reflexivity |].
  split; vm_compute; reflexivity.
Qed.

(** C6 at a failing input. The NUW solver has no check of the nonce's
    length: on an [ARGON2_POW] challenge whose nonce decodes to 16 bytes
    it goes straight to [argon2id] with that 16-byte salt, whatever the
    primitive then does, and the run never ends in [INVALID]. *)
Theorem nuw_short_nonce_is_hashed (f : Argon2Options -> option string) :
  length (NuwChallengeService.hexToBytes Fixtures.zeros16) = 16%nat
  /\ hd_error (events (NuwChallengeService.solveChallenge
                         (Fixtures.platformWith f) Fixtures.nuwShortNonce))
     = Some (EvArgon2id {| password := be64 0;
                           salt := repeat 0 16;
                           memorySize := 1024;
                           iterations := 2;
                           parallelism := 1;
                           hashLength := 32 |})
  /\ nuwErrorName (NuwChallengeService.solveChallenge
                     (Fixtures.platformWith f) Fixtures.nuwShortNonce)
     <> Some "INVALID".
Proof.
  split; [reflexivity |].
  rewrite nuw_solveChallenge_dispatch by (vm_compute; discriminate).
  exact (nuw_solveArgon2_unchecked_nonce (Fixtures.platformWith f)
           Fixtures.nuwShortNonce (Fixtures.argon2Params Fixtures.zeros16 3)
           eq_refl).
Qed.

(** C7, as the code has it. When [argon2id] throws at a counter below the
    bound and every earlier counter missed, the standalone PoW solver
    fails with [WASM_FAILED], a code other than [SOLVE_FAILED]; the NUW
    dispatcher, on an [ARGON2_POW] or [PQ_ASSIST] challenge, fails with
    [SOLVE_FAILED], the code it also gives an exhausted search. *)
Theorem primitive_error_codes
    (P : Platform) (pow : ChallengeService.TransactionChallenge)
    (maxAttempts : option Z) (nuw : NuwChallengeService.NuwChallenge)
    (params : NuwChallengeService.Argon2Params) (c : Z) :
  (Date_now P / 1000 <= ChallengeService.expires_at pow ->
   length (ChallengeService.hexToBytes (ChallengeService.nonce pow)) = 32%nat ->
   0 <= c < attemptsBound maxAttempts ->
   powDigest P pow c = None ->
   (forall c', 0 <= c' < c ->
      missesAt (powDigest P pow c') (ChallengeService.difficulty pow)) ->
   powErrorName (ChallengeService.solveChallenge P pow maxAttempts)
   = Some "WASM_FAILED")
  /\ ChallengeService.codeName ChallengeService.WASM_FAILED
     <> ChallengeService.codeName ChallengeService.SOLVE_FAILED
  /\ (Date_now P / 1000 <= NuwChallengeService.expires_at nuw ->
      NuwChallengeService.challenge_type nuw = NuwChallengeService.ARGON2_POW
      \/ NuwChallengeService.challenge_type nuw
         = NuwChallengeService.PQ_ASSIST ->
      NuwChallengeService.argon2_params nuw = Some params ->
      0 <= c < 10000 ->
      argon2id P (powOptions (NuwChallengeService.nonce params)
                    (NuwChallengeService.memory_cost params)
                    (NuwChallengeService.time_cost params) c) = None ->
      (forall c', 0 <= c' < c ->
         missesAt
           (argon2id P (powOptions (NuwChallengeService.nonce params)
                          (NuwChallengeService.memory_cost params)
                          (NuwChallengeService.time_cost params) c'))
           (NuwChallengeService.difficulty params)) ->
      nuwErrorName (NuwChallengeService.solveChallenge P nuw)
      = Some "SOLVE_FAILED").
Proof.
  split; [| split].
  - intros Hexp Hnonce Hc Hd Hmiss. unfold powErrorName.
    rewrite solveChallenge_loop by assumption.
    rewrite (solveLoop_primitive_error P pow _ _ 0 c); try assumption;
      [reflexivity | lia].
  - discriminate.
  - intros Hexp Htype Hparams Hc Hd Hmiss. unfold nuwErrorName.
    rewrite nuw_solveChallenge_dispatch by assumption.
    assert (E : NuwChallengeService.solveArgon2 P nuw
                = NuwChallengeService.solveLoop P nuw params
                    (NuwChallengeService.hexToBytes
                       (NuwChallengeService.nonce params))
                    (Z.to_nat NuwChallengeService.MAX_ATTEMPTS) 0).
    { unfold NuwChallengeService.solveArgon2. now rewrite Hparams. }
    assert (R : outcome (NuwChallengeService.solveArgon2 P nuw)
                = inl (Thrown NuwChallengeService.SOLVE_FAILED)).
    { rewrite E.
      apply (nuw_solveLoop_primitive_error P nuw params _ _ 0 c);
        [unfold NuwChallengeService.MAX_ATTEMPTS; lia | exact Hd
        | exact Hmiss]. }
    destruct Htype as [-> | ->]; rewrite R; reflexivity.
Qed.

(** C7 as stated fails: when [argon2id] throws at the first hash of an
    [ARGON2_POW] challenge, the NUW dispatcher fails with [SOLVE_FAILED],
    where the standalone solver fails with [WASM_FAILED]. *)
Lemma nuw_primitive_error_is_SOLVE_FAILED :
  NuwChallengeService.solveChallenge Fixtures.platformArgon2Throws
    (Fixtures.nuwPow NuwChallengeService.ARGON2_POW 1700000060)
  = (inl (Thrown NuwChallengeService.SOLVE_FAILED),
     [EvArgon2id (powOptions Fixtures.zeros32 1024 2 0)])
  /\ nuwErrorName
       (NuwChallengeService.solveChallenge Fixtures.platformArgon2Throws
          (Fixtures.nuwPow NuwChallengeService.PQ_ASSIST 1700000060))
     = Some "SOLVE_FAILED"
  /\ powErrorName
       (ChallengeService.solveChallenge Fixtures.platformArgon2Throws
          (Fixtures.powChallenge 4 1700000060) None)
     = Some "WASM_FAILED".
Proof.
  split; [vm_compute; reflexivity |].
  split; vm_compute; reflexivity.
Qed.

(** C8. For a NUW challenge that has not expired, when the payload of its
    type is absent (or is an empty list, for [SIGNATURE_BATCH] and
    [MERKLE_VERIFY]) the dispatcher fails with [INVALID] and has called no
    primitive: no hash, no verification. *)
Theorem missing_payload_is_invalid
    (P : Platform) (ch : NuwChallengeService.NuwChallenge) :
  Date_now P / 1000 <= NuwChallengeService.expires_at ch ->
  payloadMissing ch ->
  NuwChallengeService.solveChallenge P ch
  = (inl (Thrown NuwChallengeService.INVALID), []).
Proof.
  intros Hexp Hmissing.
  rewrite nuw_solveChallenge_dispatch by exact Hexp.
  unfold payloadMissing in Hmissing.
  destruct (NuwChallengeService.challenge_type ch).
  - unfold NuwChallengeService.solveArgon2. now rewrite Hmissing.
  - now apply solveSignatureBatch_missing.
  - unfold NuwChallengeService.solveZkVerify. now rewrite Hmissing.
  - unfold NuwChallengeService.solveArgon2. now rewrite Hmissing.
  - unfold NuwChallengeService.solveMerkleVerify.
    destruct Hmissing as [-> | ->]; reflexivity.
  - contradiction.
Qed.

(** C9. For an unexpired challenge of type [ZK_VERIFY] that carries a
    [zk_proof], the dispatcher returns the solution whose [zk_result] is
    [{proof_id, valid: true}] for the task's [proof_id], whatever the
    proof holds, and calls no primitive on the way. *)
Theorem zk_verify_is_placeholder
    (P : Platform) (ch : NuwChallengeService.NuwChallenge)
    (task : NuwChallengeService.ZkProofTask) :
  Date_now P / 1000 <= NuwChallengeService.expires_at ch ->
  NuwChallengeService.challenge_type ch = NuwChallengeService.ZK_VERIFY ->
  NuwChallengeService.zk_proof ch = Some task ->
  NuwChallengeService.solveChallenge P ch
  = (inr {| NuwChallengeService.sol_challenge_id :=
              NuwChallengeService.challenge_id ch;
            NuwChallengeService.sol_challenge_type :=
              NuwChallengeService.ZK_VERIFY;
            NuwChallengeService.argon2_solution := None;
            NuwChallengeService.signature_results := None;
            NuwChallengeService.zk_result :=
              Some {| NuwChallengeService.zr_proof_id :=
                        NuwChallengeService.proof_id task;
                      NuwChallengeService.zr_valid := true |};
            NuwChallengeService.merkle_results := None |},
     []).
Proof.
  intros Hexp Htype Htask.
  rewrite nuw_solveChallenge_dispatch by exact Hexp.
  rewrite Htype. unfold NuwChallengeService.solveZkVerify.
  now rewrite Htask.
Qed.

(** C10. A [PQ_ASSIST] challenge that is solved yields a solution whose
    [challenge_type] is [ARGON2_POW], which is not the challenge's type,
    and whose only payload is [argon2_solution]. *)
Theorem pq_assist_solution_type
    (P : Platform) (ch : NuwChallengeService.NuwChallenge)
    (sol : NuwChallengeService.NuwSolution) :
  NuwChallengeService.challenge_type ch = NuwChallengeService.PQ_ASSIST ->
  outcome (NuwChallengeService.solveChallenge P ch) = inr sol ->
  NuwChallengeService.sol_challenge_type sol = NuwChallengeService.ARGON2_POW
  /\ NuwChallengeService.sol_challenge_type sol
     <> NuwChallengeService.challenge_type ch
  /\ (exists counterHex,
        NuwChallengeService.argon2_solution sol = Some counterHex)
  /\ NuwChallengeService.signature_results sol = None
  /\ NuwChallengeService.zk_result sol = None
  /\ NuwChallengeService.merkle_results sol = None.
Proof.
  intros Htype Hsol. rewrite Htype.
  unfold NuwChallengeService.solveChallenge in Hsol.
  destruct (NuwChallengeService.expires_at ch <? Date_now P / 1000);
    [discriminate |].
  rewrite Htype in Hsol. unfold NuwChallengeService.solveArgon2 in Hsol.
  destruct (NuwChallengeService.argon2_params ch) as [params |];
    [| discriminate].
  destruct (nuw_solveLoop_cases P ch params
              (NuwChallengeService.hexToBytes
                 (NuwChallengeService.nonce params))
              (Z.to_nat NuwChallengeService.MAX_ATTEMPTS) 0)
    as [[c Hc] | Hc]; rewrite Hc in Hsol; [| discriminate].
  injection Hsol as <-. cbn.
  repeat split; try discriminate. eexists. reflexivity.
Qed.

(** C3 at a failing input. A well-formed task of 33 levels for the leaf
    at index 1. With the root that the fold of the specification gives
    for index 1, the proof is valid and [verifyMerkleProof] answers
    [false]; with the root of the path for index 1 + 2^32, the proof is
    not valid for index 1 and [verifyMerkleProof] answers [true]. At
    step 32 the code's [(index >> i) & 1] reads bit 0 of the index, which
    is 1, where bit 32 is 0. *)
Theorem verifyMerkleProof_level_32 :
  merkleValid SHA256.digest (Fixtures.merkleTask Fixtures.root33 33 1) = true
  /\ outcome (NuwChallengeService.verifyMerkleProof Fixtures.platform
                Fixtures.root33 Fixtures.leafAA
                (repeat Fixtures.siblingBB 33) 1)
     = inr false
  /\ merkleValid SHA256.digest (Fixtures.merkleTask Fixtures.root33wrap 33 1)
     = false
  /\ outcome (NuwChallengeService.verifyMerkleProof Fixtures.platform
                Fixtures.root33wrap Fixtures.leafAA
                (repeat Fixtures.siblingBB 33) 1)
     = inr true.
Proof.
  split; [vm_compute; reflexivity |].
  split; [vm_compute; reflexivity |].
  split; vm_compute; reflexivity.
Qed.

(** * Runs on the fixtures *)

Example hexToBytes_run :
  ChallengeService.hexToBytes "00ff1g-1 fx00X0x1" = [0; 255; 1; 255; 15; 0; 0; 0].
Proof. reflexivity. Qed.

Example be64_run : be64 258 = [0; 0; 0; 0; 0; 0; 1; 2].
Proof. reflexivity. Qed.

(** The batch of one verifiable, one corrupted and one [dilithium2]
    item. *)
Example signature_batch_run :
  outcome (NuwChallengeService.solveChallenge Fixtures.platform
             Fixtures.batchChallenge)
  = inr {| NuwChallengeService.sol_challenge_id := "nuw-2";
           NuwChallengeService.sol_challenge_type :=
             NuwChallengeService.SIGNATURE_BATCH;
           NuwChallengeService.argon2_solution := None;
           NuwChallengeService.signature_results :=
             Some [ {| NuwChallengeService.sr_tx_id := "A";
                       NuwChallengeService.sr_valid := true |};
                    {| NuwChallengeService.sr_tx_id := "B";
                       NuwChallengeService.sr_valid := false |};
                    {| NuwChallengeService.sr_tx_id := "C";
                       NuwChallengeService.sr_valid := false |} ];
           NuwChallengeService.zk_result := None;
           NuwChallengeService.merkle_results := None |}.
Proof. vm_compute. reflexivity. Qed.

(** A two-level proof verifies against its root and not against another
    one. *)
Example merkle_run :
  outcome (NuwChallengeService.verifyMerkleProof Fixtures.platform
             Fixtures.root2 Fixtures.leafAA
             [Fixtures.siblingBB; Fixtures.siblingBB] 1) = inr true
  /\ outcome (NuwChallengeService.verifyMerkleProof Fixtures.platform
                Fixtures.root33 Fixtures.leafAA
                [Fixtures.siblingBB; Fixtures.siblingBB] 1) = inr false.
Proof. split; vm_compute; reflexivity. Qed.

(** A leaf of 33 bytes does not fit the second half of the buffer:
    [set] throws and the verifier rejects instead of answering. *)
Example merkle_long_leaf_throws :
  outcome (NuwChallengeService.verifyMerkleProof Fixtures.platform
             Fixtures.root2 (Fixtures.leafAA ++ "aa")
             [Fixtures.siblingBB] 1) = inl PlatformError.
Proof. vm_compute. reflexivity. Qed.

(** * Witnesses *)

Lemma hasLeadingZeros_spec_witness :
  (ChallengeService.hasLeadingZeros [0; 0; 23; 200] 19 = true <->
   zeroBytes [0; 0; 23; 200] (19 / 8) /\
   (19 mod 8 > 0 ->
    19 / 8 < Z.of_nat (length [0; 0; 23; 200]) ->
    topBitsZero (nth (Z.to_nat (19 / 8)) [0; 0; 23; 200] 0) (19 mod 8)))
  /\ NuwChallengeService.hasLeadingZeros [0; 0; 23; 200] 19
     = ChallengeService.hasLeadingZeros [0; 0; 23; 200] 19.
Proof.
  apply (hasLeadingZeros_spec [0; 0; 23; 200] 19).
  - repeat constructor; lia.
  - lia.
Defined.

Lemma solveChallenge_search_witness :
  (outcome (ChallengeService.solveChallenge Fixtures.platform
              (Fixtures.powChallenge 4 1700000060) (Some 20))
   = inr {| ChallengeService.solved_challenge_id := "pow-1";
            ChallengeService.solution := "0000000000000001";
            ChallengeService.hash :=
              "08e00266fff0aacc64974f22a53622a7dc458ac1b5fd446ae7c99a4a99a564e6" |}
   /\ argon2Calls (events (ChallengeService.solveChallenge Fixtures.platform
                             (Fixtures.powChallenge 4 1700000060) (Some 20)))
      = [powOptions Fixtures.zeros32 1024 2 0;
         powOptions Fixtures.zeros32 1024 2 1])
  /\ (outcome (ChallengeService.solveChallenge Fixtures.platform
                 (Fixtures.powChallenge 5 1700000060) (Some 3))
      = inl (Thrown ChallengeService.SOLVE_FAILED)
      /\ argon2Calls (events (ChallengeService.solveChallenge Fixtures.platform
                                (Fixtures.powChallenge 5 1700000060) (Some 3)))
         = [powOptions Fixtures.zeros32 1024 2 0;
            powOptions Fixtures.zeros32 1024 2 1;
            powOptions Fixtures.zeros32 1024 2 2]).
Proof.
  split.
  - assert (Hexp : Date_now Fixtures.platform / 1000
                   < ChallengeService.expires_at
                       (Fixtures.powChallenge 4 1700000060))
      by (vm_compute; reflexivity).
    assert (Hnonce : length (ChallengeService.hexToBytes
                               (ChallengeService.nonce
                                  (Fixtures.powChallenge 4 1700000060)))
                     = 32%nat) by reflexivity.
    apply (proj1 (solveChallenge_search Fixtures.platform
                    (Fixtures.powChallenge 4 1700000060) (Some 20)
                    Hexp Hnonce)
             1 "08e00266fff0aacc64974f22a53622a7dc458ac1b5fd446ae7c99a4a99a564e6").
    + cbn. lia.
    + vm_compute. reflexivity.
    + vm_compute. reflexivity.
    + intros c' Hc'. assert (c' = 0) as -> by lia.
      eexists. split; [vm_compute; reflexivity | vm_compute; reflexivity].
  - assert (Hexp : Date_now Fixtures.platform / 1000
                   < ChallengeService.expires_at
                       (Fixtures.powChallenge 5 1700000060))
      by (vm_compute; reflexivity).
    assert (Hnonce : length (ChallengeService.hexToBytes
                               (ChallengeService.nonce
                                  (Fixtures.powChallenge 5 1700000060)))
                     = 32%nat) by reflexivity.
    apply (proj2 (solveChallenge_search Fixtures.platform
                    (Fixtures.powChallenge 5 1700000060) (Some 3)
                    Hexp Hnonce)).
    intros c Hc. cbn in Hc.
    assert (c = 0 \/ c = 1 \/ c = 2) as [-> | [-> | ->]] by lia;
      eexists;
      (split; [vm_compute; reflexivity | vm_compute; reflexivity]).
Defined.

Lemma expiry_guard_witness :
  ChallengeService.solveChallenge Fixtures.platform
    (Fixtures.powChallenge 4 1699999999) None
  = (inl (Thrown ChallengeService.EXPIRED), [])
  /\ NuwChallengeService.solveChallenge Fixtures.platform
       (Fixtures.zkChallenge 1699999999)
     = (inl (Thrown NuwChallengeService.EXPIRED), []).
Proof.
  destruct (expiry_guard Fixtures.platform
              (Fixtures.powChallenge 4 1699999999) None
              (Fixtures.zkChallenge 1699999999)) as [Hpow [_ [Hnuw _]]].
  split.
  - apply Hpow. vm_compute. reflexivity.
  - apply Hnuw. vm_compute. reflexivity.
Defined.

Lemma solveSignatureBatch_results_witness :
  exists results,
    outcome (NuwChallengeService.solveSignatureBatch Fixtures.platformNoEd25519
               Fixtures.batchChallenge)
    = inr {| NuwChallengeService.sol_challenge_id := "nuw-2";
             NuwChallengeService.sol_challenge_type :=
               NuwChallengeService.SIGNATURE_BATCH;
             NuwChallengeService.argon2_solution := None;
             NuwChallengeService.signature_results := Some results;
             NuwChallengeService.zk_result := None;
             NuwChallengeService.merkle_results := None |}
    /\ length results = 3%nat
    /\ map NuwChallengeService.sr_tx_id results = ["A"; "B"; "C"].
Proof.
  destruct (solveSignatureBatch_results Fixtures.platformNoEd25519
              Fixtures.batchChallenge Fixtures.batch)
    as [results [Hrun [Hlen [Hids _]]]].
  - reflexivity.
  - discriminate.
  - exists results. split; [exact Hrun |]. split; [exact Hlen | exact Hids].
Defined.

Lemma primitive_error_codes_witness :
  powErrorName (ChallengeService.solveChallenge Fixtures.platformArgon2Throws
                  (Fixtures.powChallenge 4 1700000060) None)
  = Some "WASM_FAILED"
  /\ nuwErrorName (NuwChallengeService.solveChallenge
                     Fixtures.platformArgon2Throws
                     (Fixtures.nuwPow NuwChallengeService.PQ_ASSIST 1700000060))
     = Some "SOLVE_FAILED".
Proof.
  destruct (primitive_error_codes Fixtures.platformArgon2Throws
              (Fixtures.powChallenge 4 1700000060) None
              (Fixtures.nuwPow NuwChallengeService.PQ_ASSIST 1700000060)
              (Fixtures.argon2Params Fixtures.zeros32 4) 0)
    as [Hpow [_ Hnuw]].
  split.
  - apply Hpow.
    + vm_compute. discriminate.
    + reflexivity.
    + cbn. lia.
    + reflexivity.
    + intros c' Hc'. lia.
  - apply Hnuw.
    + vm_compute. discriminate.
    + right. reflexivity.
    + reflexivity.
    + lia.
    + reflexivity.
    + intros c' Hc'. lia.
Defined.

Lemma missing_payload_is_invalid_witness :
  NuwChallengeService.solveChallenge Fixtures.platform
    (Fixtures.nuwChallenge NuwChallengeService.SIGNATURE_BATCH 1700000060 None)
  = (inl (Thrown NuwChallengeService.INVALID), []).
Proof.
  apply (missing_payload_is_invalid Fixtures.platform
           (Fixtures.nuwChallenge NuwChallengeService.SIGNATURE_BATCH
              1700000060 None)).
  - vm_compute. discriminate.
  - left. reflexivity.
Defined.

Lemma zk_verify_is_placeholder_witness :
  NuwChallengeService.solveChallenge Fixtures.platform
    (Fixtures.zkChallenge 1700000060)
  = (inr {| NuwChallengeService.sol_challenge_id := "nuw-3";
            NuwChallengeService.sol_challenge_type :=
              NuwChallengeService.ZK_VERIFY;
            NuwChallengeService.argon2_solution := None;
            NuwChallengeService.signature_results := None;
            NuwChallengeService.zk_result :=
              Some {| NuwChallengeService.zr_proof_id := "zk-7";
                      NuwChallengeService.zr_valid := true |};
            NuwChallengeService.merkle_results := None |},
     []).
Proof.
  apply (zk_verify_is_placeholder Fixtures.platform
           (Fixtures.zkChallenge 1700000060) Fixtures.zkTask).
  - vm_compute. discriminate.
  - reflexivity.
  - reflexivity.
Defined.

Lemma pq_assist_solution_type_witness :
  let sol :=
    {| NuwChallengeService.sol_challenge_id := "nuw-1";
       NuwChallengeService.sol_challenge_type := NuwChallengeService.ARGON2_POW;
       NuwChallengeService.argon2_solution := Some "0000000000000001";
       NuwChallengeService.signature_results := None;
       NuwChallengeService.zk_result := None;
       NuwChallengeService.merkle_results := None |} in
  outcome (NuwChallengeService.solveChallenge Fixtures.platform
             (Fixtures.nuwPow NuwChallengeService.PQ_ASSIST 1700000060))
  = inr sol
  /\ NuwChallengeService.sol_challenge_type sol
     = NuwChallengeService.ARGON2_POW
  /\ NuwChallengeService.signature_results sol = None.
Proof.
  intros sol.
  assert (Hrun : outcome (NuwChallengeService.solveChallenge Fixtures.platform
                            (Fixtures.nuwPow NuwChallengeService.PQ_ASSIST
                               1700000060))
                 = inr sol) by (vm_compute; reflexivity).
  destruct (pq_assist_solution_type Fixtures.platform
              (Fixtures.nuwPow NuwChallengeService.PQ_ASSIST 1700000060)
              sol eq_refl Hrun) as [Htype [_ [_ [Hsig _]]]].
  split; [exact Hrun |]. split; [exact Htype | exact Hsig].
Defined.

(** * Further properties of the codec *)

Lemma hexDigit_is_plain (a : ascii) (v : Z) :
  JS.hexDigitValue a = Some v ->
  0 <= v < 16
  /\ JS.isWhiteSpace a = false
  /\ JS.stripSign (String a EmptyString) = (1, String a EmptyString)
  /\ a <> "x"%char /\ a <> "X"%char.
Proof.
  intros H.
  destruct a as [[] [] [] [] [] [] [] []]; cbv in H; try discriminate H;
    injection H as <-;
    (split; [lia |]); (split; [reflexivity |]); (split; [reflexivity |]);
    split; discriminate.
Qed.

Lemma stripSign_digit (a : ascii) (rest : string) (v : Z) :
  JS.hexDigitValue a = Some v ->
  JS.stripSign (String a rest) = (1, String a rest).
Proof.
  intros H.
  destruct a as [[] [] [] [] [] [] [] []]; cbv in H; try discriminate H;
    reflexivity.
Qed.

Lemma strip0x_digits (a b : ascii) (rest : string) (v : Z) :
  JS.hexDigitValue b = Some v ->
  JS.strip0x (String a (String b rest)) = String a (String b rest).
Proof.
  intros Hb. destruct (hexDigit_is_plain b v Hb) as [_ [_ [_ [Hx HX]]]].
  destruct a as [[] [] [] [] [] [] [] []]; try reflexivity.
  destruct b as [[] [] [] [] [] [] [] []]; try reflexivity;
    contradiction.
Qed.

Lemma hexToBytes_digits (a b : ascii) (rest : string) (hi lo : Z) :
  JS.hexDigitValue a = Some hi ->
  JS.hexDigitValue b = Some lo ->
  ChallengeService.hexToBytes (String a (String b rest))
  = (16 * hi + lo) :: ChallengeService.hexToBytes rest.
Proof.
  intros Ha Hb. rewrite hexToBytes_pair. f_equal.
  destruct (hexDigit_is_plain a hi Ha) as [Hhi [Hws _]].
  destruct (hexDigit_is_plain b lo Hb) as [Hlo _].
  unfold JS.parseInt16. cbn [JS.trimStart]. rewrite Hws.
  rewrite (stripSign_digit a _ hi Ha), (strip0x_digits a b _ lo Hb).
  cbn [JS.hexPrefix]. rewrite Ha, Hb. cbn [JS.ToUint8].
  rewrite Z.mod_small; lia.
Qed.

Lemma hexToBytes_odd_tail (n : nat) :
  forall (hex : string) (c : ascii),
    String.length hex = (2 * n)%nat ->
    ChallengeService.hexToBytes (hex ++ String c EmptyString)
    = ChallengeService.hexToBytes hex.
Proof.
  induction n as [| n IH]; intros hex c Hlen.
  - destruct hex; [reflexivity | discriminate].
  - destruct hex as [| a [| b rest]]; cbn [String.length] in Hlen;
      try lia.
    cbn [String.append]. rewrite !hexToBytes_pair. f_equal.
    apply IH. lia.
Qed.

Lemma hexDigit_lower (d : Z) :
  0 <= d < 16 -> isLowerHexDigit (JS.hexDigit d) = true.
Proof.
  intros Hd.
  assert (Hall : forallb (fun n => isLowerHexDigit (JS.hexDigit (Z.of_nat n)))
                         (seq 0 16) = true) by reflexivity.
  rewrite forallb_forall in Hall.
  specialize (Hall (Z.to_nat d)). rewrite Z2Nat.id in Hall by lia.
  apply Hall, in_seq. lia.
Qed.

Lemma bytesToHex_lower (bytes : list Z) :
  isBytes bytes ->
  forallb isLowerHexDigit
          (list_ascii_of_string (ChallengeService.bytesToHex bytes)) = true.
Proof.
  induction 1 as [| b bytes Hb _ IH]; [reflexivity |].
  rewrite bytesToHex_cons. cbn [list_ascii_of_string forallb].
  rewrite IH, !hexDigit_lower; [reflexivity | |].
  - apply Z.mod_pos_bound. lia.
  - split; [apply Z.div_pos; lia | apply Z.div_lt_upper_bound; lia].
Qed.

(** X1. Decoding the hex encoding of a byte array gives the array back,
    with the codec of either service. *)
Theorem hex_round_trip (bytes : list Z) :
  isBytes bytes ->
  ChallengeService.hexToBytes (ChallengeService.bytesToHex bytes) = bytes
  /\ NuwChallengeService.hexToBytes (NuwChallengeService.bytesToHex bytes)
     = bytes.
Proof.
  intros H. split; now apply hexToBytes_bytesToHex.
Qed.

(** X2. A pair of hex digits, in either case, decodes to sixteen times
    the first digit plus the second, and the rest of the string is decoded
    the same way. *)
Theorem hexToBytes_decodes_digits (a b : ascii) (rest : string) (hi lo : Z) :
  JS.hexDigitValue a = Some hi ->
  JS.hexDigitValue b = Some lo ->
  ChallengeService.hexToBytes (String a (String b rest))
  = (16 * hi + lo) :: ChallengeService.hexToBytes rest
  /\ NuwChallengeService.hexToBytes (String a (String b rest))
     = (16 * hi + lo) :: NuwChallengeService.hexToBytes rest.
Proof.
  intros Ha Hb. split; now apply hexToBytes_digits.
Qed.

(** X3. [hexToBytes] never rejects its input: it returns
    [floor(length / 2)] bytes, each in [0, 256), and the last character of
    a string of odd length is dropped without notice. *)
Theorem hexToBytes_never_rejects (hex : string) (c : ascii) :
  length (ChallengeService.hexToBytes hex) = (String.length hex / 2)%nat
  /\ isBytes (ChallengeService.hexToBytes hex)
  /\ (Nat.even (String.length hex) = true ->
      ChallengeService.hexToBytes (hex ++ String c EmptyString)
      = ChallengeService.hexToBytes hex).
Proof.
  split; [apply hexToBytes_length |].
  split; [apply hexToBytes_isBytes |].
  intros Heven. apply Nat.even_spec in Heven. destruct Heven as [n Hn].
  now apply (hexToBytes_odd_tail n).
Qed.

(** X4. The hex encoding of a byte array has two characters per byte,
    all of them digits or lower-case letters [a] to [f]. *)
Theorem bytesToHex_shape (bytes : list Z) :
  isBytes bytes ->
  String.length (ChallengeService.bytesToHex bytes) = (2 * length bytes)%nat
  /\ forallb isLowerHexDigit
             (list_ascii_of_string (ChallengeService.bytesToHex bytes)) = true.
Proof.
  intros H. split; [apply bytesToHex_length | now apply bytesToHex_lower].
Qed.

(** ** The counter bytes *)

Lemma be64_value (counter : Z) :
  bigEndianValue (be64 counter) = counter mod 2 ^ 64.
Proof.
  unfold be64. cbn [map bigEndianValue length].
  change (Z.of_nat 7) with 7. change (Z.of_nat 6) with 6.
  change (Z.of_nat 5) with 5. change (Z.of_nat 4) with 4.
  change (Z.of_nat 3) with 3. change (Z.of_nat 2) with 2.
  change (Z.of_nat 1) with 1. change (Z.of_nat 0) with 0.
  change (8 * 7) with 56. change (8 * 6) with 48. change (8 * 5) with 40.
  change (8 * 4) with 32. change (8 * 3) with 24. change (8 * 2) with 16.
  change (8 * 1) with 8. change (8 * 0) with 0.
  change (2 ^ 0) with 1. rewrite Z.div_1_r.
  change (2 ^ 8) with 256.
  change (2 ^ 16) with (256 * 256).
  change (2 ^ 24) with (256 * (256 * 256)).
  change (2 ^ 32) with (256 * (256 * (256 * 256))).
  change (2 ^ 40) with (256 * (256 * (256 * (256 * 256)))).
  change (2 ^ 48) with (256 * (256 * (256 * (256 * (256 * 256))))).
  change (2 ^ 56) with (256 * (256 * (256 * (256 * (256 * (256 * 256)))))).
  rewrite <- !Z.div_div by lia.
  set (q1 := counter / 256).
  set (q2 := q1 / 256). set (q3 := q2 / 256). set (q4 := q3 / 256).
  set (q5 := q4 / 256). set (q6 := q5 / 256). set (q7 := q6 / 256).
  pose proof (Z.div_mod counter 256 ltac:(lia)) as E0.
  pose proof (Z.div_mod q1 256 ltac:(lia)) as E1.
  pose proof (Z.div_mod q2 256 ltac:(lia)) as E2.
  pose proof (Z.div_mod q3 256 ltac:(lia)) as E3.
  pose proof (Z.div_mod q4 256 ltac:(lia)) as E4.
  pose proof (Z.div_mod q5 256 ltac:(lia)) as E5.
  pose proof (Z.div_mod q6 256 ltac:(lia)) as E6.
  pose proof (Z.div_mod q7 256 ltac:(lia)) as E7.
  pose proof (Z.mod_pos_bound counter 256 ltac:(lia)) as B0.
  pose proof (Z.mod_pos_bound q1 256 ltac:(lia)) as B1.
  pose proof (Z.mod_pos_bound q2 256 ltac:(lia)) as B2.
  pose proof (Z.mod_pos_bound q3 256 ltac:(lia)) as B3.
  pose proof (Z.mod_pos_bound q4 256 ltac:(lia)) as B4.
  pose proof (Z.mod_pos_bound q5 256 ltac:(lia)) as B5.
  pose proof (Z.mod_pos_bound q6 256 ltac:(lia)) as B6.
  pose proof (Z.mod_pos_bound q7 256 ltac:(lia)) as B7.
  fold q1 in E0. fold q2 in E1. fold q3 in E2. fold q4 in E3.
  fold q5 in E4. fold q6 in E5. fold q7 in E6.
  apply (Z.mod_unique_pos _ _ (q7 / 256)).
  - change (2 ^ 64) with 18446744073709551616. lia.
  - change (2 ^ 64) with 18446744073709551616.
    change (256 ^ 7) with 72057594037927936.
    change (256 ^ 6) with 281474976710656.
    change (256 ^ 5) with 1099511627776.
    change (256 ^ 4) with 4294967296.
    change (256 ^ 3) with 16777216.
    change (256 ^ 2) with 65536.
    change (256 ^ 1) with 256.
    change (256 ^ 0) with 1.
    lia.
Qed.

(** X5. The eight counter bytes write the counter, modulo 2^64, most
    significant byte first; so two counters below 2^64 that get the same
    bytes (and so the same password and the same solution string) are the
    same counter. *)
Theorem be64_is_big_endian (c c' : Z) :
  length (be64 c) = 8%nat
  /\ isBytes (be64 c)
  /\ bigEndianValue (be64 c) = c mod 2 ^ 64
  /\ (0 <= c < 2 ^ 64 -> 0 <= c' < 2 ^ 64 -> be64 c = be64 c' -> c = c').
Proof.
  split; [reflexivity |]. split; [apply be64_isBytes |].
  split; [apply be64_value |].
  intros Hc Hc' E.
  rewrite <- (Z.mod_small c (2 ^ 64)), <- (Z.mod_small c' (2 ^ 64)) by lia.
  now rewrite <- !be64_value, E.
Qed.

(** ** The leading-zero-bit test as a target *)

Lemma nth_isByte (bytes : list Z) (i : nat) :
  isBytes bytes -> 0 <= nth i bytes 0 < 256.
Proof.
  intros H. destruct (nth_in_or_default i bytes 0) as [Hin | ->]; [| lia].
  unfold isBytes in H. rewrite Forall_forall in H. now apply H.
Qed.

(** The test, for any number of bits. *)
Lemma hasLeadingZeros_iff (hash : list Z) (requiredBits : Z) :
  isBytes hash -> 0 <= requiredBits ->
  ChallengeService.hasLeadingZeros hash requiredBits = true <->
  zeroBytes hash (requiredBits / 8)
  /\ (requiredBits mod 8 > 0 ->
      requiredBits / 8 < Z.of_nat (length hash) ->
      topBitsZero (nth (Z.to_nat (requiredBits / 8)) hash 0)
                  (requiredBits mod 8)).
Proof.
  intros Hbytes Hr. unfold ChallengeService.hasLeadingZeros.
  pose proof (nth_isByte hash (Z.to_nat (requiredBits / 8)) Hbytes) as Hb.
  rewrite Z.rem_mod_nonneg by lia.
  assert (Hq : 0 <= requiredBits / 8) by (apply Z.div_pos; lia).
  assert (Hm : 0 <= requiredBits mod 8 < 8) by (apply Z.mod_pos_bound; lia).
  pose proof (fullBytes_loop hash (Z.to_nat (requiredBits / 8))) as Hloop.
  rewrite Z2Nat.id in Hloop by lia.
  destruct (existsb _ _) eqn:Eloop.
  - split; [discriminate |]. intros [Hz _].
    apply Hloop in Hz. discriminate.
  - assert (Hz : zeroBytes hash (requiredBits / 8)) by (now apply Hloop).
    destruct (Z.gtb_spec (requiredBits mod 8) 0) as [Hpos | Hzero];
      destruct (Z.ltb_spec (requiredBits / 8) (Z.of_nat (length hash)))
        as [Hin | Hout]; cbn [andb];
      try (split; [| reflexivity]; intros _; split; [exact Hz | lia]).
    pose proof (mask_test (nth (Z.to_nat (requiredBits / 8)) hash 0)
                          (requiredBits mod 8) Hb ltac:(lia)) as Hmask.
    destruct (Z.eqb_spec
                (JS.and (nth (Z.to_nat (requiredBits / 8)) hash 0)
                        (JS.shl 255 (8 - requiredBits mod 8))) 0)
      as [E | E]; cbn [negb].
    + split; [| reflexivity]. intros _. split; [exact Hz |].
      intros _ _. now apply Hmask.
    + split; [discriminate |]. intros [_ Htop].
      exfalso. apply E, Hmask, Htop; lia.
Qed.

Lemma zeroBytes_cons (b : Z) (rest : list Z) (n : Z) :
  0 < n ->
  zeroBytes (b :: rest) n <-> b = 0 /\ zeroBytes rest (n - 1).
Proof.
  intros Hn. unfold zeroBytes. split.
  - intros H. split.
    + specialize (H O ltac:(lia)). cbn in H. congruence.
    + intros i Hi. apply (H (S i)). lia.
  - intros [-> H] [| i] Hi; [reflexivity |]. apply H. lia.
Qed.

Lemma topBitsZero_lt (b r : Z) :
  0 <= b < 256 -> 0 < r < 8 ->
  topBitsZero b r <-> b < 2 ^ (8 - r).
Proof.
  intros Hb Hr. unfold topBitsZero. split.
  - intros H.
    assert (E : b mod 2 ^ (8 - r) = b).
    { apply Z.bits_inj'. intros n Hn.
      rewrite Z.testbit_mod_pow2 by lia.
      destruct (Z.ltb_spec n (8 - r)); [reflexivity |].
      symmetry. destruct (Z.ltb_spec n 8).
      - apply H. lia.
      - apply byte_high_bits; lia. }
    rewrite <- E. apply Z.mod_pos_bound. apply Z.pow_pos_nonneg; lia.
  - intros H j Hj.
    rewrite <- (Z.mod_small b (2 ^ (8 - r))) by lia.
    apply Z.mod_pow2_bits_high. lia.
Qed.

Lemma bigEndianValue_bound (bytes : list Z) :
  isBytes bytes ->
  0 <= bigEndianValue bytes < 256 ^ Z.of_nat (length bytes).
Proof.
  induction 1 as [| b bytes Hb _ IH]; [cbn; lia |].
  cbn [bigEndianValue length]. rewrite Nat2Z.inj_succ, Z.pow_succ_r by lia.
  nia.
Qed.

Lemma pow256 (n : Z) : 0 <= n -> 256 ^ n = 2 ^ (8 * n).
Proof.
  intros Hn. change 256 with (2 ^ 8). now rewrite <- Z.pow_mul_r by lia.
Qed.

(** The byte-level reading and the numeric one agree. *)
Lemma leading_zeros_target (hash : list Z) :
  isBytes hash ->
  forall d, 0 <= d <= 8 * Z.of_nat (length hash) ->
    (zeroBytes hash (d / 8)
     /\ (d mod 8 > 0 -> d / 8 < Z.of_nat (length hash) ->
         topBitsZero (nth (Z.to_nat (d / 8)) hash 0) (d mod 8)))
    <-> bigEndianValue hash < 2 ^ (8 * Z.of_nat (length hash) - d).
Proof.
  induction 1 as [| b rest Hb Hrest IH]; intros d Hd.
  - cbn [length] in *. assert (d = 0) as -> by lia. cbn.
    split; [lia |]. intros _. split; [| lia].
    intros i Hi. lia.
  - cbn [bigEndianValue]. set (L := Z.of_nat (length rest)) in *.
    replace (Z.of_nat (length (b :: rest))) with (L + 1) in *
      by (cbn [length]; lia).
    pose proof (bigEndianValue_bound rest Hrest) as Hv. fold L in Hv.
    rewrite pow256 in * by lia.
    assert (HM : 0 < 2 ^ (8 * L)) by (apply Z.pow_pos_nonneg; lia).
    destruct (Z.lt_ge_cases d 8) as [Hsmall | Hbig].
    + rewrite Z.div_small, Z.mod_small by lia. change (Z.to_nat 0) with O.
      cbn [nth].
      replace (8 * (L + 1) - d) with ((8 - d) + 8 * L) by lia.
      rewrite Z.pow_add_r by lia.
      assert (Hk : 0 < 2 ^ (8 - d)) by (apply Z.pow_pos_nonneg; lia).
      split.
      * intros [_ Htop]. destruct (Z.eq_dec d 0) as [-> | Hne].
        -- change (2 ^ (8 - 0)) with 256. nia.
        -- assert (b < 2 ^ (8 - d))
             by (apply topBitsZero_lt; [lia | lia | apply Htop; lia]).
           nia.
      * intros Hlt. split; [intros i Hi; lia |].
        intros Hpos _. apply topBitsZero_lt; [lia | lia | nia].
    + assert (Eq : d / 8 = (d - 8) / 8 + 1).
      { replace d with ((d - 8) + 1 * 8) at 1 by lia.
        now rewrite Z.div_add by lia. }
      assert (Em : d mod 8 = (d - 8) mod 8).
      { replace d with ((d - 8) + 1 * 8) at 1 by lia.
        now rewrite Z.mod_add by lia. }
      assert (Hq : 0 <= (d - 8) / 8) by (apply Z.div_pos; lia).
      rewrite Eq, Em.
      rewrite zeroBytes_cons by lia.
      replace ((d - 8) / 8 + 1 - 1) with ((d - 8) / 8) by lia.
      replace (Z.to_nat ((d - 8) / 8 + 1)) with (S (Z.to_nat ((d - 8) / 8)))
        by lia.
      cbn [nth].
      replace (8 * (L + 1) - d) with (8 * L - (d - 8)) by lia.
      specialize (IH (d - 8) ltac:(lia)).
      assert (Hle : 2 ^ (8 * L - (d - 8)) <= 2 ^ (8 * L))
        by (apply Z.pow_le_mono_r; lia).
      split.
      * intros [[-> Hz] Htop].
        apply IH. split; [exact Hz |]. intros Hp Hin. apply Htop; lia.
      * intros Hlt.
        assert (b = 0) as -> by nia.
        apply IH in Hlt. destruct Hlt as [Hz Htop].
        split; [split; [reflexivity | exact Hz] |].
        intros Hp Hin. apply Htop; lia.
Qed.

(** X6. For a digest of [n] bytes and a difficulty of at most [8 n] bits,
    the leading-zero-bit test passes exactly when the digest, read as a
    big-endian number, is below [2 ^ (8 n - difficulty)]: the usual
    proof-of-work target. *)
Theorem hasLeadingZeros_is_target (digest : list Z) (difficulty : Z) :
  isBytes digest ->
  0 <= difficulty <= 8 * Z.of_nat (length digest) ->
  ChallengeService.hasLeadingZeros digest difficulty = true <->
  bigEndianValue digest < 2 ^ (8 * Z.of_nat (length digest) - difficulty).
Proof.
  intros Hbytes Hd.
  rewrite hasLeadingZeros_iff by (assumption || lia).
  now apply leading_zeros_target.
Qed.

(** X7. A digest that passes the test at some difficulty passes it at
    every lower one, whatever its length. *)
Theorem hasLeadingZeros_monotone (digest : list Z) (d d' : Z) :
  isBytes digest ->
  0 <= d' <= d ->
  ChallengeService.hasLeadingZeros digest d = true ->
  ChallengeService.hasLeadingZeros digest d' = true.
Proof.
  intros Hbytes Hd.
  rewrite !hasLeadingZeros_iff by (assumption || lia).
  intros [Hz Htop].
  assert (Hq : d' / 8 <= d / 8) by (apply Z.div_le_mono; lia).
  split.
  - intros i Hi. apply Hz. lia.
  - intros Hpos Hin. destruct (Z.eq_dec (d' / 8) (d / 8)) as [E | E].
    + assert (Hr : d' mod 8 <= d mod 8).
      { pose proof (Z.div_mod d 8 ltac:(lia)).
        pose proof (Z.div_mod d' 8 ltac:(lia)). lia. }
      rewrite E in *. intros j Hj. apply Htop; lia.
    + assert (Hzero : nth_error digest (Z.to_nat (d' / 8)) = Some 0).
      { apply Hz. rewrite Z2Nat.id; [lia |]. apply Z.div_pos; lia. }
      rewrite (nth_error_nth _ _ 0 Hzero). intros j _. apply Z.bits_0.
Qed.

(** * Further properties of the standalone solver *)

Section PowLoopMore.

Import ChallengeService.

Variable P : Platform.
Variable challenge : TransactionChallenge.
Variable salt : list Z.

Let digestOf (c : Z) : option string :=
  argon2id P (argon2Options challenge salt c).

(** The events of one turn. *)
Let turnEvents (c : Z) : list Event :=
  EvArgon2id (argon2Options challenge salt c)
  :: (if (Z.rem c 10 =? 0) && (c >? 0) then [EvYield] else []).

Lemma attempt_miss_events (c : Z) (d : string) :
  digestOf c = Some d ->
  hasLeadingZeros (hexToBytes d) (difficulty challenge) = false ->
  attempt P challenge salt c = (inr None, turnEvents c).
Proof.
  intros Hd Hz. unfold attempt, digestOf, turnEvents in *. rewrite Hd.
  cbn [call bind tryCatch]. rewrite Hz.
  destruct ((Z.rem c 10 =? 0) && (c >? 0)); reflexivity.
Qed.

(** Whatever the primitive does, a solution that comes out of the loop
    is the first passing counter with its digest. *)
Lemma solveLoop_sound (turns : nat) (from : Z) (s : SolvedChallenge) :
  outcome (solveLoop P challenge salt turns from) = inr s ->
  exists c,
    from <= c < from + Z.of_nat turns
    /\ digestOf c = Some (hash s)
    /\ hasLeadingZeros (hexToBytes (hash s)) (difficulty challenge) = true
    /\ solution s = bytesToHex (be64 c)
    /\ solved_challenge_id s = challenge_id challenge
    /\ (forall c', from <= c' < c ->
          missesAt (digestOf c') (difficulty challenge)).
Proof.
  revert from. induction turns as [| turns IH]; intros from.
  - discriminate.
  - cbn [solveLoop]. unfold attempt.
    destruct (argon2id P (argon2Options challenge salt from)) as [d |] eqn:Hd;
      cbn [call bind tryCatch]; [| discriminate].
    destruct (hasLeadingZeros (hexToBytes d) (difficulty challenge)) eqn:Hz.
    + cbn. intros [= <-]. exists from. cbn.
      split; [lia |]. split; [exact Hd |]. split; [exact Hz |].
      split; [reflexivity |]. split; [reflexivity |]. intros c' Hc'. lia.
    + intros Hs.
      assert (Hrec : outcome (solveLoop P challenge salt turns (from + 1))
                     = inr s).
      { destruct ((Z.rem from 10 =? 0) && (from >? 0));
          destruct (solveLoop P challenge salt turns (from + 1)) as [r t];
          exact Hs. }
      destruct (IH (from + 1) Hrec) as [c [Hc [H1 [H2 [H3 [H4 H5]]]]]].
      exists c. split; [lia |]. split; [exact H1 |]. split; [exact H2 |].
      split; [exact H3 |]. split; [exact H4 |].
      intros c' Hc'. destruct (Z.eq_dec c' from) as [-> | Hne].
      * exists d. split; assumption.
      * apply H5. lia.
Qed.

(** The hashes of a run are those of the counters [from], [from + 1],
    ... without gap or repetition, at most one per turn. *)
Lemma solveLoop_calls (turns : nat) (from : Z) :
  exists k : nat,
    (k <= turns)%nat
    /\ argon2Calls (events (solveLoop P challenge salt turns from))
       = map (argon2Options challenge salt) (counters from k).
Proof.
  revert from. induction turns as [| turns IH]; intros from.
  - exists O. split; [lia | reflexivity].
  - cbn [solveLoop]. unfold attempt.
    destruct (argon2id P (argon2Options challenge salt from)) as [d |];
      cbn [call bind tryCatch].
    + destruct (hasLeadingZeros (hexToBytes d) (difficulty challenge)).
      * exists 1%nat. split; [lia |]. rewrite counters_S. reflexivity.
      * destruct (IH (from + 1)) as [k [Hk Hcalls]].
        exists (S k). split; [lia |]. rewrite counters_S. cbn [map].
        destruct ((Z.rem from 10 =? 0) && (from >? 0));
          destruct (solveLoop P challenge salt turns (from + 1)) as [r t];
          cbn in *; now rewrite Hcalls.
    + exists 1%nat. split; [lia |]. rewrite counters_S. reflexivity.
Qed.

(** The whole trace of a search that finds nothing. *)
Lemma solveLoop_exhausted_events (turns : nat) (from : Z) :
  (forall c, from <= c < from + Z.of_nat turns ->
     missesAt (digestOf c) (difficulty challenge)) ->
  solveLoop P challenge salt turns from
  = (inl (Thrown SOLVE_FAILED), flat_map turnEvents (counters from turns)).
Proof.
  revert from. induction turns as [| turns IH]; intros from Hmiss.
  - reflexivity.
  - cbn [solveLoop]. destruct (Hmiss from) as [d [Hd Hz]]; [lia |].
    rewrite (bind_value _ _ _ _ (attempt_miss_events from d Hd Hz)).
    rewrite IH by (intros; apply Hmiss; lia).
    rewrite counters_S. reflexivity.
Qed.

End PowLoopMore.

(** X8. Whatever the primitive does, a solution returned by the
    standalone solver is sound: the challenge had passed the expiry guard
    and its nonce decodes to 32 bytes; the solution is the hex of a counter
    below the bound; the returned hash is what [argon2id] answered for that
    counter, it passes the leading-zero-bit test at the challenge's
    difficulty, every smaller counter missed it, and the solution carries
    the challenge's id. *)
Theorem solveChallenge_sound
    (P : Platform) (ch : ChallengeService.TransactionChallenge)
    (maxAttempts : option Z) (s : ChallengeService.SolvedChallenge) :
  outcome (ChallengeService.solveChallenge P ch maxAttempts) = inr s ->
  Date_now P / 1000 <= ChallengeService.expires_at ch
  /\ length (ChallengeService.hexToBytes (ChallengeService.nonce ch)) = 32%nat
  /\ exists c,
       0 <= c < attemptsBound maxAttempts
       /\ powDigest P ch c = Some (ChallengeService.hash s)
       /\ ChallengeService.hasLeadingZeros
            (ChallengeService.hexToBytes (ChallengeService.hash s))
            (ChallengeService.difficulty ch) = true
       /\ ChallengeService.solution s = ChallengeService.bytesToHex (be64 c)
       /\ ChallengeService.solved_challenge_id s
          = ChallengeService.challenge_id ch
       /\ (forall c', 0 <= c' < c ->
             missesAt (powDigest P ch c') (ChallengeService.difficulty ch)).
Proof.
  unfold ChallengeService.solveChallenge. intros Hs.
  destruct (Z.ltb_spec (ChallengeService.expires_at ch) (Date_now P / 1000))
    as [Hexp | Hexp]; [discriminate |].
  destruct (Nat.eqb_spec
              (length (ChallengeService.hexToBytes (ChallengeService.nonce ch)))
              32) as [Hn | Hn]; [| discriminate].
  cbn [negb] in Hs. split; [exact Hexp |]. split; [exact Hn |].
  destruct (solveLoop_sound P ch _ _ _ s Hs)
    as [c [Hc [H1 [H2 [H3 [H4 H5]]]]]].
  exists c.
  split; [unfold attemptsBound;
          unfold ChallengeService.DEFAULT_MAX_ATTEMPTS in Hc;
          destruct maxAttempts; lia |].
  split; [exact H1 |]. split; [exact H2 |].
  split; [exact H3 |]. split; [exact H4 |].
  intros c' Hc'. apply H5. lia.
Qed.

(** X9. Whatever the primitive does and however the run ends, the
    standalone solver calls [argon2id] for the counters 0, 1, 2, ... in
    order, without gap or repetition, and never more than [maxAttempts]
    times (not at all for a negative bound). *)
Theorem solveChallenge_work_is_bounded
    (P : Platform) (ch : ChallengeService.TransactionChallenge)
    (maxAttempts : option Z) :
  exists k : nat,
    (k <= Z.to_nat (attemptsBound maxAttempts))%nat
    /\ argon2Calls (events (ChallengeService.solveChallenge P ch maxAttempts))
       = map (powOptions (ChallengeService.nonce ch)
                (ChallengeService.memory_cost ch)
                (ChallengeService.time_cost ch))
             (counters 0 k).
Proof.
  unfold ChallengeService.solveChallenge.
  destruct (ChallengeService.expires_at ch <? Date_now P / 1000);
    [exists O; split; [lia | reflexivity] |].
  destruct (negb _); [exists O; split; [lia | reflexivity] |].
  apply (solveLoop_calls P ch).
Qed.

(** X10. The standalone solver fails with [INVALID] exactly when the
    challenge passes the expiry guard and its nonce does not decode to 32
    bytes; it has then called no primitive. *)
Theorem solveChallenge_invalid_iff
    (P : Platform) (ch : ChallengeService.TransactionChallenge)
    (maxAttempts : option Z) :
  (powErrorName (ChallengeService.solveChallenge P ch maxAttempts)
   = Some "INVALID"
   <-> Date_now P / 1000 <= ChallengeService.expires_at ch
       /\ length (ChallengeService.hexToBytes (ChallengeService.nonce ch))
          <> 32%nat)
  /\ (powErrorName (ChallengeService.solveChallenge P ch maxAttempts)
      = Some "INVALID" ->
      events (ChallengeService.solveChallenge P ch maxAttempts) = []).
Proof.
  assert (Hiff : powErrorName (ChallengeService.solveChallenge P ch maxAttempts)
                 = Some "INVALID"
                 <-> Date_now P / 1000 <= ChallengeService.expires_at ch
                     /\ length (ChallengeService.hexToBytes
                                  (ChallengeService.nonce ch)) <> 32%nat).
  { split.
    - unfold powErrorName, ChallengeService.solveChallenge.
      destruct (Z.ltb_spec (ChallengeService.expires_at ch)
                  (Date_now P / 1000)) as [Hexp | Hexp]; [discriminate |].
      destruct (Nat.eqb_spec
                  (length (ChallengeService.hexToBytes
                             (ChallengeService.nonce ch))) 32)
        as [Hn | Hn]; cbn [negb]; [| intros _; split; assumption].
      destruct (outcome (ChallengeService.solveLoop P ch _ _ 0))
        as [e | r] eqn:E; [| discriminate].
      destruct (solveLoop_throws P ch _ _ _ e E) as [-> | ->]; discriminate.
    - intros [Hexp Hn]. unfold powErrorName.
      now rewrite solveChallenge_invalid_nonce. }
  split; [exact Hiff |].
  intros H. apply Hiff in H. destruct H as [Hexp Hn].
  now rewrite solveChallenge_invalid_nonce.
Qed.

(** X11. In a search that finds nothing, the standalone solver hands
    over to the scheduler exactly after the missed attempts whose counter
    is a positive multiple of 10: its trace is, for each counter below the
    bound in turn, the hash and then, for those counters, one yield. *)
Theorem solveChallenge_yields
    (P : Platform) (ch : ChallengeService.TransactionChallenge)
    (maxAttempts : option Z) :
  Date_now P / 1000 <= ChallengeService.expires_at ch ->
  length (ChallengeService.hexToBytes (ChallengeService.nonce ch)) = 32%nat ->
  (forall c, 0 <= c < attemptsBound maxAttempts ->
     missesAt (powDigest P ch c) (ChallengeService.difficulty ch)) ->
  events (ChallengeService.solveChallenge P ch maxAttempts)
  = flat_map
      (fun c =>
         EvArgon2id (powOptions (ChallengeService.nonce ch)
                       (ChallengeService.memory_cost ch)
                       (ChallengeService.time_cost ch) c)
         :: (if (Z.rem c 10 =? 0) && (c >? 0) then [EvYield] else []))
      (counters 0 (Z.to_nat (attemptsBound maxAttempts))).
Proof.
  intros Hexp Hn Hmiss. rewrite solveChallenge_loop by assumption.
  rewrite solveLoop_exhausted_events; [reflexivity |].
  intros c Hc. apply Hmiss. lia.
Qed.

(** * Further properties of the NUW solver *)

Section NuwPowLoopMore.

Import NuwChallengeService.

Variable P : Platform.
Variable challenge : NuwChallenge.
Variable params : Argon2Params.
Variable salt : list Z.

Let digestOf (c : Z) : option string :=
  argon2id P (argon2Options params salt c).

Let solved (c : Z) : NuwSolution :=
  {| sol_challenge_id := challenge_id challenge;
     sol_challenge_type := ARGON2_POW;
     argon2_solution := Some (bytesToHex (be64 c));
     signature_results := None;
     zk_result := None;
     merkle_results := None |}.

Let turnEvents (c : Z) : list Event :=
  EvArgon2id (argon2Options params salt c)
  :: (if Z.rem c 10 =? 0 then [EvYield] else []).

Lemma nuw_attempt_miss_events (c : Z) (d : string) :
  digestOf c = Some d ->
  hasLeadingZeros (hexToBytes d) (difficulty params) = false ->
  attempt P challenge params salt c = (inr None, turnEvents c).
Proof.
  intros Hd Hz. unfold attempt, digestOf, turnEvents in *. rewrite Hd.
  cbn [call bind tryCatch]. rewrite Hz.
  destruct (Z.rem c 10 =? 0); reflexivity.
Qed.

Lemma nuw_solveLoop_sound (turns : nat) (from : Z) (s : NuwSolution) :
  outcome (solveLoop P challenge params salt turns from) = inr s ->
  exists c d,
    from <= c < from + Z.of_nat turns
    /\ s = solved c
    /\ digestOf c = Some d
    /\ hasLeadingZeros (hexToBytes d) (difficulty params) = true
    /\ (forall c', from <= c' < c ->
          missesAt (digestOf c') (difficulty params)).
Proof.
  revert from. induction turns as [| turns IH]; intros from.
  - discriminate.
  - cbn [solveLoop]. unfold attempt.
    destruct (argon2id P (argon2Options params salt from)) as [d |] eqn:Hd;
      cbn [call bind tryCatch]; [| discriminate].
    destruct (hasLeadingZeros (hexToBytes d) (difficulty params)) eqn:Hz.
    + cbn. intros [= <-]. exists from, d.
      split; [lia |]. split; [reflexivity |]. split; [exact Hd |].
      split; [exact Hz |]. intros c' Hc'. lia.
    + intros Hs.
      assert (Hrec : outcome (solveLoop P challenge params salt turns
                                (from + 1)) = inr s).
      { destruct (Z.rem from 10 =? 0);
          destruct (solveLoop P challenge params salt turns (from + 1))
            as [r t]; exact Hs. }
      destruct (IH (from + 1) Hrec) as [c [d' [Hc [H1 [H2 [H3 H4]]]]]].
      exists c, d'. split; [lia |]. split; [exact H1 |].
      split; [exact H2 |]. split; [exact H3 |].
      intros c' Hc'. destruct (Z.eq_dec c' from) as [-> | Hne].
      * exists d. split; assumption.
      * apply H4. lia.
Qed.

Lemma nuw_solveLoop_calls (turns : nat) (from : Z) :
  exists k : nat,
    (k <= turns)%nat
    /\ argon2Calls (events (solveLoop P challenge params salt turns from))
       = map (argon2Options params salt) (counters from k).
Proof.
  revert from. induction turns as [| turns IH]; intros from.
  - exists O. split; [lia | reflexivity].
  - cbn [solveLoop]. unfold attempt.
    destruct (argon2id P (argon2Options params salt from)) as [d |];
      cbn [call bind tryCatch].
    + destruct (hasLeadingZeros (hexToBytes d) (difficulty params)).
      * exists 1%nat. split; [lia |]. rewrite counters_S. reflexivity.
      * destruct (IH (from + 1)) as [k [Hk Hcalls]].
        exists (S k). split; [lia |]. rewrite counters_S. cbn [map].
        destruct (Z.rem from 10 =? 0);
          destruct (solveLoop P challenge params salt turns (from + 1))
            as [r t]; cbn in *; now rewrite Hcalls.
    + exists 1%nat. split; [lia |]. rewrite counters_S. reflexivity.
Qed.

Lemma nuw_solveLoop_exhausted_events (turns : nat) (from : Z) :
  (forall c, from <= c < from + Z.of_nat turns ->
     missesAt (digestOf c) (difficulty params)) ->
  solveLoop P challenge params salt turns from
  = (inl (Thrown SOLVE_FAILED), flat_map turnEvents (counters from turns)).
Proof.
  revert from. induction turns as [| turns IH]; intros from Hmiss.
  - reflexivity.
  - cbn [solveLoop]. destruct (Hmiss from) as [d [Hd Hz]]; [lia |].
    rewrite (bind_value _ _ _ _ (nuw_attempt_miss_events from d Hd Hz)).
    rewrite IH by (intros; apply Hmiss; lia).
    rewrite counters_S. reflexivity.
Qed.

End NuwPowLoopMore.

Lemma nuw_pow_dispatch (P : Platform)
    (ch : NuwChallengeService.NuwChallenge)
    (params : NuwChallengeService.Argon2Params) :
  Date_now P / 1000 <= NuwChallengeService.expires_at ch ->
  NuwChallengeService.challenge_type ch = NuwChallengeService.ARGON2_POW
  \/ NuwChallengeService.challenge_type ch = NuwChallengeService.PQ_ASSIST ->
  NuwChallengeService.argon2_params ch = Some params ->
  NuwChallengeService.solveChallenge P ch
  = NuwChallengeService.solveLoop P ch params
      (NuwChallengeService.hexToBytes (NuwChallengeService.nonce params))
      (Z.to_nat NuwChallengeService.MAX_ATTEMPTS) 0.
Proof.
  intros Hexp Htype Hparams.
  rewrite nuw_solveChallenge_dispatch by exact Hexp.
  assert (E : NuwChallengeService.solveArgon2 P ch
              = NuwChallengeService.solveLoop P ch params
                  (NuwChallengeService.hexToBytes
                     (NuwChallengeService.nonce params))
                  (Z.to_nat NuwChallengeService.MAX_ATTEMPTS) 0).
  { unfold NuwChallengeService.solveArgon2. now rewrite Hparams. }
  destruct Htype as [-> | ->]; exact E.
Qed.

(** X12. For an unexpired NUW challenge of type [ARGON2_POW] or
    [PQ_ASSIST] that carries its Argon2 parameters, the dispatcher
    searches the counters below 10,000 with the parameters of the payload
    and the decoded nonce as salt, whatever its length. It returns the
    first counter whose digest passes, as the hex of its 8 bytes and
    without the digest, under the type [ARGON2_POW]; when all 10,000 miss
    it fails with [SOLVE_FAILED]. *)
Theorem nuw_pow_search
    (P : Platform) (ch : NuwChallengeService.NuwChallenge)
    (params : NuwChallengeService.Argon2Params) :
  Date_now P / 1000 <= NuwChallengeService.expires_at ch ->
  NuwChallengeService.challenge_type ch = NuwChallengeService.ARGON2_POW
  \/ NuwChallengeService.challenge_type ch = NuwChallengeService.PQ_ASSIST ->
  NuwChallengeService.argon2_params ch = Some params ->
  (forall c d,
     0 <= c < 10000 ->
     argon2id P (powOptions (NuwChallengeService.nonce params)
                   (NuwChallengeService.memory_cost params)
                   (NuwChallengeService.time_cost params) c) = Some d ->
     NuwChallengeService.hasLeadingZeros (NuwChallengeService.hexToBytes d)
       (NuwChallengeService.difficulty params) = true ->
     (forall c', 0 <= c' < c ->
        missesAt
          (argon2id P (powOptions (NuwChallengeService.nonce params)
                         (NuwChallengeService.memory_cost params)
                         (NuwChallengeService.time_cost params) c'))
          (NuwChallengeService.difficulty params)) ->
     outcome (NuwChallengeService.solveChallenge P ch)
     = inr {| NuwChallengeService.sol_challenge_id :=
                NuwChallengeService.challenge_id ch;
              NuwChallengeService.sol_challenge_type :=
                NuwChallengeService.ARGON2_POW;
              NuwChallengeService.argon2_solution :=
                Some (NuwChallengeService.bytesToHex (be64 c));
              NuwChallengeService.signature_results := None;
              NuwChallengeService.zk_result := None;
              NuwChallengeService.merkle_results := None |})
  /\ ((forall c, 0 <= c < 10000 ->
         missesAt
           (argon2id P (powOptions (NuwChallengeService.nonce params)
                          (NuwChallengeService.memory_cost params)
                          (NuwChallengeService.time_cost params) c))
           (NuwChallengeService.difficulty params)) ->
      outcome (NuwChallengeService.solveChallenge P ch)
      = inl (Thrown NuwChallengeService.SOLVE_FAILED)).
Proof.
  intros Hexp Htype Hparams.
  rewrite (nuw_pow_dispatch P ch params Hexp Htype Hparams). split.
  - intros c d Hc Hd Hz Hmiss.
    apply (nuw_solveLoop_found P ch params _ _ 0 c d);
      [unfold NuwChallengeService.MAX_ATTEMPTS; lia | exact Hd | exact Hz
      | exact Hmiss].
  - intros Hmiss. rewrite nuw_solveLoop_exhausted_events; [reflexivity |].
    intros c Hc. apply Hmiss. unfold NuwChallengeService.MAX_ATTEMPTS in Hc.
    lia.
Qed.

(** X13. Whatever the primitive does, a solution the dispatcher returns
    for an [ARGON2_POW] or [PQ_ASSIST] challenge is the hex of the first
    counter below 10,000 whose digest passes the test at the payload's
    difficulty; and however the run ends, [argon2id] is called for the
    counters 0, 1, 2, ... in order and at most 10,000 times. *)
Theorem nuw_pow_sound
    (P : Platform) (ch : NuwChallengeService.NuwChallenge)
    (params : NuwChallengeService.Argon2Params) :
  Date_now P / 1000 <= NuwChallengeService.expires_at ch ->
  NuwChallengeService.challenge_type ch = NuwChallengeService.ARGON2_POW
  \/ NuwChallengeService.challenge_type ch = NuwChallengeService.PQ_ASSIST ->
  NuwChallengeService.argon2_params ch = Some params ->
  (forall s,
     outcome (NuwChallengeService.solveChallenge P ch) = inr s ->
     exists c d,
       0 <= c < 10000
       /\ NuwChallengeService.argon2_solution s
          = Some (NuwChallengeService.bytesToHex (be64 c))
       /\ argon2id P (powOptions (NuwChallengeService.nonce params)
                        (NuwChallengeService.memory_cost params)
                        (NuwChallengeService.time_cost params) c) = Some d
       /\ NuwChallengeService.hasLeadingZeros
            (NuwChallengeService.hexToBytes d)
            (NuwChallengeService.difficulty params) = true
       /\ (forall c', 0 <= c' < c ->
             missesAt
               (argon2id P (powOptions (NuwChallengeService.nonce params)
                              (NuwChallengeService.memory_cost params)
                              (NuwChallengeService.time_cost params) c'))
               (NuwChallengeService.difficulty params)))
  /\ exists k : nat,
       Z.of_nat k <= 10000
       /\ argon2Calls (events (NuwChallengeService.solveChallenge P ch))
          = map (powOptions (NuwChallengeService.nonce params)
                   (NuwChallengeService.memory_cost params)
                   (NuwChallengeService.time_cost params))
                (counters 0 k).
Proof.
  intros Hexp Htype Hparams.
  rewrite (nuw_pow_dispatch P ch params Hexp Htype Hparams). split.
  - intros s Hs.
    destruct (nuw_solveLoop_sound P ch params _ _ _ s Hs)
      as [c [d [Hc [-> [Hd [Hz Hmiss]]]]]].
    exists c, d. unfold NuwChallengeService.MAX_ATTEMPTS in Hc.
    split; [lia |]. split; [reflexivity |]. split; [exact Hd |].
    split; [exact Hz |]. intros c' Hc'. apply Hmiss. lia.
  - destruct (nuw_solveLoop_calls P ch params
                (NuwChallengeService.hexToBytes
                   (NuwChallengeService.nonce params))
                (Z.to_nat NuwChallengeService.MAX_ATTEMPTS) 0)
      as [k [Hk Hcalls]].
    exists k. unfold NuwChallengeService.MAX_ATTEMPTS in Hk.
    split; [lia | exact Hcalls].
Qed.

(** X14. In a search that finds nothing, the NUW solver hands over to
    the scheduler after every missed attempt whose counter is a multiple
    of 10, counter 0 included (the standalone solver skips counter 0):
    its trace is, for each counter below 10,000 in turn, the hash and
    then, for those counters, one yield. *)
Theorem nuw_pow_yields
    (P : Platform) (ch : NuwChallengeService.NuwChallenge)
    (params : NuwChallengeService.Argon2Params) :
  Date_now P / 1000 <= NuwChallengeService.expires_at ch ->
  NuwChallengeService.challenge_type ch = NuwChallengeService.ARGON2_POW
  \/ NuwChallengeService.challenge_type ch = NuwChallengeService.PQ_ASSIST ->
  NuwChallengeService.argon2_params ch = Some params ->
  (forall c, 0 <= c < 10000 ->
     missesAt
       (argon2id P (powOptions (NuwChallengeService.nonce params)
                      (NuwChallengeService.memory_cost params)
                      (NuwChallengeService.time_cost params) c))
       (NuwChallengeService.difficulty params)) ->
  events (NuwChallengeService.solveChallenge P ch)
  = flat_map
      (fun c =>
         EvArgon2id (powOptions (NuwChallengeService.nonce params)
                       (NuwChallengeService.memory_cost params)
                       (NuwChallengeService.time_cost params) c)
         :: (if Z.rem c 10 =? 0 then [EvYield] else []))
      (counters 0 (Z.to_nat 10000)).
Proof.
  intros Hexp Htype Hparams Hmiss.
  rewrite (nuw_pow_dispatch P ch params Hexp Htype Hparams).
  rewrite nuw_solveLoop_exhausted_events; [reflexivity |].
  intros c Hc. apply Hmiss. unfold NuwChallengeService.MAX_ATTEMPTS in Hc.
  lia.
Qed.

(** * Further properties of the dispatcher *)

Section DispatcherMore.

Import NuwChallengeService.

Variable P : Platform.

Lemma verifySignature_events (sig : PendingSignature) :
  events (verifyItem P sig) = itemEvents P sig.
Proof.
  unfold verifyItem, verifySignature, itemEvents.
  destruct (algorithm sig); [| reflexivity].
  destruct (subtle_importKey P (hexToBytes (public_key sig))) as [key |];
    [| reflexivity].
  cbn [call bind tryCatch].
  destruct (subtle_verify P key (hexToBytes (signature sig))
              (hexToBytes (message sig))); reflexivity.
Qed.

Lemma verifyItems_events (batch : list PendingSignature)
    (results : list SignatureResult) :
  events (verifyItems P batch results) = flat_map (itemEvents P) batch.
Proof.
  revert results. induction batch as [| sig rest IH]; intros results.
  - reflexivity.
  - cbn [verifyItems flat_map].
    pose proof (verifyItem_outcome P sig) as Ho.
    pose proof (verifySignature_events sig) as He.
    destruct (verifyItem P sig) as [r t]. cbn in Ho, He. subst r t.
    cbn [bind]. specialize (IH (results ++ [expectedResult P sig])).
    destruct (verifyItems P rest (results ++ [expectedResult P sig]))
      as [r' t'].
    cbn in *. now rewrite IH.
Qed.

Lemma merkleLoop_events (proofHex : list string) (index i : Z)
    (current : list Z) (final : list Z) :
  outcome (merkleLoop P proofHex index i current) = inr final ->
  length (events (merkleLoop P proofHex index i current)) = length proofHex
  /\ Forall (fun e => exists data, e = EvDigest data)
            (events (merkleLoop P proofHex index i current)).
Proof.
  revert i current. induction proofHex as [| h rest IH]; intros i current.
  - intros _. split; [reflexivity | constructor].
  - cbn [merkleLoop].
    destruct (combine _ current (hexToBytes h)) as [combined |];
      cbn [fromOption digestSha256 bind]; [| discriminate].
    specialize (IH (i + 1) (subtle_digest P combined)).
    destruct (merkleLoop P rest index (i + 1) _) as [r t].
    cbn in *. intros Hr. destruct (IH Hr) as [Hlen Hall].
    split; [now rewrite Hlen |].
    constructor; [now exists combined | exact Hall].
Qed.

Hypothesis digest_length : forall data, length (subtle_digest P data) = 32%nat.

Lemma verifyProofs_shallow (tasks : list MerkleProofTask)
    (results : list MerkleResult) :
  Forall shallowTask tasks ->
  outcome (verifyProofs P tasks results)
  = inr (results ++ map (expectedMerkleResult (subtle_digest P)) tasks).
Proof.
  revert results. induction tasks as [| task rest IH]; intros results Hall.
  - cbn. now rewrite app_nil_r.
  - inversion Hall as [| ? ? [Hleaf [Hproof Hdepth]] Hrest]; subst.
    cbn [verifyProofs map].
    pose proof (verifyMerkleProof_shallow P task digest_length Hleaf Hproof
                  Hdepth) as Hv.
    destruct (verifyMerkleProof P (root task) (leaf task) (proof task)
                (index task)) as [r t].
    cbn in Hv. subst r. cbn [bind].
    match goal with
    | |- context [verifyProofs P rest ?rs] =>
        specialize (IH rs Hrest); destruct (verifyProofs P rest rs) as [r' t']
    end.
    cbn in *. rewrite IH, <- app_assoc. reflexivity.
Qed.

End DispatcherMore.

Lemma nuw_solution_shape
    (P : Platform) (ch : NuwChallengeService.NuwChallenge)
    (sol : NuwChallengeService.NuwSolution) :
  outcome (NuwChallengeService.solveChallenge P ch) = inr sol ->
  NuwChallengeService.sol_challenge_id sol = NuwChallengeService.challenge_id ch
  /\ onePayload sol
  /\ NuwChallengeService.sol_challenge_type sol
     = match NuwChallengeService.challenge_type ch with
       | NuwChallengeService.PQ_ASSIST => NuwChallengeService.ARGON2_POW
       | t => t
       end.
Proof.
  unfold NuwChallengeService.solveChallenge.
  destruct (NuwChallengeService.expires_at ch <? Date_now P / 1000);
    [discriminate |].
  destruct (NuwChallengeService.challenge_type ch).
  - unfold NuwChallengeService.solveArgon2.
    destruct (NuwChallengeService.argon2_params ch) as [params |];
      [| discriminate].
    destruct (nuw_solveLoop_cases P ch params
                (NuwChallengeService.hexToBytes
                   (NuwChallengeService.nonce params))
                (Z.to_nat NuwChallengeService.MAX_ATTEMPTS) 0)
      as [[c ->] | ->]; [| discriminate].
    intros [= <-]. cbn.
    split; [reflexivity |]. split; [| reflexivity].
    split; [discriminate |]. split; [reflexivity |]. split; reflexivity.
  - unfold NuwChallengeService.solveSignatureBatch.
    destruct (NuwChallengeService.signature_batch ch) as [[| sig rest] |];
      try discriminate.
    pose proof (verifyItems_outcome P (sig :: rest) []) as Hv.
    destruct (NuwChallengeService.verifyItems P (sig :: rest) []) as [r t].
    cbn in Hv. subst r. cbn. intros [= <-]. cbn.
    split; [reflexivity |]. split; [| reflexivity].
    split; [reflexivity |]. split; [discriminate |]. split; reflexivity.
  - unfold NuwChallengeService.solveZkVerify.
    destruct (NuwChallengeService.zk_proof ch); [| discriminate].
    cbn. intros [= <-]. cbn.
    split; [reflexivity |]. split; [| reflexivity].
    split; [reflexivity |]. split; [reflexivity |].
    split; [discriminate | reflexivity].
  - unfold NuwChallengeService.solveArgon2.
    destruct (NuwChallengeService.argon2_params ch) as [params |];
      [| discriminate].
    destruct (nuw_solveLoop_cases P ch params
                (NuwChallengeService.hexToBytes
                   (NuwChallengeService.nonce params))
                (Z.to_nat NuwChallengeService.MAX_ATTEMPTS) 0)
      as [[c ->] | ->]; [| discriminate].
    intros [= <-]. cbn.
    split; [reflexivity |]. split; [| reflexivity].
    split; [discriminate |]. split; [reflexivity |]. split; reflexivity.
  - unfold NuwChallengeService.solveMerkleVerify.
    destruct (NuwChallengeService.merkle_proofs ch) as [[| task rest] |];
      try discriminate.
    destruct (NuwChallengeService.verifyProofs P (task :: rest) [])
      as [[e | r] t]; [discriminate |].
    cbn. intros [= <-]. cbn.
    split; [reflexivity |]. split; [| reflexivity].
    split; [reflexivity |]. split; [reflexivity |].
    split; [reflexivity | discriminate].
  - discriminate.
Qed.

(** X15. Every solution the dispatcher returns carries the id of the
    challenge it was given and the payload of its own type and no other;
    its type is the challenge's type, except that a [PQ_ASSIST] challenge
    is answered under [ARGON2_POW]. *)
Theorem solution_matches_challenge
    (P : Platform) (ch : NuwChallengeService.NuwChallenge)
    (sol : NuwChallengeService.NuwSolution) :
  outcome (NuwChallengeService.solveChallenge P ch) = inr sol ->
  NuwChallengeService.sol_challenge_id sol = NuwChallengeService.challenge_id ch
  /\ onePayload sol
  /\ NuwChallengeService.sol_challenge_type sol
     = match NuwChallengeService.challenge_type ch with
       | NuwChallengeService.PQ_ASSIST => NuwChallengeService.ARGON2_POW
       | t => t
       end.
Proof. exact (nuw_solution_shape P ch sol). Qed.

Lemma nuw_failure_cases
    (P : Platform) (ch : NuwChallengeService.NuwChallenge)
    (e : Exn NuwChallengeService.ErrorCode) :
  outcome (NuwChallengeService.solveChallenge P ch) = inl e ->
  (e = Thrown NuwChallengeService.EXPIRED
   /\ NuwChallengeService.expires_at ch < Date_now P / 1000)
  \/ (e = Thrown NuwChallengeService.INVALID
      /\ Date_now P / 1000 <= NuwChallengeService.expires_at ch
      /\ payloadMissing ch)
  \/ (e = Thrown NuwChallengeService.SOLVE_FAILED
      /\ (NuwChallengeService.challenge_type ch
          = NuwChallengeService.ARGON2_POW
          \/ NuwChallengeService.challenge_type ch
             = NuwChallengeService.PQ_ASSIST))
  \/ (e = Thrown NuwChallengeService.UNSUPPORTED_TYPE
      /\ exists tag,
           NuwChallengeService.challenge_type ch
           = NuwChallengeService.UNKNOWN tag)
  \/ (e = PlatformError
      /\ NuwChallengeService.challenge_type ch
         = NuwChallengeService.MERKLE_VERIFY).
Proof.
  unfold NuwChallengeService.solveChallenge, payloadMissing.
  destruct (Z.ltb_spec (NuwChallengeService.expires_at ch) (Date_now P / 1000))
    as [Hexp | Hexp].
  - intros [= <-]. left. split; [reflexivity | exact Hexp].
  - destruct (NuwChallengeService.challenge_type ch) as [| | | | | tag].
    + unfold NuwChallengeService.solveArgon2.
      destruct (NuwChallengeService.argon2_params ch) as [params |].
      * destruct (nuw_solveLoop_cases P ch params
                    (NuwChallengeService.hexToBytes
                       (NuwChallengeService.nonce params))
                    (Z.to_nat NuwChallengeService.MAX_ATTEMPTS) 0)
          as [[c ->] | ->]; [discriminate |].
        intros [= <-]. right. right. left. split; [reflexivity | now left].
      * intros [= <-]. right. left.
        split; [reflexivity |]. split; [exact Hexp | reflexivity].
    + unfold NuwChallengeService.solveSignatureBatch.
      destruct (NuwChallengeService.signature_batch ch) as [[| sig rest] |].
      * intros [= <-]. right. left.
        split; [reflexivity |]. split; [exact Hexp | now right].
      * pose proof (verifyItems_outcome P (sig :: rest) []) as Hv.
        destruct (NuwChallengeService.verifyItems P (sig :: rest) [])
          as [r t].
        cbn in Hv. subst r. discriminate.
      * intros [= <-]. right. left.
        split; [reflexivity |]. split; [exact Hexp | now left].
    + unfold NuwChallengeService.solveZkVerify.
      destruct (NuwChallengeService.zk_proof ch); [discriminate |].
      intros [= <-]. right. left.
      split; [reflexivity |]. split; [exact Hexp | reflexivity].
    + unfold NuwChallengeService.solveArgon2.
      destruct (NuwChallengeService.argon2_params ch) as [params |].
      * destruct (nuw_solveLoop_cases P ch params
                    (NuwChallengeService.hexToBytes
                       (NuwChallengeService.nonce params))
                    (Z.to_nat NuwChallengeService.MAX_ATTEMPTS) 0)
          as [[c ->] | ->]; [discriminate |].
        intros [= <-]. right. right. left. split; [reflexivity | now right].
      * intros [= <-]. right. left.
        split; [reflexivity |]. split; [exact Hexp | reflexivity].
    + unfold NuwChallengeService.solveMerkleVerify.
      destruct (NuwChallengeService.merkle_proofs ch) as [[| task rest] |].
      * intros [= <-]. right. left.
        split; [reflexivity |]. split; [exact Hexp | now right].
      * pose proof (verifyProofs_throws P (task :: rest) []) as Hv.
        destruct (NuwChallengeService.verifyProofs P (task :: rest) [])
          as [[e' | r] t]; [| discriminate].
        cbn in Hv. rewrite (Hv e' eq_refl). intros [= <-].
        right. right. right. right. split; reflexivity.
      * intros [= <-]. right. left.
        split; [reflexivity |]. split; [exact Hexp | now left].
    + intros [= <-]. right. right. right. left.
      split; [reflexivity | now exists tag].
Qed.

(** X16. The dispatcher fails in five ways only: [EXPIRED] for a
    challenge past the guard's limit; [INVALID] for an unexpired
    challenge whose payload is missing; [SOLVE_FAILED] on the
    [ARGON2_POW] and [PQ_ASSIST] path; [UNSUPPORTED_TYPE] for a type
    outside the enum; and, only for [MERKLE_VERIFY], an exception that is
    not an error of the service. It never reports [FETCH_FAILED] or
    [WASM_UNAVAILABLE]. *)
Theorem dispatcher_failures
    (P : Platform) (ch : NuwChallengeService.NuwChallenge)
    (e : Exn NuwChallengeService.ErrorCode) :
  outcome (NuwChallengeService.solveChallenge P ch) = inl e ->
  (e = Thrown NuwChallengeService.EXPIRED
   /\ NuwChallengeService.expires_at ch < Date_now P / 1000)
  \/ (e = Thrown NuwChallengeService.INVALID
      /\ Date_now P / 1000 <= NuwChallengeService.expires_at ch
      /\ payloadMissing ch)
  \/ (e = Thrown NuwChallengeService.SOLVE_FAILED
      /\ (NuwChallengeService.challenge_type ch
          = NuwChallengeService.ARGON2_POW
          \/ NuwChallengeService.challenge_type ch
             = NuwChallengeService.PQ_ASSIST))
  \/ (e = Thrown NuwChallengeService.UNSUPPORTED_TYPE
      /\ exists tag,
           NuwChallengeService.challenge_type ch
           = NuwChallengeService.UNKNOWN tag)
  \/ (e = PlatformError
      /\ NuwChallengeService.challenge_type ch
         = NuwChallengeService.MERKLE_VERIFY).
Proof. exact (nuw_failure_cases P ch e). Qed.

(** X17. On a non-empty batch the signature verifier imports a key and,
    when the import succeeds, verifies once for each [ed25519] item, in
    the order of the batch; it calls no primitive for a [dilithium2] item;
    and it yields to the scheduler once after every item. *)
Theorem solveSignatureBatch_trace
    (P : Platform) (challenge : NuwChallengeService.NuwChallenge)
    (batch : list NuwChallengeService.PendingSignature) :
  NuwChallengeService.signature_batch challenge = Some batch ->
  batch <> [] ->
  events (NuwChallengeService.solveSignatureBatch P challenge)
  = flat_map (itemEvents P) batch.
Proof.
  intros Hb Hne. unfold NuwChallengeService.solveSignatureBatch. rewrite Hb.
  destruct batch as [| sig rest]; [contradiction |].
  pose proof (verifyItems_events P (sig :: rest) []) as He.
  destruct (NuwChallengeService.verifyItems P (sig :: rest) [])
    as [[e | r] t]; cbn in *; [exact He |].
  now rewrite app_nil_r.
Qed.

(** X18. On a task with a 32-byte leaf, 32-byte siblings and at most 32
    levels, whatever the root, [verifyMerkleProof] answers with a value:
    [true] exactly when folding the path from the leaf, sibling first
    where bit [i] of the index is 1, ends in the decoded root. It hashes
    once per level and calls nothing else. *)
Theorem verifyMerkleProof_shallow_tasks
    (P : Platform) (task : NuwChallengeService.MerkleProofTask) :
  (forall data, length (subtle_digest P data) = 32%nat) ->
  shallowTask task ->
  outcome (NuwChallengeService.verifyMerkleProof P
             (NuwChallengeService.root task) (NuwChallengeService.leaf task)
             (NuwChallengeService.proof task) (NuwChallengeService.index task))
  = inr (merkleValid (subtle_digest P) task)
  /\ (merkleValid (subtle_digest P) task = true <->
      merkleFold (subtle_digest P)
        (map NuwChallengeService.hexToBytes (NuwChallengeService.proof task))
        (NuwChallengeService.index task) 0
        (NuwChallengeService.hexToBytes (NuwChallengeService.leaf task))
      = NuwChallengeService.hexToBytes (NuwChallengeService.root task))
  /\ length (events (NuwChallengeService.verifyMerkleProof P
                       (NuwChallengeService.root task)
                       (NuwChallengeService.leaf task)
                       (NuwChallengeService.proof task)
                       (NuwChallengeService.index task)))
     = length (NuwChallengeService.proof task)
  /\ Forall (fun e => exists data, e = EvDigest data)
            (events (NuwChallengeService.verifyMerkleProof P
                       (NuwChallengeService.root task)
                       (NuwChallengeService.leaf task)
                       (NuwChallengeService.proof task)
                       (NuwChallengeService.index task))).
Proof.
  intros Hd [Hleaf [Hproof Hdepth]].
  split; [now apply verifyMerkleProof_shallow |].
  split.
  - unfold merkleValid. destruct (list_eq_dec Z.eq_dec _ _) as [E | E].
    + split; [intros _; exact E | reflexivity].
    + split; [discriminate | contradiction].
  - unfold NuwChallengeService.verifyMerkleProof.
    pose proof (merkleLoop_shallow P Hd (NuwChallengeService.proof task)
                  (NuwChallengeService.index task) 0 _ Hleaf Hproof
                  ltac:(lia) ltac:(lia)) as Hrun.
    pose proof (merkleLoop_events P (NuwChallengeService.proof task)
                  (NuwChallengeService.index task) 0 _ _ Hrun) as [Hlen Hall].
    destruct (NuwChallengeService.merkleLoop P _ _ 0 _) as [[e | r] t];
      [discriminate |].
    cbn in *. rewrite app_nil_r. split; assumption.
Qed.

(** X19. For an unexpired [MERKLE_VERIFY] challenge with a non-empty list
    of tasks, each with a 32-byte leaf, 32-byte siblings and at most 32
    levels, the dispatcher returns one [{index, valid}] per task, in the
    order of the list, with the task's own index and the verdict of the
    fold of the specification. *)
Theorem solveMerkleVerify_results
    (P : Platform) (ch : NuwChallengeService.NuwChallenge)
    (tasks : list NuwChallengeService.MerkleProofTask) :
  (forall data, length (subtle_digest P data) = 32%nat) ->
  Date_now P / 1000 <= NuwChallengeService.expires_at ch ->
  NuwChallengeService.challenge_type ch = NuwChallengeService.MERKLE_VERIFY ->
  NuwChallengeService.merkle_proofs ch = Some tasks ->
  tasks <> [] ->
  Forall shallowTask tasks ->
  outcome (NuwChallengeService.solveChallenge P ch)
  = inr {| NuwChallengeService.sol_challenge_id :=
             NuwChallengeService.challenge_id ch;
           NuwChallengeService.sol_challenge_type :=
             NuwChallengeService.MERKLE_VERIFY;
           NuwChallengeService.argon2_solution := None;
           NuwChallengeService.signature_results := None;
           NuwChallengeService.zk_result := None;
           NuwChallengeService.merkle_results :=
             Some (map (expectedMerkleResult (subtle_digest P)) tasks) |}.
Proof.
  intros Hd Hexp Htype Htasks Hne Hall.
  rewrite nuw_solveChallenge_dispatch by exact Hexp. rewrite Htype.
  unfold NuwChallengeService.solveMerkleVerify. rewrite Htasks.
  destruct tasks as [| task rest]; [contradiction |].
  pose proof (verifyProofs_shallow P Hd (task :: rest) [] Hall) as Hv.
  destruct (NuwChallengeService.verifyProofs P (task :: rest) []) as [r t].
  cbn in Hv. subst r. reflexivity.
Qed.

(** * The RPC client *)

Lemma substring_all (s : string) : substring 0 (String.length s) s = s.
Proof. induction s as [| c s IH]; cbn; [reflexivity | now rewrite IH]. Qed.

Lemma substring_skip (a b : string) (n : nat) :
  substring (String.length a) n (a ++ b) = substring 0 n b.
Proof. induction a as [| c a IH]; cbn; [reflexivity | exact IH]. Qed.

Lemma length_append (a b : string) :
  String.length (a ++ b) = (String.length a + String.length b)%nat.
Proof. induction a as [| c a IH]; cbn; [reflexivity | now rewrite IH]. Qed.

Lemma endsWith_append (a b : string) : RpcService.endsWith (a ++ b) b = true.
Proof.
  unfold RpcService.endsWith. rewrite length_append.
  apply andb_true_iff. split.
  - apply Nat.leb_le. lia.
  - replace (String.length a + String.length b - String.length b)%nat
      with (String.length a) by lia.
    rewrite substring_skip, substring_all. apply String.eqb_refl.
Qed.

Lemma rpcUrlOf_endsWith (nodeUrl : string) :
  RpcService.endsWith (rpcUrlOf nodeUrl) "/jsonrpc" = true.
Proof.
  unfold rpcUrlOf.
  destruct (RpcService.endsWith nodeUrl "/jsonrpc") eqn:E.
  - exact E.
  - apply endsWith_append.
Qed.

(** [call], with the endpoint and the request named. *)
Lemma call_unfold {Params T} (http : RpcService.Http Params T)
    (onLine : bool) (counter : Z) (nodeUrl method : string) (params : Params)
    (t : Z) :
  RpcService.call http onLine counter nodeUrl method params t
  = (match http (rpcUrlOf nodeUrl) (requestOf counter method params) t with
     | RpcService.Fails error =>
         inl (RpcService.handleHttpError onLine error (rpcUrlOf nodeUrl))
     | RpcService.Escapes thrown =>
         inl {| RpcService.message :=
                  match thrown with
                  | Some m => m
                  | None => "Unknown RPC error"
                  end;
                RpcService.code := -1;
                RpcService.isNetworkError := true;
                RpcService.isCorsError := false;
                RpcService.requiresChallenge := false |}
     | RpcService.Emits None =>
         inl (RpcService.newRpcError "Empty response from server" None)
     | RpcService.Emits (Some response) =>
         match RpcService.error response with
         | Some e =>
             inl {| RpcService.message := RpcService.error_message e;
                    RpcService.code := RpcService.error_code e;
                    RpcService.isNetworkError := false;
                    RpcService.isCorsError := false;
                    RpcService.requiresChallenge :=
                      match RpcService.data e with
                      | Some d =>
                          match RpcService.requires_challenge d with
                          | Some true => true
                          | _ => false
                          end
                      | None => false
                      end |}
         | None =>
             match RpcService.result response with
             | None =>
                 inl (RpcService.newRpcError "Response missing result field"
                        None)
             | Some r => inr r
             end
         end
     end, counter + 1).
Proof. reflexivity. Qed.

Lemma call_answers {Params T} (http : RpcService.Http Params T)
    (onLine : bool) (counter : Z) (nodeUrl method : string) (params : Params)
    (r : T) :
  fst (RpcService.call http onLine counter nodeUrl method params
         RpcService.defaultTimeout) = inr r
  <-> answers http nodeUrl counter method params r.
Proof.
  rewrite call_unfold. unfold answers. cbn [fst]. split.
  - destruct (http _ _ _) as [[response |] | e | thrown]; try discriminate.
    destruct (RpcService.error response) eqn:He; try discriminate.
    destruct (RpcService.result response) eqn:Hr; try discriminate.
    intros H. injection H as <-. exists response. auto.
  - intros (response & -> & -> & ->). reflexivity.
Qed.

Lemma call_counter {Params T} (http : RpcService.Http Params T)
    (onLine : bool) (counter : Z) (nodeUrl method : string) (params : Params)
    (t : Z) :
  snd (RpcService.call http onLine counter nodeUrl method params t)
  = counter + 1.
Proof. reflexivity. Qed.

Ltac split_ifs :=
  repeat match goal with
         | |- context [if ?b then _ else _] => destruct b
         end.

Lemma handleHttpError_flags (onLine : bool) (error : RpcService.HttpFailure)
    (url : string) :
  let e := RpcService.handleHttpError onLine error url in
  RpcService.requiresChallenge e = false
  /\ (RpcService.isCorsError e = true ->
      RpcService.status error = Some 0
      /\ RpcService.isNetworkError e = true /\ RpcService.code e = 0).
Proof.
  unfold RpcService.handleHttpError, RpcService.newRpcError.
  destruct (RpcService.status error) as [st |]; cbn.
  - destruct (Z.eqb_spec st 0) as [-> | Hn].
    + split_ifs; cbn; (split; [reflexivity |]); intros H;
        try discriminate H; auto.
    + split_ifs; cbn; (split; [reflexivity |]); intros H; discriminate H.
  - split; [reflexivity | intros H; discriminate H].
Qed.

(** X20. A call returns a value exactly when the transport delivers a
    body that has no [error] and has a [result], and the value is that
    result; in particular an answer that carries both an error and a
    result is a failure. *)
Theorem call_returns_iff {Params T} (http : RpcService.Http Params T)
    (onLine : bool) (counter : Z) (nodeUrl method : string) (params : Params)
    (r : T) :
  fst (RpcService.call http onLine counter nodeUrl method params
         RpcService.defaultTimeout) = inr r
  <-> exists response,
        http (rpcUrlOf nodeUrl) (requestOf counter method params)
             RpcService.defaultTimeout
        = RpcService.Emits (Some response)
        /\ RpcService.error response = None
        /\ RpcService.result response = Some r.
Proof. apply call_answers. Qed.

(** X21. The flags of the error a call throws are consistent: an error
    asks for a challenge exactly when the node's error object carries
    [requires_challenge: true], and then it is neither a network nor a
    CORS error and has the node's code and message; a CORS error is
    always a network error with code 0 that came from a transport failure
    with status 0. *)
Theorem call_error_flags {Params T} (http : RpcService.Http Params T)
    (onLine : bool) (counter : Z) (nodeUrl method : string) (params : Params)
    (e : RpcService.RpcError) :
  fst (RpcService.call http onLine counter nodeUrl method params
         RpcService.defaultTimeout) = inl e ->
  (RpcService.requiresChallenge e = true
   <-> exists response eo d,
         http (rpcUrlOf nodeUrl) (requestOf counter method params)
              RpcService.defaultTimeout
         = RpcService.Emits (Some response)
         /\ RpcService.error response = Some eo
         /\ RpcService.data eo = Some d
         /\ RpcService.requires_challenge d = Some true
         /\ RpcService.code e = RpcService.error_code eo
         /\ RpcService.message e = RpcService.error_message eo
         /\ RpcService.isNetworkError e = false
         /\ RpcService.isCorsError e = false)
  /\ (RpcService.isCorsError e = true ->
      RpcService.isNetworkError e = true
      /\ RpcService.code e = 0
      /\ exists failure,
           http (rpcUrlOf nodeUrl) (requestOf counter method params)
                RpcService.defaultTimeout
           = RpcService.Fails failure
           /\ RpcService.status failure = Some 0).
Proof.
  rewrite call_unfold. cbn [fst].
  destruct (http _ _ _) as [[response |] | failure | thrown] eqn:Hhttp.
  - destruct (RpcService.error response) as [eo |] eqn:He.
    + intros [= <-]. cbn. split; [| discriminate]. split.
      * destruct (RpcService.data eo) as [d |] eqn:Hd; [| discriminate].
        destruct (RpcService.requires_challenge d) as [[] |] eqn:Hr;
          try discriminate.
        intros _. exists response, eo, d. repeat (split; [easy |]). easy.
      * intros (response' & eo' & d & [= <-] & Heo & Hd & Hr & _).
        rewrite He in Heo. injection Heo as <-. now rewrite Hd, Hr.
    + destruct (RpcService.result response); [discriminate |].
      intros [= <-]. cbn. split; [| discriminate]. split; [discriminate |].
      intros (response' & eo' & d & [= <-] & Heo & _). congruence.
  - intros [= <-]. cbn. split; [| discriminate]. split; [discriminate |].
    intros (response' & eo' & d & Hemit & _). discriminate Hemit.
  - intros [= <-].
    destruct (handleHttpError_flags onLine failure (rpcUrlOf nodeUrl))
      as [Hno Hcors].
    split.
    + split.
      * rewrite Hno. discriminate.
      * intros (response' & eo' & d & Hemit & _). discriminate Hemit.
    + intros Hc. destruct (Hcors Hc) as [Hst [Hnet Hcode]].
      split; [exact Hnet |]. split; [exact Hcode |].
      exists failure. split; [reflexivity | exact Hst].
  - intros [= <-]. cbn. split; [| discriminate]. split; [discriminate |].
    intros (response' & eo' & d & Hemit & _). discriminate Hemit.
Qed.

Lemma handleHttpError_sorted (onLine : bool)
    (error : RpcService.HttpFailure) (url : string) :
  let e := RpcService.handleHttpError onLine error url in
  (RpcService.status error = Some 0 ->
   RpcService.isNetworkError e = true
   /\ RpcService.code e = 0
   /\ (RpcService.isCorsError e = true
       <-> onLine = true
           \/ exists m,
                RpcService.failure_message error = Some m
                /\ (RpcService.includes m "CORS" = true
                    \/ RpcService.includes m "cross-origin" = true)))
  /\ (forall st, RpcService.status error = Some st -> st <> 0 ->
      RpcService.code e = st
      /\ RpcService.isNetworkError e = false
      /\ RpcService.isCorsError e = false)
  /\ (RpcService.status error = None ->
      RpcService.code e = -1
      /\ RpcService.isNetworkError e = false
      /\ RpcService.isCorsError e = false)
  /\ RpcService.requiresChallenge e = false.
Proof.
  cbn zeta. split; [| split; [| split]].
  - intros Hst. unfold RpcService.handleHttpError. rewrite Hst.
    cbn [Z.eqb].
    destruct (RpcService.failure_message error) as [m |].
    + destruct (RpcService.includes m "CORS") eqn:H1;
        destruct (RpcService.includes m "cross-origin") eqn:H2;
        destruct onLine; cbn;
        (split; [reflexivity |]); (split; [reflexivity |]);
        (split; [intros H; try discriminate H;
                 first [ now left
                       | right; exists m; split; [reflexivity | auto] ]
                | intros [H | (m' & [= <-] & [H | H])];
                  first [reflexivity | discriminate H | congruence]]).
    + destruct onLine; cbn;
        (split; [reflexivity |]); (split; [reflexivity |]);
        (split; [intros H; try discriminate H; now left
                | intros [H | (m' & H & _)];
                  first [reflexivity | discriminate H]]).
  - intros st Hst Hn. unfold RpcService.handleHttpError. rewrite Hst.
    destruct (Z.eqb_spec st 0) as [-> | _]; [contradiction |].
    unfold RpcService.newRpcError. split_ifs; cbn; auto.
  - intros Hst. unfold RpcService.handleHttpError. rewrite Hst. cbn. auto.
  - apply (handleHttpError_flags onLine error url).
Qed.

(** X22. [handleHttpError] sorts a transport failure by its status: a
    status of 0 is a network error with code 0, and it is reported as a
    CORS error exactly when the browser is online or the failure's
    message mentions "CORS" or "cross-origin"; any other status is the
    error's code and sets no flag; a failure without a status, such as a
    timeout, gets code -1 and is not flagged as a network error. No
    transport failure asks for a challenge. *)
Theorem handleHttpError_classes (onLine : bool)
    (error : RpcService.HttpFailure) (url : string) :
  let e := RpcService.handleHttpError onLine error url in
  (RpcService.status error = Some 0 ->
   RpcService.isNetworkError e = true
   /\ RpcService.code e = 0
   /\ (RpcService.isCorsError e = true
       <-> onLine = true
           \/ exists m,
                RpcService.failure_message error = Some m
                /\ (RpcService.includes m "CORS" = true
                    \/ RpcService.includes m "cross-origin" = true)))
  /\ (forall st, RpcService.status error = Some st -> st <> 0 ->
      RpcService.code e = st
      /\ RpcService.isNetworkError e = false
      /\ RpcService.isCorsError e = false)
  /\ (RpcService.status error = None ->
      RpcService.code e = -1
      /\ RpcService.isNetworkError e = false
      /\ RpcService.isCorsError e = false)
  /\ RpcService.requiresChallenge e = false.
Proof. exact (handleHttpError_sorted onLine error url). Qed.

(** X23. A call makes one request: its outcome depends on the transport
    only through the answer to the request with the next id (the counter
    plus one), posted to the node URL with "/jsonrpc" appended unless the
    URL already ends with it; the counter goes up by one whether the call
    succeeds or not, so no two calls share an id; and the endpoint always
    ends with "/jsonrpc" and is left alone when used as a node URL
    again. *)
Theorem call_posts_once {Params T} (http : RpcService.Http Params T)
    (onLine : bool) (counter : Z) (nodeUrl method : string) (params : Params)
    (t : Z) :
  (forall http' : RpcService.Http Params T,
     http' (rpcUrlOf nodeUrl) (requestOf counter method params) t
     = http (rpcUrlOf nodeUrl) (requestOf counter method params) t ->
     RpcService.call http' onLine counter nodeUrl method params t
     = RpcService.call http onLine counter nodeUrl method params t)
  /\ RpcService.id (requestOf counter method params) = counter + 1
  /\ snd (RpcService.call http onLine counter nodeUrl method params t)
     = counter + 1
  /\ RpcService.endsWith (rpcUrlOf nodeUrl) "/jsonrpc" = true
  /\ rpcUrlOf (rpcUrlOf nodeUrl) = rpcUrlOf nodeUrl
  /\ RpcService.call http onLine counter (rpcUrlOf nodeUrl) method params t
     = RpcService.call http onLine counter nodeUrl method params t.
Proof.
  assert (Hidem : rpcUrlOf (rpcUrlOf nodeUrl) = rpcUrlOf nodeUrl).
  { unfold rpcUrlOf at 1. now rewrite rpcUrlOf_endsWith. }
  split; [| split; [| split; [| split; [| split]]]].
  - intros http' H. rewrite !call_unfold, H. reflexivity.
  - reflexivity.
  - reflexivity.
  - apply rpcUrlOf_endsWith.
  - exact Hidem.
  - rewrite !call_unfold, Hidem. reflexivity.
Qed.

(** * Fetching a challenge *)

Lemma getChallenge_cases
    (http : RpcService.Http unit ChallengeService.ChallengeResponse)
    (onLine : bool) (counter : Z) (nodeUrl : string) :
  (exists r,
     answers http nodeUrl counter "get_transaction_challenge" tt r
     /\ ChallengeService.getChallenge http onLine counter nodeUrl
        = (inr (challengeOf r), counter + 1))
  \/ (exists e,
        (forall r,
           ~ answers http nodeUrl counter "get_transaction_challenge" tt r)
        /\ fst (RpcService.call http onLine counter nodeUrl
                  "get_transaction_challenge" tt RpcService.defaultTimeout)
           = inl e
        /\ ChallengeService.getChallenge http onLine counter nodeUrl
           = (inl {| ChallengeService.error_message :=
                       ("Failed to get challenge: "
                        ++ RpcService.message e)%string;
                     ChallengeService.error_code :=
                       ChallengeService.FETCH_FAILED |},
              counter + 1)).
Proof.
  unfold ChallengeService.getChallenge.
  pose proof (call_answers http onLine counter nodeUrl
                "get_transaction_challenge" tt) as Hiff.
  pose proof (call_counter http onLine counter nodeUrl
                "get_transaction_challenge" tt RpcService.defaultTimeout)
    as Hsnd.
  destruct (RpcService.call http onLine counter nodeUrl
              "get_transaction_challenge" tt RpcService.defaultTimeout)
    as [[e | r] c].
  - right. exists e. cbn in Hsnd. subst c.
    split; [| split; reflexivity].
    intros r Hr. apply Hiff in Hr. discriminate Hr.
  - left. exists r. cbn in Hsnd. subst c.
    split; [apply Hiff; reflexivity | reflexivity].
Qed.

Lemma answers_unique {Params T} (http : RpcService.Http Params T)
    (nodeUrl : string) (counter : Z) (method : string) (params : Params)
    (r r' : T) :
  answers http nodeUrl counter method params r ->
  answers http nodeUrl counter method params r' -> r = r'.
Proof.
  intros (response & H1 & _ & H2) (response' & H1' & _ & H2').
  congruence.
Qed.


Lemma pow_solution_passes (P : Platform)
    (ch : ChallengeService.TransactionChallenge) (maxAttempts : option Z)
    (s : ChallengeService.SolvedChallenge) :
  outcome (ChallengeService.solveChallenge P ch maxAttempts) = inr s ->
  Date_now P / 1000 <= ChallengeService.expires_at ch
  /\ length (ChallengeService.hexToBytes (ChallengeService.nonce ch)) = 32%nat
  /\ ChallengeService.solved_challenge_id s = ChallengeService.challenge_id ch
  /\ ChallengeService.hasLeadingZeros
       (ChallengeService.hexToBytes (ChallengeService.hash s))
       (ChallengeService.difficulty ch) = true.
Proof.
  unfold ChallengeService.solveChallenge. intros Hs.
  destruct (Z.ltb_spec (ChallengeService.expires_at ch) (Date_now P / 1000))
    as [Hexp | Hexp]; [discriminate |].
  destruct (Nat.eqb_spec
              (length (ChallengeService.hexToBytes (ChallengeService.nonce ch)))
              32) as [Hn | Hn]; [| discriminate].
  cbn [negb] in Hs. split; [exact Hexp |]. split; [exact Hn |].
  destruct (solveLoop_sound P ch _ _ _ s Hs)
    as [c [_ [_ [H2 [_ [H4 _]]]]]].
  split; [exact H4 | exact H2].
Qed.


Lemma getSolvedChallenge_cases
    (http : RpcService.Http unit ChallengeService.ChallengeResponse)
    (onLine : bool) (P : Platform) (counter : Z) (nodeUrl : string) :
  (exists r,
     answers http nodeUrl counter "get_transaction_challenge" tt r
     /\ fst (ChallengeService.getSolvedChallenge http onLine P counter
               nodeUrl)
        = ChallengeService.solveChallenge P (challengeOf r) None)
  \/ ((forall r,
         ~ answers http nodeUrl counter "get_transaction_challenge" tt r)
      /\ fst (ChallengeService.getSolvedChallenge http onLine P counter
                nodeUrl)
         = (inl (Thrown ChallengeService.FETCH_FAILED), [])).
Proof.
  unfold ChallengeService.getSolvedChallenge.
  destruct (getChallenge_cases http onLine counter nodeUrl)
    as [(r & Hr & ->) | (e & Hno & _ & ->)]; cbn [fst snd].
  - left. exists r. split; [exact Hr | reflexivity].
  - right. split; [exact Hno | reflexivity].
Qed.


(** * Sending a transaction *)

Lemma sendTransaction_unfold
    (challengeHttp : RpcService.Http unit ChallengeService.ChallengeResponse)
    (sendHttp : RpcService.Http TransactionService.SendParams
                  TransactionService.SendTransactionResponse)
    (onLine : bool) (P : Platform) (counter : Z) (nodeUrl : string)
    (request : TransactionService.SendTransactionRequest) :
  TransactionService.sendTransaction challengeHttp sendHttp onLine P counter
    nodeUrl request
  = match fst (ChallengeService.getSolvedChallenge challengeHttp onLine P
                 counter nodeUrl) with
    | (inl error, trace) =>
        (inl (TransactionService.Rethrown error), trace, counter + 1)
    | (inr s, trace) =>
        (match fst (RpcService.call sendHttp onLine (counter + 1) nodeUrl
                      "send_transaction"
                      {| TransactionService.sent := request;
                         TransactionService.challenge := s |}
                      RpcService.defaultTimeout) with
         | inr result => inr result
         | inl error =>
             inl (TransactionService.Error
                    (if RpcService.isCorsError error then
                       "Cannot send transaction: CORS policy blocks requests to the node. Please use the desktop wallet or configure a proxy."
                     else if RpcService.isNetworkError error then
                       "Cannot send transaction: Unable to connect to the node. Please check your network connection."
                     else if RpcService.requiresChallenge error then
                       "Transaction requires proof-of-work challenge. Please try again."
                     else ("Transaction failed: "
                           ++ RpcService.message error)%string))
         end, trace, counter + 2)
    end.
Proof.
  unfold TransactionService.sendTransaction,
    ChallengeService.getSolvedChallenge.
  destruct (getChallenge_cases challengeHttp onLine counter nodeUrl)
    as [(r & _ & ->) | (e & _ & _ & ->)]; cbn [fst snd].
  - destruct (ChallengeService.solveChallenge P (challengeOf r) None)
      as [[e | s] trace]; [reflexivity |].
    rewrite call_unfold. cbn [fst snd].
    replace (counter + 1 + 1) with (counter + 2) by lia.
    destruct (sendHttp _ _ _) as [[response |] | failure | thrown];
      try reflexivity.
    destruct (RpcService.error response); [reflexivity |].
    destruct (RpcService.result response); reflexivity.
  - reflexivity.
Qed.

(** X26. A transaction is submitted only with a solved challenge: when
    [sendTransaction] returns, the node had answered the challenge
    request, the solver had solved that answer, and the
    "send_transaction" request, the second of the two with the next id,
    carried the fields of the transaction together with that solution,
    which has the answer's id and passes its difficulty. When the
    challenge step fails, the failure is thrown on as it is, whatever the
    node would answer to a submission, and one request id has been
    used. *)
Theorem sendTransaction_attaches_solution
    (challengeHttp : RpcService.Http unit ChallengeService.ChallengeResponse)
    (sendHttp : RpcService.Http TransactionService.SendParams
                  TransactionService.SendTransactionResponse)
    (onLine : bool) (P : Platform) (counter : Z) (nodeUrl : string)
    (request : TransactionService.SendTransactionRequest) :
  let run :=
    TransactionService.sendTransaction challengeHttp sendHttp onLine P
      counter nodeUrl request in
  (forall result,
     fst (fst run) = inr result ->
     exists r s,
       answers challengeHttp nodeUrl counter "get_transaction_challenge" tt r
       /\ ChallengeService.solveChallenge P (challengeOf r) None
          = (inr s, snd (fst run))
       /\ ChallengeService.solved_challenge_id s
          = ChallengeService.response_challenge_id r
       /\ ChallengeService.hasLeadingZeros
            (ChallengeService.hexToBytes (ChallengeService.hash s))
            (ChallengeService.difficulty (challengeOf r)) = true
       /\ answers sendHttp nodeUrl (counter + 1) "send_transaction"
            {| TransactionService.sent := request;
               TransactionService.challenge := s |} result
       /\ snd run = counter + 2)
  /\ (forall e trace,
        fst (ChallengeService.getSolvedChallenge challengeHttp onLine P
               counter nodeUrl) = (inl e, trace) ->
        run = (inl (TransactionService.Rethrown e), trace, counter + 1)).
Proof.
  cbn zeta. rewrite sendTransaction_unfold. split.
  - intros result.
    pose proof (getSolvedChallenge_cases challengeHttp onLine P counter
                  nodeUrl) as Hcases.
    destruct (fst (ChallengeService.getSolvedChallenge challengeHttp onLine P
                     counter nodeUrl)) as [[e | s] trace] eqn:Hrun;
      [discriminate |].
    cbn [fst snd].
    destruct (fst (RpcService.call sendHttp onLine (counter + 1) nodeUrl
                     "send_transaction"
                     {| TransactionService.sent := request;
                        TransactionService.challenge := s |}
                     RpcService.defaultTimeout)) as [e | result'] eqn:Hcall;
      [discriminate |].
    intros [= <-].
    destruct Hcases as [(r & Hr & Hsolve) | (_ & Hfail)];
      [| discriminate Hfail].
    exists r, s. split; [exact Hr |].
    split; [symmetry; exact Hsolve |].
    destruct (pow_solution_passes P (challengeOf r) None s)
      as [_ [_ [Hid Hz]]]; [now rewrite <- Hsolve |].
    split; [exact Hid |]. split; [exact Hz |].
    split; [exact (proj1 (call_answers _ _ _ _ _ _ _) Hcall) | reflexivity].
  - intros e trace ->. reflexivity.
Qed.

(** X27. After the challenge is solved, a failed submission is reported
    by one of four messages. A transport failure with status 0 gives the
    CORS message whenever the browser is online and, when it is offline
    and the failure's message mentions neither "CORS" nor "cross-origin",
    the connection message, which is also what anything thrown outside
    the HTTP pipe gives. An error
    object of the node gives the "requires proof-of-work challenge"
    message when it carries [requires_challenge: true], although a solved
    challenge was attached, and "Transaction failed: " with the node's
    message otherwise. An empty body, a body without result, and a
    transport failure with a status other than 0 or with none (a
    timeout) give "Transaction failed: " with the RPC error's message. *)
Theorem sendTransaction_messages
    (challengeHttp : RpcService.Http unit ChallengeService.ChallengeResponse)
    (sendHttp : RpcService.Http TransactionService.SendParams
                  TransactionService.SendTransactionResponse)
    (onLine : bool) (P : Platform) (counter : Z) (nodeUrl : string)
    (request : TransactionService.SendTransactionRequest)
    (s : ChallengeService.SolvedChallenge) :
  outcome (fst (ChallengeService.getSolvedChallenge challengeHttp onLine P
                  counter nodeUrl)) = inr s ->
  let answer :=
    sendHttp (rpcUrlOf nodeUrl)
      (requestOf (counter + 1) "send_transaction"
         {| TransactionService.sent := request;
            TransactionService.challenge := s |})
      RpcService.defaultTimeout in
  let thrown message :=
    fst (fst (TransactionService.sendTransaction challengeHttp sendHttp
                onLine P counter nodeUrl request))
    = inl (TransactionService.Error message) in
  (forall failure,
     answer = RpcService.Fails failure ->
     RpcService.status failure = Some 0 ->
     (onLine = true ->
      thrown "Cannot send transaction: CORS policy blocks requests to the node. Please use the desktop wallet or configure a proxy.")
     /\ (onLine = false ->
         (forall m,
            RpcService.failure_message failure = Some m ->
            RpcService.includes m "CORS" = false
            /\ RpcService.includes m "cross-origin" = false) ->
         thrown "Cannot send transaction: Unable to connect to the node. Please check your network connection."))
  /\ (forall failure,
        answer = RpcService.Fails failure ->
        RpcService.status failure <> Some 0 ->
        thrown ("Transaction failed: "
                ++ RpcService.message
                     (RpcService.handleHttpError onLine failure
                        (rpcUrlOf nodeUrl)))%string)
  /\ (forall escaped,
        answer = RpcService.Escapes escaped ->
        thrown "Cannot send transaction: Unable to connect to the node. Please check your network connection.")
  /\ (forall response eo,
        answer = RpcService.Emits (Some response) ->
        RpcService.error response = Some eo ->
        (forall d,
           RpcService.data eo = Some d ->
           RpcService.requires_challenge d = Some true ->
           thrown "Transaction requires proof-of-work challenge. Please try again.")
        /\ ((forall d,
               RpcService.data eo = Some d ->
               RpcService.requires_challenge d <> Some true) ->
            thrown ("Transaction failed: "
                    ++ RpcService.error_message eo)%string))
  /\ (answer = RpcService.Emits None ->
      thrown "Transaction failed: Empty response from server")
  /\ (forall response,
        answer = RpcService.Emits (Some response) ->
        RpcService.error response = None ->
        RpcService.result response = None ->
        thrown "Transaction failed: Response missing result field").
Proof.
  intros Hs. cbn zeta. rewrite sendTransaction_unfold.
  destruct (fst (ChallengeService.getSolvedChallenge challengeHttp onLine P
                   counter nodeUrl)) as [[e | s'] trace];
    [discriminate |].
  cbn in Hs. injection Hs as ->. cbn [fst snd].
  rewrite call_unfold. cbn [fst].
  split; [| split; [| split; [| split; [| split]]]].
  - intros failure -> Hst.
    destruct (handleHttpError_sorted onLine failure (rpcUrlOf nodeUrl))
      as [H0 _].
    destruct (H0 Hst) as [Hnet [_ Hcors]].
    split.
    + intros Hon. rewrite (proj2 Hcors (or_introl Hon)). reflexivity.
    + intros Hoff Hmsg.
      destruct (RpcService.isCorsError
                  (RpcService.handleHttpError onLine failure
                     (rpcUrlOf nodeUrl))) eqn:Hc.
      * destruct (proj1 Hcors eq_refl) as [Hon | (m & Hm & Hin)];
          [congruence |].
        destruct (Hmsg m Hm) as [H1 H2]. destruct Hin; congruence.
      * rewrite Hnet. reflexivity.
  - intros failure -> Hst.
    destruct (handleHttpError_sorted onLine failure (rpcUrlOf nodeUrl))
      as [_ [Hother [Hnone Hno]]].
    cbn zeta in Hother, Hnone, Hno.
    destruct (RpcService.status failure) as [st |] eqn:Est.
    + destruct (Hother st eq_refl) as [_ [Hnet Hcors]]; [congruence |].
      rewrite Hcors, Hnet, Hno. reflexivity.
    + destruct (Hnone eq_refl) as [_ [Hnet Hcors]].
      rewrite Hcors, Hnet, Hno. reflexivity.
  - intros escaped ->. reflexivity.
  - intros response eo -> ->. cbn. split.
    + intros d -> ->. reflexivity.
    + intros Hnot. destruct (RpcService.data eo) as [d |]; [| reflexivity].
      specialize (Hnot d eq_refl).
      destruct (RpcService.requires_challenge d) as [[] |];
        [congruence | reflexivity | reflexivity].
  - intros ->. reflexivity.
  - intros response -> -> ->. reflexivity.
Qed.

(** * The request token *)

Lemma nibbles_agree (b : Z) :
  0 <= b < 256 ->
  PaymentRequestService.alphabetAt (JS.and (JS.sar b 4) 15)
  = String (JS.hexDigit (b / 16)) EmptyString
  /\ PaymentRequestService.alphabetAt (JS.and b 15)
     = String (JS.hexDigit (b mod 16)) EmptyString.
Proof.
  intros Hb.
  assert (Hall :
    forallb (fun n =>
               let b := Z.of_nat n in
               String.eqb
                 (PaymentRequestService.alphabetAt (JS.and (JS.sar b 4) 15))
                 (String (JS.hexDigit (b / 16)) EmptyString)
               && String.eqb
                    (PaymentRequestService.alphabetAt (JS.and b 15))
                    (String (JS.hexDigit (b mod 16)) EmptyString))
            (seq 0 256) = true) by (vm_compute; reflexivity).
  rewrite forallb_forall in Hall.
  specialize (Hall (Z.to_nat b)).
  rewrite Z2Nat.id in Hall by lia.
  assert (Hin : In (Z.to_nat b) (seq 0 256)) by (apply in_seq; lia).
  apply Hall in Hin. apply andb_true_iff in Hin.
  destruct Hin as [H1 H2].
  apply String.eqb_eq in H1, H2. auto.
Qed.

Lemma string_app_assoc (a b c : string) :
  ((a ++ b) ++ c = a ++ (b ++ c))%string.
Proof. induction a as [| x a IH]; cbn; [reflexivity | now rewrite IH]. Qed.

Lemma string_app_empty (a : string) : (a ++ "")%string = a.
Proof. induction a as [| x a IH]; cbn; [reflexivity | now rewrite IH]. Qed.

Lemma tokenOf_is_hex (buffer : list Z) (token : string) :
  isBytes buffer ->
  PaymentRequestService.tokenOf buffer token
  = (token ++ ChallengeService.bytesToHex buffer)%string.
Proof.
  intros Hbytes. revert token.
  induction Hbytes as [| b buffer Hb _ IH]; intros token.
  - cbn. now rewrite string_app_empty.
  - cbn [PaymentRequestService.tokenOf]. rewrite IH.
    destruct (nibbles_agree b Hb) as [-> ->].
    rewrite bytesToHex_cons, !string_app_assoc. reflexivity.
Qed.

(** X28. The token [createToken] builds from the random buffer is the
    lower-case hex encoding of the buffer, the same text [bytesToHex]
    writes: two characters per byte (64 for the 32-byte buffer), and
    decoding it with [hexToBytes] gives the buffer back, so that two
    buffers give the same token only when they are equal. *)
Theorem createToken_is_hex (buffer : list Z) :
  isBytes buffer ->
  PaymentRequestService.createToken buffer
  = ChallengeService.bytesToHex buffer
  /\ String.length (PaymentRequestService.createToken buffer)
     = (2 * length buffer)%nat
  /\ ChallengeService.hexToBytes (PaymentRequestService.createToken buffer)
     = buffer
  /\ (forall other,
        isBytes other ->
        PaymentRequestService.createToken other
        = PaymentRequestService.createToken buffer ->
        other = buffer).
Proof.
  intros Hbytes. unfold PaymentRequestService.createToken.
  rewrite tokenOf_is_hex by exact Hbytes. cbn [append].
  split; [reflexivity |]. split; [apply bytesToHex_length |].
  split; [now apply hexToBytes_bytesToHex |].
  intros other Hother. rewrite tokenOf_is_hex by exact Hother.
  cbn [append]. intros Heq.
  rewrite <- (hexToBytes_bytesToHex other Hother), Heq.
  now apply hexToBytes_bytesToHex.
Qed.

(** * Fetching a NUW challenge *)

Lemma nuw_getChallenge_cases
    (http : RpcService.Http (option NuwChallengeService.NuwChallengeType)
              NuwChallengeService.NuwChallenge)
    (onLine : bool) (counter : Z) (nodeUrl : string)
    (preferredType : option NuwChallengeService.NuwChallengeType) :
  (exists ch,
     answers http nodeUrl counter "get_nuw_challenge" preferredType ch
     /\ NuwChallengeService.getChallenge http onLine counter nodeUrl
          preferredType
        = (inr ch, counter + 1))
  \/ (exists e,
        (forall ch,
           ~ answers http nodeUrl counter "get_nuw_challenge" preferredType
               ch)
        /\ NuwChallengeService.getChallenge http onLine counter nodeUrl
             preferredType
           = (inl {| NuwChallengeService.error_message :=
                       ("Failed to get NUW challenge: "
                        ++ RpcService.message e)%string;
                     NuwChallengeService.error_code :=
                       NuwChallengeService.FETCH_FAILED |},
              counter + 1)).
Proof.
  unfold NuwChallengeService.getChallenge.
  pose proof (call_answers http onLine counter nodeUrl
                "get_nuw_challenge" preferredType) as Hiff.
  pose proof (call_counter http onLine counter nodeUrl
                "get_nuw_challenge" preferredType RpcService.defaultTimeout)
    as Hsnd.
  destruct (RpcService.call http onLine counter nodeUrl
              "get_nuw_challenge" preferredType RpcService.defaultTimeout)
    as [[e | ch] c].
  - right. exists e. cbn in Hsnd. subst c.
    split; [| reflexivity].
    intros ch Hch. apply Hiff in Hch. discriminate Hch.
  - left. exists ch. cbn in Hsnd. subst c.
    split; [apply Hiff; reflexivity | reflexivity].
Qed.

(** X29. The NUW [getSolvedChallenge] asks for a challenge with the
    preferred type as the request's parameter and solves the answer as it
    is: when the node gives no challenge it throws [FETCH_FAILED] and no
    primitive has been called; otherwise its run is the dispatcher's run
    on the node's challenge, so that a solution it returns carries that
    challenge's id, and its type unless that is [PQ_ASSIST]. The type
    asked for is not compared with the type of the answer. *)
Theorem nuw_getSolvedChallenge_sound
    (http : RpcService.Http (option NuwChallengeService.NuwChallengeType)
              NuwChallengeService.NuwChallenge)
    (onLine : bool) (P : Platform) (counter : Z) (nodeUrl : string)
    (preferredType : option NuwChallengeService.NuwChallengeType) :
  let run :=
    fst (NuwChallengeService.getSolvedChallenge http onLine P counter nodeUrl
           preferredType) in
  ((forall ch,
      ~ answers http nodeUrl counter "get_nuw_challenge" preferredType ch) ->
   run = (inl (Thrown NuwChallengeService.FETCH_FAILED), []))
  /\ (forall ch,
        answers http nodeUrl counter "get_nuw_challenge" preferredType ch ->
        run = NuwChallengeService.solveChallenge P ch)
  /\ (forall sol,
        outcome run = inr sol ->
        exists ch,
          answers http nodeUrl counter "get_nuw_challenge" preferredType ch
          /\ NuwChallengeService.sol_challenge_id sol
             = NuwChallengeService.challenge_id ch
          /\ NuwChallengeService.sol_challenge_type sol
             = match NuwChallengeService.challenge_type ch with
               | NuwChallengeService.PQ_ASSIST =>
                   NuwChallengeService.ARGON2_POW
               | t => t
               end)
  /\ snd (NuwChallengeService.getSolvedChallenge http onLine P counter
            nodeUrl preferredType)
     = counter + 1.
Proof.
  cbn zeta. unfold NuwChallengeService.getSolvedChallenge.
  destruct (nuw_getChallenge_cases http onLine counter nodeUrl preferredType)
    as [(ch & Hch & ->) | (e & Hno & ->)]; cbn [fst snd].
  - split; [| split; [| split]].
    + intros Hnone. destruct (Hnone ch Hch).
    + intros ch' Hch'. now rewrite (answers_unique _ _ _ _ _ _ _ Hch' Hch).
    + intros sol Hsol.
      destruct (nuw_solution_shape P ch sol Hsol) as [Hid [_ Htype]].
      exists ch. split; [exact Hch |]. split; [exact Hid | exact Htype].
    + reflexivity.
  - split; [| split; [| split]].
    + reflexivity.
    + intros ch Hch. destruct (Hno ch Hch).
    + discriminate.
    + reflexivity.
Qed.

(** X30. [getAvailableTypes] always offers [ARGON2_POW], and offers
    [SIGNATURE_BATCH] and [MERKLE_VERIFY] exactly when the WASM service
    answers that it is ready (not when the question throws). A challenge
    of an offered type is never refused as [UNSUPPORTED_TYPE]; neither is
    one of type [ZK_VERIFY] or [PQ_ASSIST], which are never offered. *)
Theorem getAvailableTypes_offers (isReady : option bool) :
  (forall t,
     In t (NuwChallengeService.getAvailableTypes isReady)
     <-> t = NuwChallengeService.ARGON2_POW
         \/ (isReady = Some true
             /\ (t = NuwChallengeService.SIGNATURE_BATCH
                 \/ t = NuwChallengeService.MERKLE_VERIFY)))
  /\ (forall t P ch,
        In t (NuwChallengeService.getAvailableTypes isReady) ->
        NuwChallengeService.challenge_type ch = t ->
        outcome (NuwChallengeService.solveChallenge P ch)
        <> inl (Thrown NuwChallengeService.UNSUPPORTED_TYPE))
  /\ ~ In NuwChallengeService.ZK_VERIFY
         (NuwChallengeService.getAvailableTypes isReady)
  /\ ~ In NuwChallengeService.PQ_ASSIST
         (NuwChallengeService.getAvailableTypes isReady)
  /\ (forall P ch,
        NuwChallengeService.challenge_type ch = NuwChallengeService.ZK_VERIFY
        \/ NuwChallengeService.challenge_type ch
           = NuwChallengeService.PQ_ASSIST ->
        outcome (NuwChallengeService.solveChallenge P ch)
        <> inl (Thrown NuwChallengeService.UNSUPPORTED_TYPE)).
Proof.
  assert (Hin : forall t,
            In t (NuwChallengeService.getAvailableTypes isReady)
            <-> t = NuwChallengeService.ARGON2_POW
                \/ (isReady = Some true
                    /\ (t = NuwChallengeService.SIGNATURE_BATCH
                        \/ t = NuwChallengeService.MERKLE_VERIFY))).
  { intros t. destruct isReady as [[] |]; cbn; split.
    - intros [<- | [<- | [<- | []]]]; auto.
    - intros [-> | [_ [-> | ->]]]; auto.
    - intros [<- | []]; auto.
    - intros [-> | [H _]]; [auto | discriminate H].
    - intros [<- | []]; auto.
    - intros [-> | [H _]]; [auto | discriminate H]. }
  assert (Hsupported : forall P ch,
            (forall tag, NuwChallengeService.challenge_type ch
                         <> NuwChallengeService.UNKNOWN tag) ->
            outcome (NuwChallengeService.solveChallenge P ch)
            <> inl (Thrown NuwChallengeService.UNSUPPORTED_TYPE)).
  { intros P ch Hknown Hrun.
    destruct (nuw_failure_cases P ch _ Hrun)
      as [[H _] | [[H _] | [[H _] | [[_ [tag Htag]] | [H _]]]]];
      try discriminate H.
    exact (Hknown tag Htag). }
  split; [exact Hin |]. split; [| split; [| split]].
  - intros t P ch Ht Hty. apply Hsupported. intros tag Htag.
    apply Hin in Ht. rewrite Hty in Htag.
    destruct Ht as [-> | [_ [-> | ->]]]; discriminate Htag.
  - intros Ht. apply Hin in Ht.
    destruct Ht as [H | [_ [H | H]]]; discriminate H.
  - intros Ht. apply Hin in Ht.
    destruct Ht as [H | [_ [H | H]]]; discriminate H.
  - intros P ch Hty. apply Hsupported. intros tag Htag.
    destruct Hty as [Hty | Hty]; rewrite Hty in Htag; discriminate Htag.
Qed.

(** * Instances of the further properties *)

Lemma hex_round_trip_witness :
  ChallengeService.hexToBytes (ChallengeService.bytesToHex [0; 255; 16]) = [0; 255; 16]
  /\ NuwChallengeService.hexToBytes (NuwChallengeService.bytesToHex [0; 255; 16])
     = [0; 255; 16].
Proof. apply (hex_round_trip [0; 255; 16]). repeat constructor; lia. Defined.

Lemma hexToBytes_decodes_digits_witness :
  ChallengeService.hexToBytes "aF07" = (16 * 10 + 15) :: ChallengeService.hexToBytes "07"
  /\ NuwChallengeService.hexToBytes "aF07"
     = (16 * 10 + 15) :: NuwChallengeService.hexToBytes "07".
Proof.
  apply (hexToBytes_decodes_digits "a" "F" "07" 10 15); reflexivity.
Defined.

Lemma bytesToHex_shape_witness :
  String.length (ChallengeService.bytesToHex [0; 255; 16]) = (2 * 3)%nat
  /\ forallb isLowerHexDigit
       (list_ascii_of_string (ChallengeService.bytesToHex [0; 255; 16]))
     = true.
Proof. apply (bytesToHex_shape [0; 255; 16]). repeat constructor; lia. Defined.

Lemma hasLeadingZeros_is_target_witness :
  ChallengeService.hasLeadingZeros [0; 0; 23; 200] 19 = true
  <-> bigEndianValue [0; 0; 23; 200] < 2 ^ (8 * 4 - 19).
Proof.
  apply (hasLeadingZeros_is_target [0; 0; 23; 200] 19).
  - repeat constructor; lia.
  - cbn. lia.
Defined.

Lemma hasLeadingZeros_monotone_witness :
  ChallengeService.hasLeadingZeros [0; 0; 23; 200] 10 = true.
Proof.
  apply (hasLeadingZeros_monotone [0; 0; 23; 200] 19 10).
  - repeat constructor; lia.
  - lia.
  - reflexivity.
Defined.

Lemma solveChallenge_sound_witness :
  Date_now (Fixtures.platformWith Fixtures.alwaysZero) / 1000 <= 1700000060
  /\ length (ChallengeService.hexToBytes Fixtures.zeros32) = 32%nat
  /\ exists c,
       0 <= c < 10000
       /\ Fixtures.alwaysZero (powOptions Fixtures.zeros32 1024 2 c)
          = Some Fixtures.zeros32
       /\ ChallengeService.hasLeadingZeros
            (ChallengeService.hexToBytes Fixtures.zeros32) 4 = true
       /\ "0000000000000000" = ChallengeService.bytesToHex (be64 c)
       /\ "pow-1" = "pow-1"
       /\ (forall c', 0 <= c' < c ->
             missesAt (Fixtures.alwaysZero (powOptions Fixtures.zeros32 1024 2 c'))
               4).
Proof.
  apply (solveChallenge_sound (Fixtures.platformWith Fixtures.alwaysZero)
           (Fixtures.powChallenge 4 1700000060) None
           {| ChallengeService.solved_challenge_id := "pow-1";
              ChallengeService.solution := "0000000000000000";
              ChallengeService.hash := Fixtures.zeros32 |}).
  vm_compute. reflexivity.
Defined.

Lemma solveChallenge_yields_witness :
  events (ChallengeService.solveChallenge
            (Fixtures.platformWith Fixtures.alwaysOnes)
            (Fixtures.powChallenge 4 1700000060) (Some 12))
  = flat_map
      (fun c =>
         EvArgon2id (powOptions Fixtures.zeros32 1024 2 c)
         :: (if (Z.rem c 10 =? 0) && (c >? 0) then [EvYield] else []))
      (counters 0 (Z.to_nat 12)).
Proof.
  apply (solveChallenge_yields (Fixtures.platformWith Fixtures.alwaysOnes)
           (Fixtures.powChallenge 4 1700000060) (Some 12)).
  - vm_compute. discriminate.
  - reflexivity.
  - intros c _. exists Fixtures.ones32. split; reflexivity.
Defined.

Lemma nuw_pow_search_witness :
  outcome (NuwChallengeService.solveChallenge
             (Fixtures.platformWith Fixtures.alwaysZero)
             (Fixtures.nuwPow NuwChallengeService.PQ_ASSIST 1700000060))
  = inr {| NuwChallengeService.sol_challenge_id := "nuw-1";
           NuwChallengeService.sol_challenge_type :=
             NuwChallengeService.ARGON2_POW;
           NuwChallengeService.argon2_solution :=
             Some (NuwChallengeService.bytesToHex (be64 0));
           NuwChallengeService.signature_results := None;
           NuwChallengeService.zk_result := None;
           NuwChallengeService.merkle_results := None |}.
Proof.
  assert (Hexp : Date_now (Fixtures.platformWith Fixtures.alwaysZero) / 1000
                 <= NuwChallengeService.expires_at
                      (Fixtures.nuwPow NuwChallengeService.PQ_ASSIST 1700000060))
    by (vm_compute; discriminate).
  apply (proj1 (nuw_pow_search (Fixtures.platformWith Fixtures.alwaysZero)
                  (Fixtures.nuwPow NuwChallengeService.PQ_ASSIST 1700000060)
                  (Fixtures.argon2Params Fixtures.zeros32 4)
                  Hexp (or_intror eq_refl) eq_refl)
           0 Fixtures.zeros32).
  - lia.
  - reflexivity.
  - reflexivity.
  - intros c' Hc'. lia.
Defined.

Lemma nuw_pow_sound_witness :
  exists k : nat,
    Z.of_nat k <= 10000
    /\ argon2Calls (events (NuwChallengeService.solveChallenge
                              (Fixtures.platformWith Fixtures.alwaysOnes)
                              (Fixtures.nuwPow NuwChallengeService.ARGON2_POW
                                 1700000060)))
       = map (powOptions Fixtures.zeros32 1024 2) (counters 0 k).
Proof.
  assert (Hexp : Date_now (Fixtures.platformWith Fixtures.alwaysOnes) / 1000
                 <= NuwChallengeService.expires_at
                      (Fixtures.nuwPow NuwChallengeService.ARGON2_POW 1700000060))
    by (vm_compute; discriminate).
  exact (proj2 (nuw_pow_sound (Fixtures.platformWith Fixtures.alwaysOnes)
                  (Fixtures.nuwPow NuwChallengeService.ARGON2_POW 1700000060)
                  (Fixtures.argon2Params Fixtures.zeros32 4)
                  Hexp (or_introl eq_refl) eq_refl)).
Defined.

Lemma nuw_pow_yields_witness :
  events (NuwChallengeService.solveChallenge
            (Fixtures.platformWith Fixtures.alwaysOnes)
            (Fixtures.nuwPow NuwChallengeService.ARGON2_POW 1700000060))
  = flat_map
      (fun c =>
         EvArgon2id (powOptions Fixtures.zeros32 1024 2 c)
         :: (if Z.rem c 10 =? 0 then [EvYield] else []))
      (counters 0 (Z.to_nat 10000)).
Proof.
  assert (Hexp : Date_now (Fixtures.platformWith Fixtures.alwaysOnes) / 1000
                 <= NuwChallengeService.expires_at
                      (Fixtures.nuwPow NuwChallengeService.ARGON2_POW 1700000060))
    by (vm_compute; discriminate).
  apply (nuw_pow_yields (Fixtures.platformWith Fixtures.alwaysOnes)
           (Fixtures.nuwPow NuwChallengeService.ARGON2_POW 1700000060)
           (Fixtures.argon2Params Fixtures.zeros32 4)
           Hexp (or_introl eq_refl) eq_refl).
  intros c _. exists Fixtures.ones32. split; reflexivity.
Defined.

Lemma solution_matches_challenge_witness :
  "nuw-3" = "nuw-3"
  /\ onePayload
       {| NuwChallengeService.sol_challenge_id := "nuw-3";
          NuwChallengeService.sol_challenge_type :=
            NuwChallengeService.ZK_VERIFY;
          NuwChallengeService.argon2_solution := None;
          NuwChallengeService.signature_results := None;
          NuwChallengeService.zk_result :=
            Some {| NuwChallengeService.zr_proof_id := "zk-7";
                    NuwChallengeService.zr_valid := true |};
          NuwChallengeService.merkle_results := None |}
  /\ NuwChallengeService.ZK_VERIFY = NuwChallengeService.ZK_VERIFY.
Proof.
  apply (solution_matches_challenge Fixtures.platform
           (Fixtures.zkChallenge 1700000060)
           {| NuwChallengeService.sol_challenge_id := "nuw-3";
              NuwChallengeService.sol_challenge_type :=
                NuwChallengeService.ZK_VERIFY;
              NuwChallengeService.argon2_solution := None;
              NuwChallengeService.signature_results := None;
              NuwChallengeService.zk_result :=
                Some {| NuwChallengeService.zr_proof_id := "zk-7";
                        NuwChallengeService.zr_valid := true |};
              NuwChallengeService.merkle_results := None |}).
  vm_compute. reflexivity.
Defined.

Lemma dispatcher_failures_witness :
  (Thrown NuwChallengeService.INVALID = Thrown NuwChallengeService.EXPIRED
   /\ 1700000060 < Date_now Fixtures.platform / 1000)
  \/ (Thrown NuwChallengeService.INVALID = Thrown NuwChallengeService.INVALID
      /\ Date_now Fixtures.platform / 1000 <= 1700000060
      /\ payloadMissing
           (Fixtures.nuwChallenge NuwChallengeService.MERKLE_VERIFY
              1700000060 None))
  \/ (Thrown NuwChallengeService.INVALID
      = Thrown NuwChallengeService.SOLVE_FAILED
      /\ (NuwChallengeService.MERKLE_VERIFY = NuwChallengeService.ARGON2_POW
          \/ NuwChallengeService.MERKLE_VERIFY
             = NuwChallengeService.PQ_ASSIST))
  \/ (Thrown NuwChallengeService.INVALID
      = Thrown NuwChallengeService.UNSUPPORTED_TYPE
      /\ exists tag,
           NuwChallengeService.MERKLE_VERIFY
           = NuwChallengeService.UNKNOWN tag)
  \/ (Thrown NuwChallengeService.INVALID = PlatformError
      /\ NuwChallengeService.MERKLE_VERIFY
         = NuwChallengeService.MERKLE_VERIFY).
Proof.
  apply (dispatcher_failures Fixtures.platform
           (Fixtures.nuwChallenge NuwChallengeService.MERKLE_VERIFY
              1700000060 None)
           (Thrown NuwChallengeService.INVALID)).
  vm_compute. reflexivity.
Defined.

Lemma solveSignatureBatch_trace_witness :
  events (NuwChallengeService.solveSignatureBatch Fixtures.platformNoEd25519
            Fixtures.batchChallenge)
  = flat_map (itemEvents Fixtures.platformNoEd25519) Fixtures.batch.
Proof.
  apply (solveSignatureBatch_trace Fixtures.platformNoEd25519
           Fixtures.batchChallenge Fixtures.batch).
  - reflexivity.
  - discriminate.
Defined.

Lemma shallow_fixture (rootHex : string) (index : Z) :
  shallowTask (Fixtures.merkleTask rootHex 2 index).
Proof.
  split; [reflexivity |]. split; [| cbn; lia].
  repeat constructor.
Qed.

Lemma verifyMerkleProof_shallow_tasks_witness :
  length (events (NuwChallengeService.verifyMerkleProof Fixtures.platform
                    Fixtures.root2 Fixtures.leafAA
                    [Fixtures.siblingBB; Fixtures.siblingBB] 1))
  = 2%nat.
Proof.
  exact (proj1 (proj2 (proj2
           (verifyMerkleProof_shallow_tasks Fixtures.platform
              (Fixtures.merkleTask Fixtures.root2 2 1)
              SHA256_digest_length
              (shallow_fixture Fixtures.root2 1))))).
Defined.

Lemma solveMerkleVerify_results_witness :
  outcome (NuwChallengeService.solveChallenge Fixtures.platform
             Fixtures.merkleChallenge)
  = inr {| NuwChallengeService.sol_challenge_id := "nuw-4";
           NuwChallengeService.sol_challenge_type :=
             NuwChallengeService.MERKLE_VERIFY;
           NuwChallengeService.argon2_solution := None;
           NuwChallengeService.signature_results := None;
           NuwChallengeService.zk_result := None;
           NuwChallengeService.merkle_results :=
             Some (map (expectedMerkleResult SHA256.digest)
                     [Fixtures.merkleTask Fixtures.root2 2 1]) |}.
Proof.
  apply (solveMerkleVerify_results Fixtures.platform Fixtures.merkleChallenge
           [Fixtures.merkleTask Fixtures.root2 2 1]).
  - exact SHA256_digest_length.
  - vm_compute. discriminate.
  - reflexivity.
  - reflexivity.
  - discriminate.
  - constructor; [apply shallow_fixture | constructor].
Defined.

Lemma call_error_flags_witness :
  RpcService.requiresChallenge
    {| RpcService.message := "challenge required";
       RpcService.code := -32001;
       RpcService.isNetworkError := false;
       RpcService.isCorsError := false;
       RpcService.requiresChallenge := true |} = true
  <-> exists response eo d,
        @Fixtures.rejectingNode unit unit (rpcUrlOf "http://node")
          (requestOf 0 "ping" tt) RpcService.defaultTimeout
        = RpcService.Emits (Some response)
        /\ RpcService.error response = Some eo
        /\ RpcService.data eo = Some d
        /\ RpcService.requires_challenge d = Some true
        /\ -32001 = RpcService.error_code eo
        /\ "challenge required" = RpcService.error_message eo
        /\ false = false
        /\ false = false.
Proof.
  exact (proj1 (call_error_flags (@Fixtures.rejectingNode unit unit) true 0
                  "http://node" "ping" tt
                  {| RpcService.message := "challenge required";
                     RpcService.code := -32001;
                     RpcService.isNetworkError := false;
                     RpcService.isCorsError := false;
                     RpcService.requiresChallenge := true |}
                  eq_refl)).
Defined.

Lemma sendTransaction_messages_witness :
  fst (fst (TransactionService.sendTransaction
              (Fixtures.answeringNode Fixtures.challengeAnswer)
              Fixtures.rejectingNode true
              (Fixtures.platformWith Fixtures.alwaysZero) 0 "http://node"
              Fixtures.transfer))
  = inl (TransactionService.Error
           "Transaction requires proof-of-work challenge. Please try again.").
Proof.
  assert (Hsolved :
    outcome (fst (ChallengeService.getSolvedChallenge
                    (Fixtures.answeringNode Fixtures.challengeAnswer) true
                    (Fixtures.platformWith Fixtures.alwaysZero) 0
                    "http://node"))
    = inr Fixtures.solvedAnswer) by (vm_compute; reflexivity).
  destruct (sendTransaction_messages
              (Fixtures.answeringNode Fixtures.challengeAnswer)
              Fixtures.rejectingNode true
              (Fixtures.platformWith Fixtures.alwaysZero) 0 "http://node"
              Fixtures.transfer Fixtures.solvedAnswer Hsolved)
    as [_ [_ [_ [Hnode _]]]].
  exact (proj1 (Hnode _ Fixtures.challengeRequired eq_refl eq_refl)
           _ eq_refl eq_refl).
Defined.

Lemma createToken_is_hex_witness :
  PaymentRequestService.createToken [0; 255; 16; 171]
  = ChallengeService.bytesToHex [0; 255; 16; 171]
  /\ String.length (PaymentRequestService.createToken [0; 255; 16; 171])
     = (2 * 4)%nat
  /\ ChallengeService.hexToBytes
       (PaymentRequestService.createToken [0; 255; 16; 171])
     = [0; 255; 16; 171]
  /\ (forall other,
        isBytes other ->
        PaymentRequestService.createToken other
        = PaymentRequestService.createToken [0; 255; 16; 171] ->
        other = [0; 255; 16; 171]).
Proof.
  apply (createToken_is_hex [0; 255; 16; 171]). repeat constructor; lia.
Defined.
